(** * Heredity: exact inference over a pedigree (src/heredity/heredity.py)

    A shallow embedding of the inference engine of [heredity.py]:
    [powerset], [pass_prob], [joint_probability], [update], [normalize] and
    the enumeration loop of [main], followed by the vocabulary of the
    specification, the lemmas about the program and the properties claimed
    by the specification.

    Conventions of the embedding.
    - Python dictionaries keyed by person names are [gmap string _];
      Python sets of names are [gset string].  Dictionary indexing that can
      raise [KeyError] goes through [getitem].  A loop over a dictionary or
      over a set visits the keys in the order of the finite map; Python's
      order (insertion order, hash order) is not modelled, and over exact
      arithmetic no result depends on it.
    - The dictionaries with a fixed shape, [probabilities[person]] and
      [joint_probes[person]], are records.
    - The probability tables [PROBS] are finite maps indexed by the gene
      count, as in the source.
    - Python floats are idealised as exact rationals ([Qc], canonical
      fractions with Leibniz equality): [0.96] is the fraction 24/25.
      Division raises [ZeroDivisionError] on a zero divisor, as Python's
      [/] does.
    - Exceptions are values of the error monad [result].
    - Opening and parsing the CSV file and printing are not modelled:
      [load_data] takes the rows that [csv.DictReader] yields, and [main]
      takes the loaded population and returns the posteriors.

    The module [Binary64] repeats the accumulation of [main] with the
    weights as binary64 floating-point numbers, dictionaries in insertion
    order and the iteration order of sets as a parameter.  It shows where
    the exact laws stop: the properties of the weights proved over the
    rationals are stated as properties over exact arithmetic.

    The game of [tictactoe.py] is embedded in the module [TicTacToe] at the
    end of the definitions; its properties close the file. *)

From Stdlib Require Import QArith Qcanon.
From Stdlib Require PrimFloat.
From stdpp Require Import numbers strings list fin_maps gmap.

Open Scope Qc_scope.

(** ** Exceptions *)

Inductive exn : Type :=
| KeyError
| ZeroDivisionError.

Inductive result (A : Type) : Type :=
| Ok (a : A)
| Raise (e : exn).
Arguments Ok {A} a.
Arguments Raise {A} e.

#[global] Instance result_ret : MRet result := λ A a, Ok a.
#[global] Instance result_bind : MBind result := λ A B f m,
  match m with
  | Ok a => f a
  | Raise e => Raise e
  end.

(** [d[k]] on a dictionary. *)
Definition getitem `{Countable K} {V} (d : gmap K V) (k : K) : result V :=
  match d !! k with
  | Some v => Ok v
  | None => Raise KeyError
  end.

(** [d[k]] where the key is a Python value that may be [None]; no dictionary
    of the program has [None] among its keys. *)
Definition getitem_opt `{Countable K} {V} (d : gmap K V) (k : option K) : result V :=
  match k with
  | Some k => getitem d k
  | None => Raise KeyError
  end.

(** [x / y] on numbers. *)
Definition divide (x y : Qc) : result Qc :=
  if decide (y = 0) then Raise ZeroDivisionError else Ok (x / y).

(** [for x in l: s = body(s, x)], stopping at the first exception. *)
Fixpoint for_each {A S : Type} (l : list A) (body : S → A → result S) (s : S)
  : result S :=
  match l with
  | [] => Ok s
  | x :: l' => s' ← body s x; for_each l' body s'
  end.

(** ** Data model *)

(** One row of the population, as built by [load_data]. *)
Record Person : Type := {
  name : string;
  mother : option string;
  father : option string;
  trait : option bool
}.

(** The entry of [joint_probes] for one person.  The source also stores the
    person's factor under the key ["p"]; that field is written and never
    read, and is left out. *)
Record Probe : Type := {
  probe_gene : nat;
  probe_trait : bool
}.

(** [probabilities[person]]: the dictionary
    [{"gene": {2: _, 1: _, 0: _}, "trait": {True: _, False: _}}]. *)
Record Distribution : Type := {
  gene2 : Qc;
  gene1 : Qc;
  gene0 : Qc;
  trait_true : Qc;
  trait_false : Qc
}.

(** ** The tables [PROBS] *)

Definition PROBS_gene : gmap nat Qc :=
  {[ 2%nat := Q2Qc 0.01; 1%nat := Q2Qc 0.03; 0%nat := Q2Qc 0.96 ]}.

Definition PROBS_trait : gmap nat (gmap bool Qc) :=
  {[ 2%nat := {[ true := Q2Qc 0.65; false := Q2Qc 0.35 ]};
     1%nat := {[ true := Q2Qc 0.56; false := Q2Qc 0.44 ]};
     0%nat := {[ true := Q2Qc 0.01; false := Q2Qc 0.99 ]} ]}.

Definition PROBS_mutation : Qc := Q2Qc 0.01.

(** ** [powerset] *)

(** [itertools.combinations(l, r)]: the [r]-element subsequences of [l], in
    lexicographic order of positions. *)
Fixpoint combinations {A : Type} (l : list A) (r : nat) : list (list A) :=
  match r with
  | O => [[]]
  | S r' =>
      match l with
      | [] => []
      | x :: l' => ((x ::.) <$> combinations l' r') ++ combinations l' r
      end
  end.

Definition powerset (s : gset string) : list (gset string) :=
  let s := elements s in
  list_to_set <$> (seq 0 (length s + 1) ≫= combinations s).

(** ** [pass_prob] *)

Definition pass_prob (gene_count : nat) : Qc :=
  let MUTATION := PROBS_mutation in
  if decide (gene_count = 0%nat) then MUTATION
  else if decide (gene_count = 1%nat) then Q2Qc 0.5
  else 1 - MUTATION.

(** ** [joint_probability] *)

(** First loop: the gene count and trait assigned to [key]. *)
Definition probe_of (one_gene two_genes have_trait : gset string) (key : string)
  : Probe :=
  {| probe_gene :=
       if decide (key ∈ one_gene) then 1%nat
       else if decide (key ∈ two_genes) then 2%nat
       else 0%nat;
     probe_trait := bool_decide (key ∈ have_trait) |}.

(** Body of the second loop: the factor of [key]. *)
Definition person_probability (people : gmap string Person)
    (joint_probes : gmap string Probe) (key : string) : result Qc :=
  probe ← getitem joint_probes key;
  let gene := probe_gene probe in
  let trait := probe_trait probe in
  person ← getitem people key;
  let mother := mother person in
  let father := father person in
  p_gene ←
    (if decide (mother = None ∧ father = None) then
       getitem PROBS_gene gene
     else
       mom ← getitem_opt joint_probes mother;
       let mom_pass := pass_prob (probe_gene mom) in
       dad ← getitem_opt joint_probes father;
       let dad_pass := pass_prob (probe_gene dad) in
       if decide (gene = 0%nat) then
         mret ((1 - mom_pass) * (1 - dad_pass))
       else if decide (gene = 1%nat) then
         mret (mom_pass * (1 - dad_pass) + (1 - mom_pass) * dad_pass)
       else
         mret (mom_pass * dad_pass));
  by_trait ← getitem PROBS_trait gene;
  p_trait ← getitem by_trait trait;
  mret (p_gene * p_trait).

(** The dictionary [joint_probes] after the first loop. *)
Definition joint_probes_of (people : gmap string Person)
    (one_gene two_genes have_trait : gset string) : gmap string Probe :=
  map_imap (λ key _, Some (probe_of one_gene two_genes have_trait key)) people.

Definition joint_probability (people : gmap string Person)
    (one_gene two_genes have_trait : gset string) : result Qc :=
  let joint_probes := joint_probes_of people one_gene two_genes have_trait in
  map_fold (λ key _ acc,
      joint_prob ← acc;
      p ← person_probability people joint_probes key;
      mret (joint_prob * p))
    (Ok 1) joint_probes.

(** ** [update] *)

Definition update_person (one_gene two_genes have_trait : gset string) (p : Qc)
    (key : string) (d : Distribution) : Distribution :=
  let d :=
    if decide (key ∈ one_gene) then
      {| gene2 := gene2 d; gene1 := gene1 d + p; gene0 := gene0 d;
         trait_true := trait_true d; trait_false := trait_false d |}
    else if decide (key ∈ two_genes) then
      {| gene2 := gene2 d + p; gene1 := gene1 d; gene0 := gene0 d;
         trait_true := trait_true d; trait_false := trait_false d |}
    else
      {| gene2 := gene2 d; gene1 := gene1 d; gene0 := gene0 d + p;
         trait_true := trait_true d; trait_false := trait_false d |} in
  if decide (key ∈ have_trait) then
    {| gene2 := gene2 d; gene1 := gene1 d; gene0 := gene0 d;
       trait_true := trait_true d + p; trait_false := trait_false d |}
  else
    {| gene2 := gene2 d; gene1 := gene1 d; gene0 := gene0 d;
       trait_true := trait_true d; trait_false := trait_false d + p |}.

Definition update (probabilities : gmap string Distribution)
    (one_gene two_genes have_trait : gset string) (p : Qc)
  : gmap string Distribution :=
  map_imap (λ key d, Some (update_person one_gene two_genes have_trait p key d))
    probabilities.

(** ** [normalize] *)

(** [sum(probabilities[key]["gene"].values())]: Python's [sum] starts from 0
    and adds the values in the dictionary's order 2, 1, 0. *)
Definition gene_count (d : Distribution) : Qc := 0 + gene2 d + gene1 d + gene0 d.

(** [sum(probabilities[key]["trait"].values())]. *)
Definition trait_count (d : Distribution) : Qc := 0 + trait_true d + trait_false d.

Definition normalize_person (d : Distribution) : result Distribution :=
  let gene_count := gene_count d in
  let trait_count := trait_count d in
  g2 ← divide (gene2 d) gene_count;
  g1 ← divide (gene1 d) gene_count;
  g0 ← divide (gene0 d) gene_count;
  tt ← divide (trait_true d) trait_count;
  tf ← divide (trait_false d) trait_count;
  mret {| gene2 := g2; gene1 := g1; gene0 := g0;
          trait_true := tt; trait_false := tf |}.

Definition normalize (probabilities : gmap string Distribution)
  : result (gmap string Distribution) :=
  map_fold (λ key d acc,
      normalised ← acc;
      d' ← normalize_person d;
      mret (<[key := d']> normalised))
    (Ok ∅) probabilities.

(** ** The inference run of [main] *)

Definition zero_distribution : Distribution :=
  {| gene2 := 0; gene1 := 0; gene0 := 0; trait_true := 0; trait_false := 0 |}.

(** [any(people[person]["trait"] is not None and
         people[person]["trait"] != (person in have_trait)
         for person in names)].  [names] is [set(people)], so the lookup of
    [person] in [people] always succeeds. *)
Definition fails_evidence (people : gmap string Person) (names : gset string)
    (have_trait : gset string) : bool :=
  existsb (λ person,
      match people !! person with
      | Some row =>
          match trait row with
          | Some observed =>
              negb (eqb observed (bool_decide (person ∈ have_trait)))
          | None => false
          end
      | None => false
      end)
    (elements names).

(** The two loops of [main] over the gene partitions, for one [have_trait]. *)
Definition gene_rounds (people : gmap string Person) (names : gset string)
    (have_trait : gset string) (probabilities : gmap string Distribution)
  : result (gmap string Distribution) :=
  for_each (powerset names) (λ probabilities one_gene,
      for_each (powerset (names ∖ one_gene)) (λ probabilities two_genes,
          p ← joint_probability people one_gene two_genes have_trait;
          mret (update probabilities one_gene two_genes have_trait p))
        probabilities)
    probabilities.

(** Body of the loop of [main] over the trait sets; the first branch is the
    [continue]. *)
Definition trait_round (people : gmap string Person) (names : gset string)
    (probabilities : gmap string Distribution) (have_trait : gset string)
  : result (gmap string Distribution) :=
  if fails_evidence people names have_trait then
    Ok probabilities
  else
    gene_rounds people names have_trait probabilities.

(** The enumeration loop of [main]: the accumulated, not yet normalised
    [probabilities]. *)
Definition accumulate (people : gmap string Person)
  : result (gmap string Distribution) :=
  let probabilities : gmap string Distribution :=
    (λ _, zero_distribution) <$> people in
  let names := dom people in
  for_each (powerset names) (trait_round people names) probabilities.

(** [main] from the loaded population to the normalised posteriors; reading
    the CSV file and printing are outside the model. *)
Definition main (people : gmap string Person) : result (gmap string Distribution) :=
  probabilities ← accumulate people;
  normalize probabilities.

(** ** [load_data] *)

(** A row of the population file as [csv.DictReader] yields it: the four
    fields [name], [mother], [father] and [trait].  Opening the file and
    splitting it into rows is the work of the [csv] library and is not
    modelled; a field that a short row leaves out is read as [None] by the
    reader and is indistinguishable from a blank one in [load_data], so it is
    modelled as the empty string. *)
Record CsvRow : Type := {
  csv_name : string;
  csv_mother : string;
  csv_father : string;
  csv_trait : string
}.

(** [field or None] on a string. *)
Definition or_None (field : string) : option string :=
  if decide (field = "") then None else Some field.

(** The dictionary literal built for one row. *)
Definition person_of_row (row : CsvRow) : Person :=
  {| name := csv_name row;
     mother := or_None (csv_mother row);
     father := or_None (csv_father row);
     trait := if decide (csv_trait row = "1") then Some true
              else if decide (csv_trait row = "0") then Some false
              else None |}.

Definition load_data (rows : list CsvRow) : gmap string Person :=
  foldl (λ data row, <[csv_name row := person_of_row row]> data) ∅ rows.

(** ** Vocabulary of the specification *)

(** A recorded call [update(probabilities, one_gene, two_genes, have_trait, p)]. *)
Record Call : Type := {
  call_one_gene : gset string;
  call_two_genes : gset string;
  call_have_trait : gset string;
  call_p : Qc
}.

(** Applying the recorded calls in order, from the accumulators [probabilities]. *)
Definition replay (probabilities : gmap string Distribution) (calls : list Call)
  : gmap string Distribution :=
  foldl (λ probabilities c,
      update probabilities (call_one_gene c) (call_two_genes c)
        (call_have_trait c) (call_p c))
    probabilities calls.

(** The sum of the joint probabilities of a list of calls. *)
Definition total (calls : list Call) : Qc :=
  foldr (λ c acc, call_p c + acc) 0 calls.

(** The all-zero accumulators with which [main] starts. *)
Definition zero_accumulators (people : gmap string Person)
  : gmap string Distribution :=
  (λ _, zero_distribution) <$> people.

(** Elementwise addition of two persons' accumulators. *)
Definition add_distribution (d1 d2 : Distribution) : Distribution :=
  {| gene2 := gene2 d1 + gene2 d2;
     gene1 := gene1 d1 + gene1 d2;
     gene0 := gene0 d1 + gene0 d2;
     trait_true := trait_true d1 + trait_true d2;
     trait_false := trait_false d1 + trait_false d2 |}.

(** Merging the accumulators of two workers by elementwise addition. *)
Definition merge_accumulators (a b : gmap string Distribution)
  : gmap string Distribution :=
  map_zip_with add_distribution a b.

(** A person's accumulators with each weight divided by the sum of its own
    distribution. *)
Definition normalized (d : Distribution) : Distribution :=
  {| gene2 := gene2 d / gene_count d;
     gene1 := gene1 d / gene_count d;
     gene0 := gene0 d / gene_count d;
     trait_true := trait_true d / trait_count d;
     trait_false := trait_false d / trait_count d |}.

(** Neither distribution of the person has a zero sum. *)
Definition summable (d : Distribution) : Prop :=
  gene_count d ≠ 0 ∧ trait_count d ≠ 0.

(** *** The probability model *)

(** The product of a list of factors. *)
Definition product (l : list Qc) : Qc := foldr Qcmult 1 l.

(** The sum of a list of weights. *)
Definition sum_list (l : list Qc) : Qc := foldr Qcplus 0 l.

(** The population is well formed: every person has either no parents, or a
    mother and a father who are both rows of the population. *)
Definition parents_resolve (people : gmap string Person) (row : Person) : bool :=
  match mother row, father row with
  | None, None => true
  | Some m, Some f => bool_decide (m ∈ dom people) && bool_decide (f ∈ dom people)
  | _, _ => false
  end.

Definition well_formed (people : gmap string Person) : bool :=
  forallb (λ entry, parents_resolve people entry.2) (map_to_list people).

(** The gene count a configuration assigns to a person. *)
Definition assigned_gene (one_gene two_genes : gset string) (key : string) : nat :=
  if decide (key ∈ one_gene) then 1%nat
  else if decide (key ∈ two_genes) then 2%nat
  else 0%nat.

(** The unconditional prior over the gene count. *)
Definition prior (gene : nat) : Qc :=
  match gene with
  | 0%nat => Q2Qc 0.96
  | 1%nat => Q2Qc 0.03
  | _ => Q2Qc 0.01
  end.

(** The probability of the trait given the gene count. *)
Definition trait_given_gene (gene : nat) (has_trait : bool) : Qc :=
  match gene, has_trait with
  | 0%nat, true => Q2Qc 0.01
  | 0%nat, false => Q2Qc 0.99
  | 1%nat, true => Q2Qc 0.56
  | 1%nat, false => Q2Qc 0.44
  | _, true => Q2Qc 0.65
  | _, false => Q2Qc 0.35
  end.

(** The probability that a parent with [gene] copies transmits the gene. *)
Definition transmission (gene : nat) : Qc :=
  match gene with
  | 0%nat => Q2Qc 0.01
  | 1%nat => Q2Qc 0.5
  | _ => 1 - Q2Qc 0.01
  end.

(** The probability that a child has [gene] copies, from the transmission
    probabilities [mom] and [dad] of the parents. *)
Definition inherited (gene : nat) (mom dad : Qc) : Qc :=
  match gene with
  | 0%nat => (1 - mom) * (1 - dad)
  | 1%nat => mom * (1 - dad) + (1 - mom) * dad
  | _ => mom * dad
  end.

(** The probability that the person of [row] has [gene] copies, given the
    gene counts the configuration assigns to the parents. *)
Definition gene_probability_at (one_gene two_genes : gset string)
    (row : Person) (gene : nat) : Qc :=
  match mother row, father row with
  | Some m, Some f =>
      inherited gene
        (transmission (assigned_gene one_gene two_genes m))
        (transmission (assigned_gene one_gene two_genes f))
  | _, _ => prior gene
  end.

(** The gene probability of a person in a configuration. *)
Definition gene_probability (one_gene two_genes : gset string)
    (key : string) (row : Person) : Qc :=
  gene_probability_at one_gene two_genes row
    (assigned_gene one_gene two_genes key).

(** The factor of a person: gene probability times trait probability. *)
Definition factor (one_gene two_genes have_trait : gset string)
    (key : string) (row : Person) : Qc :=
  gene_probability one_gene two_genes key row
  * trait_given_gene (assigned_gene one_gene two_genes key)
      (bool_decide (key ∈ have_trait)).

(** The factor of the person named [key], 1 for a name outside the
    population. *)
Definition factor_of (people : gmap string Person) (og tg ht : gset string)
    (key : string) : Qc :=
  match people !! key with
  | Some row => factor og tg ht key row
  | None => 1
  end.

(** The product of the factors of all people. *)
Definition joint (people : gmap string Person)
    (one_gene two_genes have_trait : gset string) : Qc :=
  product ((λ entry, factor one_gene two_genes have_trait entry.1 entry.2)
             <$> map_to_list people).

(** *** The configurations of a run *)

(** A trait set agrees with every known observation. *)
Definition consistent (people : gmap string Person) (have_trait : gset string)
  : Prop :=
  ∀ person row observed,
    people !! person = Some row → trait row = Some observed →
    bool_decide (person ∈ have_trait) = observed.

(** The calls of [update] made for one trait set, in order. *)
Definition gene_calls (people : gmap string Person) (have_trait : gset string)
  : list Call :=
  one_gene ← powerset (dom people);
  two_genes ← powerset (dom people ∖ one_gene);
  [ {| call_one_gene := one_gene; call_two_genes := two_genes;
       call_have_trait := have_trait;
       call_p := joint people one_gene two_genes have_trait |} ].

(** The calls of [update] made by a whole run, in order. *)
Definition calls_of (people : gmap string Person) : list Call :=
  have_trait ← powerset (dom people);
  if fails_evidence people (dom people) have_trait then []
  else gene_calls people have_trait.

(** What a recorded call does to the accumulators of the person [key]. *)
Definition apply_call (key : string) (d : Distribution) (c : Call)
  : Distribution :=
  update_person (call_one_gene c) (call_two_genes c) (call_have_trait c)
    (call_p c) key d.

(** The accumulators of the person [key] after the calls, starting from [d]. *)
Definition tally (key : string) (d : Distribution) (calls : list Call)
  : Distribution :=
  foldl (apply_call key) d calls.

(** The people observed to have the trait. *)
Definition observed_true (people : gmap string Person) : gset string :=
  dom (filter (λ entry, trait entry.2 = Some true) people).

(** *** Pedigrees *)

(** Nobody in the population has [x] as mother or father. *)
Definition childless (people : gmap string Person) (x : string) : Prop :=
  ∀ c row, people !! c = Some row →
           mother row ≠ Some x ∧ father row ≠ Some x.

(** No descendant of [x] has an observed trait, and below [x] the pedigree
    is well founded (no person below [x] is their own ancestor). *)
Inductive evidence_free_below (people : gmap string Person) : string → Prop :=
| evidence_free_below_intro x :
    (∀ c row, people !! c = Some row →
              mother row = Some x ∨ father row = Some x → trait row = None) →
    (∀ c row, people !! c = Some row →
              mother row = Some x ∨ father row = Some x →
              evidence_free_below people c) →
    evidence_free_below people x.

(** A configuration of the population without [x], extended by giving [x]
    the gene count [g] and the trait [t]; its probability is the joint
    probability in the population [people]. *)
Definition variant (people : gmap string Person) (x : string) (c : Call)
    (g : nat) (t : bool) : Call :=
  let one_gene :=
    if decide (g = 1%nat) then {[x]} ∪ call_one_gene c else call_one_gene c in
  let two_genes :=
    if decide (g = 2%nat) then {[x]} ∪ call_two_genes c else call_two_genes c in
  let have_trait :=
    if t then {[x]} ∪ call_have_trait c else call_have_trait c in
  {| call_one_gene := one_gene; call_two_genes := two_genes;
     call_have_trait := have_trait;
     call_p := joint people one_gene two_genes have_trait |}.

(** The six extensions of a configuration of the population without [x]. *)
Definition extend (people : gmap string Person) (x : string) (c : Call)
  : list Call :=
  g ← [0%nat; 1%nat; 2%nat]; t ← [false; true]; [variant people x c g t].

(** Adding [p] to the gene bucket [g] and to the trait bucket [t]. *)
Definition bump (g : nat) (t : bool) (p : Qc) (d : Distribution)
  : Distribution :=
  {| gene2 := gene2 d + (if decide (g = 2%nat) then p else 0);
     gene1 := gene1 d + (if decide (g = 1%nat) then p else 0);
     gene0 := gene0 d + (if decide (g = 0%nat) then p else 0);
     trait_true := trait_true d + (if t then p else 0);
     trait_false := trait_false d + (if t then 0 else p) |}.

(** *** Further vocabulary *)

(** Every weight of [d1] is at most the weight of [d2]. *)
Definition below (d1 d2 : Distribution) : Prop :=
  gene2 d1 ≤ gene2 d2 ∧ gene1 d1 ≤ gene1 d2 ∧ gene0 d1 ≤ gene0 d2
  ∧ trait_true d1 ≤ trait_true d2 ∧ trait_false d1 ≤ trait_false d2.

(** The trait set that gives [key] the trait [t] and otherwise follows the
    observations. *)
Definition trait_set_for (people : gmap string Person) (key : string)
    (t : bool) : gset string :=
  if t then {[key]} ∪ observed_true people
  else observed_true people ∖ {[key]}.

(** The weight of a gene count, and of a trait value, in a distribution. *)
Definition gene_weight (d : Distribution) (g : nat) : Qc :=
  match g with
  | 0%nat => gene0 d
  | 1%nat => gene1 d
  | _ => gene2 d
  end.

Definition trait_weight (d : Distribution) (t : bool) : Qc :=
  if t then trait_true d else trait_false d.

(** The pedigree can be taken apart by removing, one at a time, a person
    who is nobody's parent: no person is their own ancestor. *)
Inductive acyclic : gmap string Person → Prop :=
| acyclic_empty : acyclic ∅
| acyclic_remove people x :
    is_Some (people !! x) → childless people x →
    acyclic (delete x people) → acyclic people.

(** The people whose trait is not observed. *)
Definition unobserved (people : gmap string Person) : gset string :=
  dom (filter (λ entry, trait entry.2 = None) people).

(** Every weight of [d] multiplied by [k]. *)
Definition scale (k : Qc) (d : Distribution) : Distribution :=
  {| gene2 := k * gene2 d; gene1 := k * gene1 d; gene0 := k * gene0 d;
     trait_true := k * trait_true d; trait_false := k * trait_false d |}.


(** [row'] has the observation of [row] and the same two parents, in the
    same or in the other order; the names of the records may differ. *)
Definition same_family (row row' : Person) : Prop :=
  trait row' = trait row
  ∧ ((mother row' = mother row ∧ father row' = father row)
     ∨ (mother row' = father row ∧ father row' = mother row)).

(** The record with mother and father exchanged. *)
Definition swap_parents (row : Person) : Person :=
  {| name := name row; mother := father row; father := mother row;
     trait := trait row |}.

(** ** Sample populations *)

Definition orphan (n : string) (t : option bool) : Person :=
  {| name := n; mother := None; father := None; trait := t |}.

Definition child (n m f : string) (t : option bool) : Person :=
  {| name := n; mother := Some m; father := Some f; trait := t |}.

(** Harry is the child of Lily and James; James is observed to have the
    trait, Lily not to have it, and Harry's trait is not observed. *)
Definition family0 : gmap string Person :=
  {[ "Harry" := child "Harry" "Lily" "James" None;
     "James" := orphan "James" (Some true);
     "Lily" := orphan "Lily" (Some false) ]}.

(** An ill-formed population: Ron's parents are not rows of the population.
    Ron is observed not to have the trait. *)
Definition family_missing_parents : gmap string Person :=
  {[ "Ron" := child "Ron" "Molly" "Arthur" (Some false) ]}.

(** Harry is observed to have the trait; nothing is known about his parents
    Lily and James. *)
Definition family_evidence_below : gmap string Person :=
  {[ "Harry" := child "Harry" "Lily" "James" (Some true);
     "James" := orphan "James" None;
     "Lily" := orphan "Lily" None ]}.

(** Harry's trait is not observed; his father James is observed to have the
    trait and nothing is known about his mother Lily. *)
Definition family_no_evidence_below : gmap string Person :=
  {[ "Harry" := child "Harry" "Lily" "James" None;
     "James" := orphan "James" (Some true);
     "Lily" := orphan "Lily" None ]}.

(** Nobody's trait is observed; three people. *)
Definition family_unobserved : gmap string Person :=
  {[ "Harry" := child "Harry" "Lily" "James" None;
     "James" := orphan "James" None;
     "Lily" := orphan "Lily" None ]}.


(** * The accumulation in binary64 (src/heredity/heredity.py) *)

Module Binary64.

Import PrimFloat.
Local Open Scope float_scope.
#[local] Set Warnings "-inexact-float".

(** [probabilities[person]] with the weights as Python holds them. *)
Record Distribution : Type := {
  gene2 : float;
  gene1 : float;
  gene0 : float;
  trait_true : float;
  trait_false : float
}.

Definition PROBS_gene : gmap nat float :=
  {[ 2%nat := 0.01; 1%nat := 0.03; 0%nat := 0.96 ]}.

Definition PROBS_trait : gmap nat (gmap bool float) :=
  {[ 2%nat := {[ true := 0.65; false := 0.35 ]};
     1%nat := {[ true := 0.56; false := 0.44 ]};
     0%nat := {[ true := 0.01; false := 0.99 ]} ]}.

Definition PROBS_mutation : float := 0.01.

(** A dictionary keyed by names, in insertion order: the order in which a
    loop over the dictionary visits its keys. *)
Fixpoint dict_lookup {V : Type} (d : list (string * V)) (k : string)
  : option V :=
  match d with
  | [] => None
  | (k', v) :: d => if decide (k = k') then Some v else dict_lookup d k
  end.

(** [d[k]]. *)
Definition dict_getitem {V : Type} (d : list (string * V)) (k : string)
  : result V :=
  match dict_lookup d k with
  | Some v => Ok v
  | None => Raise KeyError
  end.

(** [d[k]] where [k] may be [None]. *)
Definition dict_getitem_opt {V : Type} (d : list (string * V))
    (k : option string) : result V :=
  match k with
  | Some k => dict_getitem d k
  | None => Raise KeyError
  end.

Definition pass_prob (gene_count : nat) : float :=
  let MUTATION := PROBS_mutation in
  if decide (gene_count = 0%nat) then MUTATION
  else if decide (gene_count = 1%nat) then 0.5
  else 1 - MUTATION.

(** Body of the second loop of [joint_probability]. *)
Definition person_probability (people : list (string * Person))
    (joint_probes : list (string * Probe)) (key : string) : result float :=
  probe ← dict_getitem joint_probes key;
  let gene := probe_gene probe in
  let trait := probe_trait probe in
  person ← dict_getitem people key;
  let mother := mother person in
  let father := father person in
  p_gene ←
    (if decide (mother = None ∧ father = None) then
       getitem PROBS_gene gene
     else
       mom ← dict_getitem_opt joint_probes mother;
       let mom_pass := pass_prob (probe_gene mom) in
       dad ← dict_getitem_opt joint_probes father;
       let dad_pass := pass_prob (probe_gene dad) in
       if decide (gene = 0%nat) then
         mret ((1 - mom_pass) * (1 - dad_pass))
       else if decide (gene = 1%nat) then
         mret (mom_pass * (1 - dad_pass) + (1 - mom_pass) * dad_pass)
       else
         mret (mom_pass * dad_pass));
  by_trait ← getitem PROBS_trait gene;
  p_trait ← getitem by_trait trait;
  mret (p_gene * p_trait).

Definition joint_probability (people : list (string * Person))
    (one_gene two_genes have_trait : gset string) : result float :=
  let joint_probes :=
    (λ entry : string * Person,
       (entry.1, probe_of one_gene two_genes have_trait entry.1)) <$> people in
  for_each joint_probes (λ joint_prob entry,
      p ← person_probability people joint_probes entry.1;
      mret (joint_prob * p))
    1.

Definition update_person (one_gene two_genes have_trait : gset string)
    (p : float) (key : string) (d : Distribution) : Distribution :=
  let d :=
    if decide (key ∈ one_gene) then
      {| gene2 := gene2 d; gene1 := gene1 d + p; gene0 := gene0 d;
         trait_true := trait_true d; trait_false := trait_false d |}
    else if decide (key ∈ two_genes) then
      {| gene2 := gene2 d + p; gene1 := gene1 d; gene0 := gene0 d;
         trait_true := trait_true d; trait_false := trait_false d |}
    else
      {| gene2 := gene2 d; gene1 := gene1 d; gene0 := gene0 d + p;
         trait_true := trait_true d; trait_false := trait_false d |} in
  if decide (key ∈ have_trait) then
    {| gene2 := gene2 d; gene1 := gene1 d; gene0 := gene0 d;
       trait_true := trait_true d + p; trait_false := trait_false d |}
  else
    {| gene2 := gene2 d; gene1 := gene1 d; gene0 := gene0 d;
       trait_true := trait_true d; trait_false := trait_false d + p |}.

Definition update (probabilities : list (string * Distribution))
    (one_gene two_genes have_trait : gset string) (p : float)
  : list (string * Distribution) :=
  (λ entry : string * Distribution,
     (entry.1, update_person one_gene two_genes have_trait p entry.1 entry.2))
    <$> probabilities.

(** [sum(values)] up to Python 3.11: the values are added to 0 from left
    to right. *)
Definition sum_values (values : list float) : float :=
  foldl (λ result item, result + item) 0 values.

(** [sum(values)] from Python 3.12 on: the first value is added to 0, the
    others by Neumaier's compensated summation, and the compensation is
    added at the end when it is finite and not zero. *)
Definition sum_values_compensated (values : list float) : float :=
  match values with
  | [] => 0
  | first :: values =>
      let '(f_result, c) :=
        foldl (λ '(f_result, c) x,
            let t := f_result + x in
            let c :=
              if abs x <=? abs f_result then c + ((f_result - t) + x)
              else c + ((x - t) + f_result) in
            (t, c))
          (0 + first, 0) values in
      if negb (c =? 0) && is_finite c then f_result + c else f_result
  end.

(** The values of [probabilities[key]["gene"]] and of
    [probabilities[key]["trait"]], in the order of the dictionaries. *)
Definition gene_values (d : Distribution) : list float :=
  [gene2 d; gene1 d; gene0 d].

Definition trait_values (d : Distribution) : list float :=
  [trait_true d; trait_false d].

Definition zero_distribution : Distribution :=
  {| gene2 := 0; gene1 := 0; gene0 := 0; trait_true := 0; trait_false := 0 |}.

Section run.

(** The order in which Python iterates a set. *)
Variable order : gset string → list string.

Definition powerset (s : gset string) : list (gset string) :=
  let s := order s in
  list_to_set <$> (seq 0 (length s + 1) ≫= combinations s).

Definition fails_evidence (people : list (string * Person))
    (names : gset string) (have_trait : gset string) : bool :=
  existsb (λ person,
      match dict_lookup people person with
      | Some row =>
          match trait row with
          | Some observed =>
              negb (Bool.eqb observed (bool_decide (person ∈ have_trait)))
          | None => false
          end
      | None => false
      end)
    (order names).

Definition gene_rounds (people : list (string * Person)) (names : gset string)
    (have_trait : gset string) (probabilities : list (string * Distribution))
  : result (list (string * Distribution)) :=
  for_each (powerset names) (λ probabilities one_gene,
      for_each (powerset (names ∖ one_gene)) (λ probabilities two_genes,
          p ← joint_probability people one_gene two_genes have_trait;
          mret (update probabilities one_gene two_genes have_trait p))
        probabilities)
    probabilities.

Definition trait_round (people : list (string * Person)) (names : gset string)
    (probabilities : list (string * Distribution)) (have_trait : gset string)
  : result (list (string * Distribution)) :=
  if fails_evidence people names have_trait then
    Ok probabilities
  else
    gene_rounds people names have_trait probabilities.

(** The enumeration loop of [main], before [normalize]. *)
Definition accumulate (people : list (string * Person))
  : result (list (string * Distribution)) :=
  let probabilities :=
    (λ entry : string * Person, (entry.1, zero_distribution)) <$> people in
  let names : gset string := list_to_set (people.*1) in
  for_each (powerset names) (trait_round people names) probabilities.

End run.

(** A population of one person, without parents and without an observed
    trait. *)
Definition single : list (string * Person) :=
  [("Harry", orphan "Harry" None)].

End Binary64.

(** * Tic-tac-toe: game rules and alpha-beta search (src/tictactoe/tictactoe.py) *)

Module TicTacToe.

Local Open Scope nat_scope.

(** ** Data *)

(** The marks ["X"] and ["O"]; a cell holds a mark or [EMPTY], which is
    [None] in the source as well. *)
Inductive mark : Type := X | O.

#[export] Instance mark_eq_dec : EqDecision mark.
Proof. solve_decision. Defined.

Abbreviation cell := (option mark).
Definition EMPTY : cell := None.

(** A board is a list of rows, each a list of cells.  The functions below
    do not check its shape; what Python does on a board that is too small
    is written out. *)
Abbreviation board := (list (list cell)).

(** An action is a pair [(i, j)] of a row index and a column index. *)
Abbreviation action := (nat * nat)%type.

(** ** Exceptions *)

Inductive error : Type := IndexError | Exception.

Inductive raises (A : Type) : Type :=
  | Val (a : A)
  | Throw (e : error).
Arguments Val {A} a.
Arguments Throw {A} e.

#[export] Instance raises_ret : MRet raises := λ A a, Val a.
#[export] Instance raises_bind : MBind raises := λ A B f m,
  match m with
  | Val a => f a
  | Throw e => Throw e
  end.

(** [board[i][j]] for non-negative [i] and [j]. *)
Definition getitem2 (b : board) (a : action) : raises cell :=
  match b !! a.1 with
  | None => Throw IndexError
  | Some row =>
      match row !! a.2 with
      | None => Throw IndexError
      | Some c => Val c
      end
  end.

(** ** The rules of the game *)

Definition initial_state : board :=
  [[EMPTY; EMPTY; EMPTY]; [EMPTY; EMPTY; EMPTY]; [EMPTY; EMPTY; EMPTY]].

Definition player (b : board) : mark :=
  let count :=
    foldl (λ count row,
      foldl (λ count c,
        if decide (c = Some X ∨ c = Some O) then count + 1 else count)
        count row)
      0 b in
  if decide (count = 0 ∨ count `mod` 2 = 0) then X else O.

Definition actions (b : board) : gset action :=
  foldl (λ actions i,
    match b !! i with
    | Some row =>
        foldl (λ actions j,
          match row !! j with
          | Some c =>
              if decide (c ≠ Some X ∧ c ≠ Some O)
              then actions ∪ {[ (i, j) ]}
              else actions
          | None => actions
          end)
          actions (seq 0 (length row))
    | None => actions
    end)
    ∅ (seq 0 (length b)).

(** The assignment [board_new[i][j] = player(board)] is in range whenever
    the action is one of [actions board]. *)
Definition result (b : board) (a : action) : raises board :=
  if decide (a ∈ actions b)
  then Val (alter (λ row, <[a.2 := Some (player b)]> row) a.1 b)
  else Throw Exception.

Definition patterns : list (action * action * action) :=
  [ ((0, 0), (0, 1), (0, 2));
    ((1, 0), (1, 1), (1, 2));
    ((2, 0), (2, 1), (2, 2));
    ((0, 0), (1, 0), (2, 0));
    ((0, 1), (1, 1), (2, 1));
    ((0, 2), (1, 2), (2, 2));
    ((0, 0), (1, 1), (2, 2));
    ((0, 2), (1, 1), (2, 0)) ].

(** The loop of [winner] over the patterns that are left.  The test
    [board[a] and board[a] == board[b] == board[c]] reads the cells from
    left to right and stops at the first part that fails. *)
Fixpoint winner_loop (b : board) (todo : list (action * action * action))
  : raises cell :=
  match todo with
  | [] => Val None
  | (a1, a2, a3) :: todo =>
      c1 ← getitem2 b a1;
      if decide (c1 = None) then winner_loop b todo else
      c1' ← getitem2 b a1;
      c2 ← getitem2 b a2;
      if decide (c1' ≠ c2) then winner_loop b todo else
      c3 ← getitem2 b a3;
      if decide (c2 ≠ c3) then winner_loop b todo else
      getitem2 b a1
  end.

Definition winner (b : board) : raises cell := winner_loop b patterns.

Definition terminal (b : board) : raises bool :=
  w ← winner b;
  if decide (w = Some O) then Val true else
  w ← winner b;
  if decide (w = Some X) then Val true else
  if decide (size (actions b) = 0) then Val true else Val false.

Definition utility (b : board) : raises Z :=
  w ← winner b;
  if decide (w = Some X) then Val 1%Z else
  w ← winner b;
  if decide (w = Some O) then Val (-1)%Z else
  Val 0%Z.

(** ** Search *)

(** Numbers with [math.inf] and [-math.inf]. *)
Inductive ext : Type := NegInf | Fin (z : Z) | PosInf.

Definition ext_le (x y : ext) : Prop :=
  match x, y with
  | NegInf, _ => True
  | _, PosInf => True
  | Fin x, Fin y => (x ≤ y)%Z
  | _, _ => False
  end.

Definition ext_lt (x y : ext) : Prop := ¬ ext_le y x.

#[export] Instance ext_le_dec x y : Decision (ext_le x y).
Proof. destruct x, y; simpl; apply _. Defined.

(** [max(x, y)] and [min(x, y)]. *)
Definition ext_max (x y : ext) : ext := if decide (ext_lt x y) then y else x.
Definition ext_min (x y : ext) : ext := if decide (ext_lt y x) then y else x.

(** The outcome of a search: [None] when the recursion was cut off by the
    fuel of the model, otherwise what Python returns or raises. *)
Definition search (A : Type) : Type := option (raises A).

Section search.

(** A Python set is iterated in an order the language leaves open.  The
    model takes the order in which [for action in actions(board)] visits
    the actions as a parameter. *)
Variable order : board → list action.

(** The body of [for action in actions(board)] of a maximising node, over
    the actions that are left; [call] is the recursive call. *)
Fixpoint max_loop (call : board → ext → ext → search ext) (b : board)
    (todo : list action) (maxEval alpha beta : ext) : search ext :=
  match todo with
  | [] => Some (Val maxEval)
  | a :: todo =>
      match result b a with
      | Throw e => Some (Throw e)
      | Val result_board =>
          match call result_board alpha beta with
          | None => None
          | Some (Throw e) => Some (Throw e)
          | Some (Val eval) =>
              let maxEval := ext_max maxEval eval in
              let alpha := ext_max alpha eval in
              if decide (ext_le beta alpha) then Some (Val maxEval)
              else max_loop call b todo maxEval alpha beta
          end
      end
  end.

Fixpoint min_loop (call : board → ext → ext → search ext) (b : board)
    (todo : list action) (minEval alpha beta : ext) : search ext :=
  match todo with
  | [] => Some (Val minEval)
  | a :: todo =>
      match result b a with
      | Throw e => Some (Throw e)
      | Val result_board =>
          match call result_board alpha beta with
          | None => None
          | Some (Throw e) => Some (Throw e)
          | Some (Val eval) =>
              let minEval := ext_min minEval eval in
              let beta := ext_min beta eval in
              if decide (ext_le beta alpha) then Some (Val minEval)
              else min_loop call b todo minEval alpha beta
          end
      end
  end.

(** [alphabeta]; the [print] of the board is output only and is left out.
    [fuel] bounds the depth of the recursion. *)
Fixpoint alphabeta (fuel : nat) (b : board) (depth : nat) (alpha beta : ext)
    (maximizingPlayer : bool) : search ext :=
  match fuel with
  | 0 => None
  | S fuel =>
      match terminal b with
      | Throw e => Some (Throw e)
      | Val true =>
          match utility b with
          | Throw e => Some (Throw e)
          | Val u => Some (Val (Fin u))
          end
      | Val false =>
          if maximizingPlayer then
            max_loop
              (λ result_board alpha beta,
                 alphabeta fuel result_board (depth + 1) alpha beta false)
              b (order b) NegInf alpha beta
          else
            min_loop
              (λ result_board alpha beta,
                 alphabeta fuel result_board (depth + 1) alpha beta true)
              b (order b) PosInf alpha beta
      end
  end.

(** The two loops of [minimax], over the actions that are left. *)
Fixpoint minimax_X_loop (fuel : nat) (b : board) (todo : list action)
    (best_val : ext) (best_move : option action) : search (option action) :=
  match todo with
  | [] => Some (Val best_move)
  | a :: todo =>
      match result b a with
      | Throw e => Some (Throw e)
      | Val result_board =>
          match alphabeta fuel result_board 0 NegInf PosInf false with
          | None => None
          | Some (Throw e) => Some (Throw e)
          | Some (Val moveEval) =>
              if decide (ext_lt best_val moveEval)
              then minimax_X_loop fuel b todo moveEval (Some a)
              else minimax_X_loop fuel b todo best_val best_move
          end
      end
  end.

Fixpoint minimax_O_loop (fuel : nat) (b : board) (todo : list action)
    (best_val : ext) (best_move : option action) : search (option action) :=
  match todo with
  | [] => Some (Val best_move)
  | a :: todo =>
      match result b a with
      | Throw e => Some (Throw e)
      | Val result_board =>
          match alphabeta fuel result_board 0 NegInf PosInf true with
          | None => None
          | Some (Throw e) => Some (Throw e)
          | Some (Val moveEval) =>
              if decide (ext_lt moveEval best_val)
              then minimax_O_loop fuel b todo moveEval (Some a)
              else minimax_O_loop fuel b todo best_val best_move
          end
      end
  end.

(** [player] returns [X] or [O], so exactly one of the two [if] blocks of
    [minimax] runs. *)
Definition minimax (fuel : nat) (b : board) : search (option action) :=
  match terminal b with
  | Throw e => Some (Throw e)
  | Val true => Some (Val None)
  | Val false =>
      match player b with
      | X => minimax_X_loop fuel b (order b) NegInf None
      | O => minimax_O_loop fuel b (order b) PosInf None
      end
  end.

End search.

(** ** Vocabulary for the properties *)

(** The cell at a position, if the board has it. *)
Definition cell_at (b : board) (a : action) : option cell :=
  row ← b !! a.1; row !! a.2.

(** Boards of three rows of three cells. *)
Definition three_by_three (b : board) : Prop :=
  length b = 3 ∧ Forall (λ row, length row = 3) b.

(** The number of marks on the board. *)
Definition marks (b : board) : nat :=
  length (filter (λ c : cell, is_Some c) (concat b)).

(** [m] holds the three cells of one of the eight lines. *)
Definition has_line (b : board) (m : mark) : Prop :=
  ∃ a1 a2 a3, (a1, a2, a3) ∈ patterns
    ∧ cell_at b a1 = Some (Some m)
    ∧ cell_at b a2 = Some (Some m)
    ∧ cell_at b a3 = Some (Some m).

(** The value of a position under full-depth minimax: the utility of a
    finished game, otherwise the largest (for the maximising player) or
    smallest (for the minimising player) value among the positions one
    move away. *)
Inductive game_value : bool → board → Z → Prop :=
  | game_value_terminal maximizing b u :
      terminal b = Val true → utility b = Val u →
      game_value maximizing b u
  | game_value_max b v :
      terminal b = Val false →
      (∀ a, a ∈ actions b →
         ∃ b' v', result b a = Val b' ∧ game_value false b' v' ∧ (v' ≤ v)%Z) →
      (∃ a b', a ∈ actions b ∧ result b a = Val b' ∧ game_value false b' v) →
      game_value true b v
  | game_value_min b v :
      terminal b = Val false →
      (∀ a, a ∈ actions b →
         ∃ b' v', result b a = Val b' ∧ game_value true b' v' ∧ (v ≤ v')%Z) →
      (∃ a b', a ∈ actions b ∧ result b a = Val b' ∧ game_value true b' v) →
      game_value false b v.

(** What a fail-soft alpha-beta search over the window [(alpha, beta)] may
    return for a position whose value is [value]: the value itself when the
    returned number lies strictly inside the window, an upper bound of the
    value when it is at most [alpha], a lower bound when it is at least
    [beta]. *)
Definition within (alpha beta : ext) (value v : Z) : Prop :=
  (ext_le (Fin v) alpha → (value ≤ v)%Z)
  ∧ (ext_le beta (Fin v) → (v ≤ value)%Z)
  ∧ (ext_lt alpha (Fin v) → ext_lt (Fin v) beta → v = value).

(** The move [a] on [b] leads to a position of value [value], on which
    [call] is a sound search. *)
Definition sound_child (call : board → ext → ext → search ext)
    (maximizing : bool) (b : board) (a : action) (value : Z) : Prop :=
  ∃ b', result b a = Val b'
    ∧ game_value maximizing b' value
    ∧ ∀ alpha beta, ext_lt alpha beta →
        ∃ v, call b' alpha beta = Some (Val (Fin v)) ∧ within alpha beta value v.

(** The move [a] on [b] leads to a position of value [value], which
    [alphabeta] returns on the full window. *)
Definition evaluated_child (order : board → list action) (fuel : nat)
    (maximizing : bool) (b : board) (a : action) (value : Z) : Prop :=
  ∃ b', result b a = Val b'
    ∧ game_value maximizing b' value
    ∧ alphabeta order fuel b' 0 NegInf PosInf maximizing = Some (Val (Fin value)).

End TicTacToe.

(** * Properties *)

(** ** The error monad *)

Lemma getitem_Ok `{Countable K} {V} (d : gmap K V) (k : K) (v : V) :
  getitem d k = Ok v ↔ d !! k = Some v.
Proof. unfold getitem. destruct (d !! k); naive_solver. Qed.

(** ** [update] *)

Lemma distribution_eq (d1 d2 : Distribution) :
  gene2 d1 = gene2 d2 → gene1 d1 = gene1 d2 → gene0 d1 = gene0 d2 →
  trait_true d1 = trait_true d2 → trait_false d1 = trait_false d2 →
  d1 = d2.
Proof. destruct d1, d2; simpl; congruence. Qed.

Ltac distribution_ring := apply distribution_eq; simpl; ring.

Lemma lookup_update probabilities one_gene two_genes have_trait p key :
  update probabilities one_gene two_genes have_trait p !! key
  = update_person one_gene two_genes have_trait p key <$> probabilities !! key.
Proof.
  unfold update. rewrite map_lookup_imap.
  by destruct (probabilities !! key).
Qed.

Lemma dom_update probabilities one_gene two_genes have_trait p :
  dom (update probabilities one_gene two_genes have_trait p) = dom probabilities.
Proof.
  apply set_eq. intros key.
  rewrite !elem_of_dom, lookup_update, fmap_is_Some. done.
Qed.

Lemma Qcplus_swap (x a b : Qc) : x + a + b = x + b + a.
Proof. ring. Qed.

Lemma add_distribution_swap d d1 d2 :
  add_distribution (add_distribution d d1) d2
  = add_distribution (add_distribution d d2) d1.
Proof.
  unfold add_distribution. apply distribution_eq; simpl; apply Qcplus_swap.
Qed.

(** What one call does to one person, as an increment. *)
Lemma update_person_add one_gene two_genes have_trait p key d :
  update_person one_gene two_genes have_trait p key d
  = add_distribution d
      (update_person one_gene two_genes have_trait p key zero_distribution).
Proof.
  unfold update_person, add_distribution.
  apply distribution_eq; repeat case_decide; simpl;
    rewrite ?Qcplus_0_l, ?Qcplus_0_r; reflexivity.
Qed.

Lemma update_person_comm og1 tg1 ht1 p1 og2 tg2 ht2 p2 key d :
  update_person og1 tg1 ht1 p1 key (update_person og2 tg2 ht2 p2 key d)
  = update_person og2 tg2 ht2 p2 key (update_person og1 tg1 ht1 p1 key d).
Proof.
  rewrite (update_person_add og1 tg1 ht1 p1 key (update_person _ _ _ _ _ _)).
  rewrite (update_person_add og2 tg2 ht2 p2 key (update_person _ _ _ _ _ _)).
  rewrite (update_person_add og1 tg1 ht1 p1 key d).
  rewrite (update_person_add og2 tg2 ht2 p2 key d).
  apply add_distribution_swap.
Qed.

Lemma update_comm probabilities og1 tg1 ht1 p1 og2 tg2 ht2 p2 :
  update (update probabilities og2 tg2 ht2 p2) og1 tg1 ht1 p1
  = update (update probabilities og1 tg1 ht1 p1) og2 tg2 ht2 p2.
Proof.
  apply map_eq. intros key. rewrite !lookup_update.
  destruct (probabilities !! key) as [d|]; simpl; [|done].
  f_equal. apply update_person_comm.
Qed.

Lemma gene_count_update_person og tg ht p key d :
  gene_count (update_person og tg ht p key d) = gene_count d + p.
Proof. unfold gene_count, update_person. repeat case_decide; simpl; ring. Qed.

Lemma trait_count_update_person og tg ht p key d :
  trait_count (update_person og tg ht p key d) = trait_count d + p.
Proof. unfold trait_count, update_person. repeat case_decide; simpl; ring. Qed.

(** ** Replaying calls *)

Lemma replay_app probabilities calls1 calls2 :
  replay probabilities (calls1 ++ calls2)
  = replay (replay probabilities calls1) calls2.
Proof. apply foldl_app. Qed.

Lemma dom_replay probabilities calls :
  dom (replay probabilities calls) = dom probabilities.
Proof.
  revert probabilities. induction calls as [|c calls IH]; intros; simpl; [done|].
  by rewrite IH, dom_update.
Qed.

Lemma replay_Permutation probabilities calls calls' :
  calls ≡ₚ calls' → replay probabilities calls = replay probabilities calls'.
Proof.
  intros Hperm. revert probabilities.
  induction Hperm as [|c l l' _ IH|c1 c2 l|l1 l2 l3 _ IH1 _ IH2]; intros; simpl.
  - done.
  - apply IH.
  - by rewrite update_comm.
  - by rewrite IH1, IH2.
Qed.

Lemma lookup_zero_accumulators people key :
  zero_accumulators people !! key
  = (λ _, zero_distribution) <$> people !! key.
Proof. apply lookup_fmap. Qed.

Lemma add_distribution_zero_l d : add_distribution zero_distribution d = d.
Proof. unfold add_distribution. distribution_ring. Qed.

Lemma add_distribution_zero_r d : add_distribution d zero_distribution = d.
Proof. unfold add_distribution. distribution_ring. Qed.

Lemma add_distribution_assoc d1 d2 d3 :
  add_distribution d1 (add_distribution d2 d3)
  = add_distribution (add_distribution d1 d2) d3.
Proof. unfold add_distribution. distribution_ring. Qed.

(** Replaying from given accumulators adds, person by person, what the same
    calls accumulate from zero. *)
Lemma lookup_replay_add people probabilities calls key d :
  probabilities !! key = Some d →
  is_Some (people !! key) →
  ∃ d0, replay (zero_accumulators people) calls !! key = Some d0
      ∧ replay probabilities calls !! key = Some (add_distribution d d0).
Proof.
  intros Hd [row Hrow]. revert probabilities d Hd.
  induction calls as [|c calls IH] using rev_ind; intros probabilities d Hd.
  - exists zero_distribution. simpl.
    rewrite lookup_zero_accumulators, Hrow, Hd, add_distribution_zero_r. done.
  - destruct (IH probabilities d Hd) as (d0 & Hz & Hr).
    rewrite !replay_app. simpl. rewrite !lookup_update, Hz, Hr. simpl.
    eexists; split; [done|]. f_equal.
    rewrite (update_person_add _ _ _ _ _ (add_distribution _ _)).
    rewrite (update_person_add _ _ _ _ _ d0).
    by rewrite add_distribution_assoc.
Qed.

Lemma merge_replay people calls1 calls2 :
  merge_accumulators (replay (zero_accumulators people) calls1)
    (replay (zero_accumulators people) calls2)
  = replay (zero_accumulators people) (calls1 ++ calls2).
Proof.
  apply map_eq. intros key. unfold merge_accumulators.
  rewrite map_lookup_zip_with, replay_app.
  destruct (replay (zero_accumulators people) calls1 !! key) as [d|] eqn:Hd; simpl.
  - assert (is_Some (people !! key)) as Hkey.
    { apply (elem_of_dom (D := gset string)).
      assert (key ∈ dom (replay (zero_accumulators people) calls1)) as Hin
        by (apply elem_of_dom; eauto).
      rewrite dom_replay in Hin. unfold zero_accumulators in Hin.
      by rewrite dom_fmap_L in Hin. }
    destruct (lookup_replay_add people _ calls2 key d Hd Hkey) as (d0 & -> & ->).
    done.
  - symmetry. apply (not_elem_of_dom (D := gset string)).
    rewrite dom_replay. by apply not_elem_of_dom.
Qed.

(** ** Sums and products of rationals *)

Lemma product_Permutation l1 l2 : l1 ≡ₚ l2 → product l1 = product l2.
Proof.
  induction 1 as [|x l l' _ IH|x y l|l1 l2 l3 _ IH1 _ IH2]; simpl.
  - done.
  - by rewrite IH.
  - ring.
  - by rewrite IH1.
Qed.

Lemma product_pos l : Forall (λ x, 0 < x) l → 0 < product l.
Proof.
  induction 1 as [|x l Hx _ IH]; simpl; [done|].
  by apply Qcmult_pos_pos.
Qed.

Lemma sum_list_app l1 l2 : sum_list (l1 ++ l2) = sum_list l1 + sum_list l2.
Proof.
  induction l1 as [|x l1 IH]; simpl.
  - ring.
  - rewrite IH. ring.
Qed.

Lemma sum_list_Permutation l1 l2 : l1 ≡ₚ l2 → sum_list l1 = sum_list l2.
Proof.
  induction 1 as [|x l l' _ IH|x y l|l1 l2 l3 _ IH1 _ IH2]; simpl.
  - done.
  - by rewrite IH.
  - ring.
  - by rewrite IH1.
Qed.

Lemma sum_list_nonneg l : Forall (λ x, 0 ≤ x) l → 0 ≤ sum_list l.
Proof.
  induction 1 as [|x l Hx _ IH]; simpl; [done|].
  by apply Qcplus_nonneg_nonneg.
Qed.

Lemma sum_list_pos l : l ≠ [] → Forall (λ x, 0 < x) l → 0 < sum_list l.
Proof.
  intros Hne Hall. destruct Hall as [|x l Hx Hl]; [done|]. simpl.
  apply Qcplus_pos_nonneg; [done|].
  apply sum_list_nonneg. eapply Forall_impl; [exact Hl|].
  intros y Hy. by apply Qclt_le_weak.
Qed.

(** ** The tables *)

Lemma assigned_gene_cases og tg key :
  assigned_gene og tg key = 0%nat ∨ assigned_gene og tg key = 1%nat
  ∨ assigned_gene og tg key = 2%nat.
Proof. unfold assigned_gene. repeat case_decide; auto. Qed.

Lemma PROBS_gene_lookup og tg key :
  PROBS_gene !! assigned_gene og tg key = Some (prior (assigned_gene og tg key)).
Proof. by destruct (assigned_gene_cases og tg key) as [->|[->| ->]]. Qed.

Lemma pass_prob_transmission og tg key :
  pass_prob (assigned_gene og tg key) = transmission (assigned_gene og tg key).
Proof.
  destruct (assigned_gene_cases og tg key) as [->|[->| ->]];
    by apply Qc_is_canon.
Qed.

Lemma prior_pos og tg key : 0 < prior (assigned_gene og tg key).
Proof. by destruct (assigned_gene_cases og tg key) as [->|[->| ->]]. Qed.

Lemma trait_given_gene_pos og tg key b :
  0 < trait_given_gene (assigned_gene og tg key) b.
Proof. by destruct (assigned_gene_cases og tg key) as [->|[->| ->]], b. Qed.

Lemma inherited_pos og tg key m f :
  0 < inherited (assigned_gene og tg key)
        (transmission (assigned_gene og tg m))
        (transmission (assigned_gene og tg f)).
Proof.
  destruct (assigned_gene_cases og tg key) as [->|[->| ->]];
    destruct (assigned_gene_cases og tg m) as [->|[->| ->]];
    destruct (assigned_gene_cases og tg f) as [->|[->| ->]]; done.
Qed.

Create HintDb positive.
#[global] Hint Resolve prior_pos trait_given_gene_pos inherited_pos
  Qcmult_pos_pos : positive.

Lemma factor_pos og tg ht key row : 0 < factor og tg ht key row.
Proof.
  unfold factor, gene_probability, gene_probability_at.
  destruct (mother row), (father row); auto with positive.
Qed.

Lemma joint_pos people og tg ht : 0 < joint people og tg ht.
Proof.
  unfold joint. apply product_pos, Forall_fmap, Forall_forall.
  intros [key row] _. apply factor_pos.
Qed.

(** ** Well-formed populations *)

Lemma well_formed_lookup people key row :
  well_formed people = true → people !! key = Some row →
  parents_resolve people row = true.
Proof.
  unfold well_formed. rewrite forallb_forall. intros Hwf Hrow.
  apply (Hwf (key, row)), list_elem_of_In, elem_of_map_to_list, Hrow.
Qed.

Lemma parents_resolve_cases people row :
  parents_resolve people row = true →
  (mother row = None ∧ father row = None)
  ∨ (∃ m f, mother row = Some m ∧ father row = Some f
          ∧ is_Some (people !! m) ∧ is_Some (people !! f)).
Proof.
  unfold parents_resolve.
  destruct (mother row) as [m|], (father row) as [f|]; try done; [|by left].
  rewrite andb_true_iff, !bool_decide_eq_true, !elem_of_dom.
  intros [??]. right. by exists m, f.
Qed.

(** ** [joint_probability] *)

Lemma getitem_Some `{Countable K} {V} (d : gmap K V) (k : K) (v : V) :
  d !! k = Some v → getitem d k = Ok v.
Proof. apply getitem_Ok. Qed.

Lemma lookup_joint_probes people og tg ht key :
  joint_probes_of people og tg ht !! key
  = (λ _, probe_of og tg ht key) <$> people !! key.
Proof.
  unfold joint_probes_of. rewrite map_lookup_imap.
  by destruct (people !! key).
Qed.

Lemma getitem_joint_probes people og tg ht key :
  is_Some (people !! key) →
  getitem (joint_probes_of people og tg ht) key = Ok (probe_of og tg ht key).
Proof.
  intros [row Hrow]. apply getitem_Some.
  by rewrite lookup_joint_probes, Hrow.
Qed.

Lemma getitem_PROBS_gene og tg key :
  getitem PROBS_gene (assigned_gene og tg key)
  = Ok (prior (assigned_gene og tg key)).
Proof. apply getitem_Some, PROBS_gene_lookup. Qed.

Lemma getitem_PROBS_trait {B} og tg key b (k : Qc → result B) :
  (by_trait ← getitem PROBS_trait (assigned_gene og tg key);
   p_trait ← getitem by_trait b; k p_trait)
  = k (trait_given_gene (assigned_gene og tg key) b).
Proof. by destruct (assigned_gene_cases og tg key) as [->|[->| ->]], b. Qed.

Lemma inherited_cases gene mom dad :
  (if decide (gene = 0%nat) then Ok ((1 - mom) * (1 - dad))
   else if decide (gene = 1%nat) then Ok (mom * (1 - dad) + (1 - mom) * dad)
   else Ok (mom * dad))
  = Ok (inherited gene mom dad).
Proof. by destruct gene as [|[|?]]. Qed.

Lemma probe_of_gene og tg ht key :
  probe_gene (probe_of og tg ht key) = assigned_gene og tg key.
Proof. reflexivity. Qed.

Lemma probe_of_trait og tg ht key :
  probe_trait (probe_of og tg ht key) = bool_decide (key ∈ ht).
Proof. reflexivity. Qed.

(** The loop body computes the factor of a person whose parents, if any,
    are both in the population. *)
Lemma person_probability_Ok people og tg ht key row :
  people !! key = Some row →
  parents_resolve people row = true →
  person_probability people (joint_probes_of people og tg ht) key
  = Ok (factor og tg ht key row).
Proof.
  intros Hrow Hparents. unfold person_probability.
  rewrite getitem_joint_probes by eauto. cbn [mbind result_bind].
  rewrite (getitem_Some _ _ _ Hrow). cbn [mbind result_bind].
  rewrite !probe_of_gene, probe_of_trait.
  unfold factor, gene_probability, gene_probability_at.
  destruct (parents_resolve_cases _ _ Hparents)
    as [[Hm Hf]|(m & f & Hm & Hf & Hmrow & Hfrow)]; rewrite Hm, Hf.
  - rewrite decide_True by done.
    rewrite getitem_PROBS_gene. cbn [mbind result_bind].
    by rewrite getitem_PROBS_trait.
  - rewrite decide_False by (by intros [??]).
    cbn [getitem_opt]. rewrite (getitem_joint_probes _ _ _ _ m) by done.
    cbn [mbind result_bind].
    rewrite (getitem_joint_probes _ _ _ _ f) by done.
    cbn [mbind result_bind].
    rewrite !probe_of_gene, !pass_prob_transmission.
    unfold mret, result_ret. rewrite inherited_cases. cbn [mbind result_bind].
    by rewrite getitem_PROBS_trait.
Qed.

Lemma map_to_list_joint_probes people og tg ht :
  (map_to_list (joint_probes_of people og tg ht)).*1 ≡ₚ (map_to_list people).*1.
Proof.
  apply NoDup_Permutation; [apply NoDup_fst_map_to_list..|].
  intros key. rewrite !list_elem_of_fmap. split.
  - intros ([k probe] & -> & Hin). apply elem_of_map_to_list in Hin.
    rewrite lookup_joint_probes in Hin.
    destruct (people !! k) as [row|] eqn:Hrow; [|done].
    exists (k, row). split; [done|]. by apply elem_of_map_to_list.
  - intros ([k row] & -> & Hin). apply elem_of_map_to_list in Hin.
    exists (k, probe_of og tg ht k). split; [done|].
    apply elem_of_map_to_list. by rewrite lookup_joint_probes, Hin.
Qed.

Lemma joint_factor_of people og tg ht :
  joint people og tg ht
  = product (factor_of people og tg ht <$> (map_to_list people).*1).
Proof.
  unfold joint. f_equal. rewrite <- list_fmap_compose.
  apply Forall_fmap_ext_1, Forall_forall. intros [key row] Hin. simpl.
  apply elem_of_map_to_list in Hin. unfold factor_of. by rewrite Hin.
Qed.

Lemma joint_probability_Ok people og tg ht :
  well_formed people = true →
  joint_probability people og tg ht = Ok (joint people og tg ht).
Proof.
  intros Hwf. unfold joint_probability. rewrite map_fold_foldr.
  rewrite joint_factor_of, <- (product_Permutation _ _
    (fmap_Permutation _ _ _ (map_to_list_joint_probes people og tg ht))).
  assert (∀ key probe,
    (key, probe) ∈ map_to_list (joint_probes_of people og tg ht) →
    is_Some (people !! key)) as Hkeys.
  { intros key probe Hin. apply elem_of_map_to_list in Hin.
    rewrite lookup_joint_probes in Hin. by destruct (people !! key). }
  induction (map_to_list (joint_probes_of people og tg ht))
    as [|[key probe] l IH]; simpl; [done|].
  rewrite IH by (intros ???; eapply Hkeys; by right). simpl.
  destruct (Hkeys key probe) as [row Hrow]; [by left|].
  rewrite (person_probability_Ok _ _ _ _ _ row) by
    eauto using well_formed_lookup.
  simpl. unfold factor_of. rewrite Hrow.
  unfold mret, result_ret. apply (f_equal Ok), Qcmult_comm.
Qed.

(** ** [normalize] *)

Lemma divide_Ok x y : y ≠ 0 → divide x y = Ok (x / y).
Proof. intros Hy. unfold divide. by rewrite decide_False. Qed.

Lemma normalize_person_Ok d :
  summable d → normalize_person d = Ok (normalized d).
Proof.
  intros [Hg Ht]. unfold normalize_person.
  rewrite !divide_Ok by done. reflexivity.
Qed.

Lemma normalize_person_Raise d :
  ¬ summable d → normalize_person d = Raise ZeroDivisionError.
Proof.
  intros Hbad. unfold normalize_person.
  destruct (decide (gene_count d = 0)) as [->|Hg]; [done|].
  destruct (decide (trait_count d = 0)) as [->|Ht].
  - rewrite !(divide_Ok _ (gene_count d)) by done. reflexivity.
  - by destruct Hbad.
Qed.

Lemma normalize_spec probabilities :
  (map_Forall (λ _, summable) probabilities →
   normalize probabilities = Ok (normalized <$> probabilities))
  ∧ (¬ map_Forall (λ _, summable) probabilities →
     normalize probabilities = Raise ZeroDivisionError).
Proof.
  unfold normalize.
  apply (map_fold_weak_ind (λ r m,
    (map_Forall (λ _, summable) m → r = Ok (normalized <$> m))
    ∧ (¬ map_Forall (λ _, summable) m → r = Raise ZeroDivisionError))).
  - split; [by rewrite fmap_empty|].
    intros []. apply map_Forall_empty.
  - intros key d m r Hfresh [IHok IHbad]. split.
    + intros [Hd Hm]%map_Forall_insert; [|done].
      rewrite (IHok Hm). cbn [mbind result_bind]. rewrite normalize_person_Ok by done. cbn [mbind result_bind].
      by rewrite fmap_insert.
    + intros Hbad. destruct (decide (map_Forall (λ _, summable) m)) as [Hm|Hm].
      * rewrite (IHok Hm). cbn [mbind result_bind]. rewrite normalize_person_Raise; [done|].
        intros Hd. apply Hbad. by apply map_Forall_insert.
      * by rewrite (IHbad Hm).
Qed.

Lemma normalize_Ok probabilities :
  map_Forall (λ _, summable) probabilities →
  normalize probabilities = Ok (normalized <$> probabilities).
Proof. apply normalize_spec. Qed.

Lemma normalize_Raise probabilities :
  ¬ map_Forall (λ _, summable) probabilities →
  normalize probabilities = Raise ZeroDivisionError.
Proof. apply normalize_spec. Qed.

Lemma gene_count_normalized d :
  gene_count d ≠ 0 → gene_count (normalized d) = 1.
Proof.
  intros Hg. unfold gene_count at 1. simpl. unfold gene_count in *.
  field. by rewrite !Qcplus_0_l in Hg.
Qed.

Lemma trait_count_normalized d :
  trait_count d ≠ 0 → trait_count (normalized d) = 1.
Proof.
  intros Ht. unfold trait_count at 1. simpl. unfold trait_count in *.
  field. by rewrite !Qcplus_0_l in Ht.
Qed.

(** ** [powerset] *)

Section combinations.
Context {A : Type}.
Implicit Types l k : list A.

Lemma elem_of_combinations l r k :
  k ∈ combinations l r ↔ k `sublist_of` l ∧ length k = r.
Proof.
  revert r k. induction l as [|x l IH]; intros [|r] k; simpl.
  - rewrite list_elem_of_singleton, sublist_nil_r. split.
    + by intros ->.
    + by intros [-> _].
  - rewrite elem_of_nil, sublist_nil_r. split; [done|].
    by intros [-> ?].
  - rewrite list_elem_of_singleton. split.
    + intros ->. split; [apply sublist_nil_l | done].
    + intros [_ Hlen]. by apply nil_length_inv.
  - rewrite elem_of_app, list_elem_of_fmap, IH, sublist_cons_r. split.
    + intros [(k' & -> & Hk')|[Hsub Hlen]].
      * apply IH in Hk' as [Hsub <-]. split; [|done].
        right. by exists k'.
      * split; [by left | done].
    + intros [[Hsub|(k' & -> & Hsub)] Hlen].
      * by right.
      * left. exists k'. split; [done|]. apply IH.
        split; [done|]. simpl in Hlen. by injection Hlen.
Qed.

Lemma NoDup_combinations l r : NoDup l → NoDup (combinations l r).
Proof.
  intros Hl. revert r. induction Hl as [|x l Hx Hl IH]; intros [|r]; simpl.
  - apply NoDup_singleton.
  - constructor.
  - apply NoDup_singleton.
  - apply NoDup_app. split_and!.
    + apply NoDup_fmap_2; [|apply IH]. by intros ?? [= ->].
    + intros k (k' & -> & _)%list_elem_of_fmap [Hsub _]%elem_of_combinations.
      apply Hx. eapply elem_of_sublist; [|done]. by left.
    + apply IH.
Qed.

Lemma elem_of_all_combinations l k :
  k ∈ seq 0 (length l + 1) ≫= combinations l ↔ k `sublist_of` l.
Proof.
  rewrite list_elem_of_bind. split.
  - by intros (r & [? _]%elem_of_combinations & _).
  - intros Hsub. exists (length k). split.
    + by apply elem_of_combinations.
    + apply elem_of_seq. apply sublist_length in Hsub. lia.
Qed.

Lemma NoDup_all_combinations l :
  NoDup l → NoDup (seq 0 (length l + 1) ≫= combinations l).
Proof.
  intros Hl. apply NoDup_bind.
  - intros r1 r2 k _ _ [_ <-]%elem_of_combinations
      [_ <-]%elem_of_combinations. done.
  - intros r _. by apply NoDup_combinations.
  - apply NoDup_seq.
Qed.
End combinations.

(** Two subsequences of a duplicate-free list with the same elements are
    equal. *)
Lemma sublist_to_set_inj (l k1 k2 : list string) :
  NoDup l → k1 `sublist_of` l → k2 `sublist_of` l →
  list_to_set (C := gset string) k1 = list_to_set k2 → k1 = k2.
Proof.
  intros Hl. revert k1 k2.
  induction Hl as [|x l Hx Hl IH]; intros k1 k2 H1 H2 Heq.
  - apply sublist_nil_r in H1, H2. by subst.
  - assert (∀ k, k `sublist_of` l → x ∉ list_to_set (C := gset string) k)
      as Hfresh.
    { intros k Hk Hin. apply elem_of_list_to_set in Hin.
      apply Hx. by eapply elem_of_sublist. }
    apply sublist_cons_r in H1 as [H1|(k1' & -> & H1)];
      apply sublist_cons_r in H2 as [H2|(k2' & -> & H2)].
    + by apply IH.
    + exfalso. apply (Hfresh k1 H1). rewrite Heq, list_to_set_cons.
      set_solver.
    + exfalso. apply (Hfresh k2 H2). rewrite <- Heq, list_to_set_cons.
      set_solver.
    + f_equal. apply IH; [done..|].
      rewrite !list_to_set_cons in Heq.
      specialize (Hfresh k1' H1) as F1. specialize (Hfresh k2' H2) as F2.
      set_solver.
Qed.

Lemma elem_of_powerset (s X : gset string) : X ∈ powerset s ↔ X ⊆ s.
Proof.
  unfold powerset. rewrite list_elem_of_fmap. split.
  - intros (k & -> & Hk%elem_of_all_combinations).
    intros x Hx%elem_of_list_to_set. apply elem_of_elements.
    by eapply elem_of_sublist.
  - intros HX. exists (filter (.∈ X) (elements s)). split.
    + apply set_eq. intros x.
      rewrite elem_of_list_to_set, list_elem_of_filter, elem_of_elements.
      set_solver.
    + apply elem_of_all_combinations, sublist_filter.
Qed.

Lemma NoDup_powerset (s : gset string) : NoDup (powerset s).
Proof.
  unfold powerset. apply NoDup_fmap_2_strong.
  - intros k1 k2 H1%elem_of_all_combinations H2%elem_of_all_combinations.
    apply (sublist_to_set_inj (elements s)); [apply NoDup_elements | done..].
  - apply NoDup_all_combinations, NoDup_elements.
Qed.

(** ** The enumeration loop *)

Lemma fails_evidence_false people have_trait :
  fails_evidence people (dom people) have_trait = false
  ↔ consistent people have_trait.
Proof.
  unfold fails_evidence, consistent.
  rewrite <- not_true_iff_false, existsb_exists. split.
  - intros Hnone person row observed Hrow Hobs.
    destruct (decide (bool_decide (person ∈ have_trait) = observed))
      as [|Hne]; [done|].
    destruct Hnone. exists person. split.
    + apply list_elem_of_In, elem_of_elements, elem_of_dom. eauto.
    + rewrite Hrow, Hobs. apply negb_true_iff, eqb_false_iff. congruence.
  - intros Hok (person & _ & Hbad).
    destruct (people !! person) as [row|] eqn:Hrow; [|done].
    destruct (trait row) as [observed|] eqn:Hobs; [|done].
    apply negb_true_iff, eqb_false_iff in Hbad.
    apply Hbad. symmetry. by eapply Hok.
Qed.


(** A loop whose body replays calls replays the concatenation of the calls. *)
Lemma for_each_replay {A} (l : list A)
    (body : gmap string Distribution → A → result (gmap string Distribution))
    (calls : A → list Call) probabilities :
  (∀ probabilities x, x ∈ l →
     body probabilities x = Ok (replay probabilities (calls x))) →
  for_each l body probabilities = Ok (replay probabilities (l ≫= calls)).
Proof.
  revert probabilities.
  induction l as [|x l IH]; intros probabilities Hbody; [done|].
  simpl. rewrite Hbody by left. simpl.
  rewrite IH by (intros ???; apply Hbody; by right).
  change ((x :: l) ≫= calls) with (calls x ++ (l ≫= calls)).
  by rewrite replay_app.
Qed.

Lemma gene_rounds_Ok people have_trait probabilities :
  well_formed people = true →
  gene_rounds people (dom people) have_trait probabilities
  = Ok (replay probabilities (gene_calls people have_trait)).
Proof.
  intros Hwf. unfold gene_rounds, gene_calls.
  apply for_each_replay. intros probs one_gene _.
  apply for_each_replay. intros probs' two_genes _.
  by rewrite joint_probability_Ok.
Qed.

Lemma trait_round_Ok people have_trait probabilities :
  well_formed people = true →
  trait_round people (dom people) probabilities have_trait
  = Ok (replay probabilities
          (if fails_evidence people (dom people) have_trait then []
           else gene_calls people have_trait)).
Proof.
  intros Hwf. unfold trait_round.
  destruct (fails_evidence _ _ _); [done|].
  by apply gene_rounds_Ok.
Qed.

Lemma accumulate_Ok people :
  well_formed people = true →
  accumulate people = Ok (replay (zero_accumulators people) (calls_of people)).
Proof.
  intros Hwf. unfold accumulate, calls_of.
  apply for_each_replay. intros probs have_trait _.
  by apply trait_round_Ok.
Qed.

(** ** Accumulators in closed form *)

Lemma lookup_replay probabilities calls key :
  replay probabilities calls !! key
  = (λ d, tally key d calls) <$> probabilities !! key.
Proof.
  revert probabilities.
  induction calls as [|c calls IH]; intros probabilities; simpl.
  - by destruct (probabilities !! key).
  - rewrite IH, lookup_update. by destruct (probabilities !! key).
Qed.

Lemma lookup_replay_zero people calls key :
  is_Some (people !! key) →
  replay (zero_accumulators people) calls !! key
  = Some (tally key zero_distribution calls).
Proof.
  intros [row Hrow].
  by rewrite lookup_replay, lookup_zero_accumulators, Hrow.
Qed.

Lemma tally_app key d calls1 calls2 :
  tally key d (calls1 ++ calls2) = tally key (tally key d calls1) calls2.
Proof. apply foldl_app. Qed.

Lemma gene_count_tally key d calls :
  gene_count (tally key d calls) = gene_count d + total calls.
Proof.
  revert d. induction calls as [|c calls IH]; intros d; simpl.
  - ring.
  - rewrite IH. unfold apply_call. rewrite gene_count_update_person. ring.
Qed.

Lemma trait_count_tally key d calls :
  trait_count (tally key d calls) = trait_count d + total calls.
Proof.
  revert d. induction calls as [|c calls IH]; intros d; simpl.
  - ring.
  - rewrite IH. unfold apply_call. rewrite trait_count_update_person. ring.
Qed.

Lemma trait_false_tally key d calls :
  Forall (λ c, key ∈ call_have_trait c) calls →
  trait_false (tally key d calls) = trait_false d.
Proof.
  intros Hall. revert d.
  induction Hall as [|c calls Hc _ IH]; intros d; simpl; [done|].
  rewrite IH. unfold apply_call, update_person.
  rewrite (decide_True _ _ Hc). simpl. by repeat case_decide.
Qed.

Lemma total_sum_list calls : total calls = sum_list (call_p <$> calls).
Proof. induction calls as [|c calls IH]; simpl; [done|]. by rewrite IH. Qed.

Lemma total_pos calls :
  calls ≠ [] → Forall (λ c, 0 < call_p c) calls → 0 < total calls.
Proof.
  intros Hne Hall. rewrite total_sum_list. apply sum_list_pos.
  - by destruct calls.
  - by apply Forall_fmap.
Qed.

(** ** The calls of a run *)

Lemma elem_of_gene_calls people have_trait c :
  c ∈ gene_calls people have_trait ↔
  call_one_gene c ⊆ dom people
  ∧ call_two_genes c ⊆ dom people ∖ call_one_gene c
  ∧ call_have_trait c = have_trait
  ∧ call_p c
    = joint people (call_one_gene c) (call_two_genes c) (call_have_trait c).
Proof.
  unfold gene_calls. rewrite list_elem_of_bind. split.
  - intros (og & (tg & ->%list_elem_of_singleton & Htg%elem_of_powerset)
              %list_elem_of_bind & Hog%elem_of_powerset).
    done.
  - intros (Hog & Htg & Hht & Hp). exists (call_one_gene c).
    split; [|by apply elem_of_powerset].
    apply list_elem_of_bind. exists (call_two_genes c).
    split; [|by apply elem_of_powerset].
    apply list_elem_of_singleton. destruct c; simpl in *. by subst.
Qed.

Lemma elem_of_calls_of people c :
  c ∈ calls_of people ↔
  call_have_trait c ⊆ dom people
  ∧ consistent people (call_have_trait c)
  ∧ call_one_gene c ⊆ dom people
  ∧ call_two_genes c ⊆ dom people ∖ call_one_gene c
  ∧ call_p c
    = joint people (call_one_gene c) (call_two_genes c) (call_have_trait c).
Proof.
  unfold calls_of. rewrite list_elem_of_bind. split.
  - intros (ht & Hc & Hht%elem_of_powerset).
    destruct (fails_evidence people (dom people) ht) eqn:Hev;
      [by apply elem_of_nil in Hc|].
    apply fails_evidence_false in Hev.
    apply elem_of_gene_calls in Hc as (? & ? & -> & ?). done.
  - intros (Hht & Hev & Hog & Htg & Hp). exists (call_have_trait c).
    split; [|by apply elem_of_powerset].
    apply fails_evidence_false in Hev. rewrite Hev.
    by apply elem_of_gene_calls.
Qed.

Lemma observed_true_spec people person :
  person ∈ observed_true people
  ↔ ∃ row, people !! person = Some row ∧ trait row = Some true.
Proof.
  unfold observed_true. rewrite elem_of_dom. unfold is_Some.
  setoid_rewrite map_lookup_filter_Some. naive_solver.
Qed.

Lemma observed_true_consistent people : consistent people (observed_true people).
Proof.
  intros person row observed Hrow Hobs.
  destruct observed.
  - apply bool_decide_eq_true, observed_true_spec. eauto.
  - apply bool_decide_eq_false. intros (row' & Hrow' & Hobs')%observed_true_spec.
    congruence.
Qed.

Lemma calls_of_nonempty people : calls_of people ≠ [].
Proof.
  assert ({| call_one_gene := ∅; call_two_genes := ∅;
             call_have_trait := observed_true people;
             call_p := joint people ∅ ∅ (observed_true people) |}
          ∈ calls_of people) as Hin.
  { apply elem_of_calls_of. simpl. split_and!; try set_solver.
    - intros person (row & Hrow & _)%observed_true_spec.
      apply elem_of_dom. eauto.
    - apply observed_true_consistent. }
  intros Heq. rewrite Heq in Hin. by apply elem_of_nil in Hin.
Qed.

Lemma calls_of_pos people : Forall (λ c, 0 < call_p c) (calls_of people).
Proof.
  apply Forall_forall. intros c (_ & _ & _ & _ & ->)%elem_of_calls_of.
  apply joint_pos.
Qed.

Lemma total_calls_of_pos people : 0 < total (calls_of people).
Proof. apply total_pos; [apply calls_of_nonempty | apply calls_of_pos]. Qed.

(** ** The whole run *)

(** The accumulators of a well-formed population can all be normalised. *)
Lemma replay_calls_of_summable people :
  map_Forall (λ _, summable)
    (replay (zero_accumulators people) (calls_of people)).
Proof.
  intros key d Hd. rewrite lookup_replay, lookup_zero_accumulators in Hd.
  destruct (people !! key) as [row|]; [|done].
  injection Hd as <-. unfold summable.
  rewrite gene_count_tally, trait_count_tally.
  assert (0 + total (calls_of people) ≠ 0) as Hne.
  { rewrite Qcplus_0_l. apply not_eq_sym, Qclt_not_eq, total_calls_of_pos. }
  done.
Qed.

Lemma main_Ok people :
  well_formed people = true →
  main people
  = Ok (normalized <$> replay (zero_accumulators people) (calls_of people)).
Proof.
  intros Hwf. unfold main. rewrite accumulate_Ok by done. simpl.
  apply normalize_Ok, replay_calls_of_summable.
Qed.

Lemma lookup_main people key :
  well_formed people = true → is_Some (people !! key) →
  ∃ res, main people = Ok res
       ∧ res !! key
         = Some (normalized (tally key zero_distribution (calls_of people))).
Proof.
  intros Hwf Hkey. eexists. split; [by apply main_Ok|].
  by rewrite lookup_fmap, lookup_replay_zero.
Qed.

(** ** Order of the calls *)

Lemma apply_call_comm key d c1 c2 :
  apply_call key (apply_call key d c1) c2
  = apply_call key (apply_call key d c2) c1.
Proof. unfold apply_call. apply update_person_comm. Qed.

Lemma tally_Permutation key d calls calls' :
  calls ≡ₚ calls' → tally key d calls = tally key d calls'.
Proof.
  intros Hperm. revert d.
  induction Hperm as [|c l l' _ IH|c1 c2 l|l1 l2 l3 _ IH1 _ IH2]; intros; simpl.
  - done.
  - apply IH.
  - by rewrite apply_call_comm.
  - by rewrite IH1, IH2.
Qed.

(** A call of a run is determined by its three sets. *)
Lemma calls_of_inj people c1 c2 :
  c1 ∈ calls_of people → c2 ∈ calls_of people →
  call_one_gene c1 = call_one_gene c2 →
  call_two_genes c1 = call_two_genes c2 →
  call_have_trait c1 = call_have_trait c2 →
  c1 = c2.
Proof.
  intros (_ & _ & _ & _ & Hp1)%elem_of_calls_of
         (_ & _ & _ & _ & Hp2)%elem_of_calls_of Hog Htg Hht.
  destruct c1, c2; simpl in *. subst. done.
Qed.

Lemma NoDup_gene_calls people have_trait : NoDup (gene_calls people have_trait).
Proof.
  unfold gene_calls. apply NoDup_bind; [| |apply NoDup_powerset].
  - intros og1 og2 c _ _
      (tg1 & ->%list_elem_of_singleton & _)%list_elem_of_bind
      (tg2 & [= ? _]%list_elem_of_singleton & _)%list_elem_of_bind.
    done.
  - intros og _. apply NoDup_bind; [| |apply NoDup_powerset].
    + intros tg1 tg2 c _ _ ->%list_elem_of_singleton
        [= ?]%list_elem_of_singleton. done.
    + intros tg _. apply NoDup_singleton.
Qed.

Lemma NoDup_calls_of people : NoDup (calls_of people).
Proof.
  unfold calls_of. apply NoDup_bind; [| |apply NoDup_powerset].
  - intros ht1 ht2 c _ _ H1 H2.
    destruct (fails_evidence people (dom people) ht1);
      [by apply elem_of_nil in H1|].
    destruct (fails_evidence people (dom people) ht2);
      [by apply elem_of_nil in H2|].
    apply elem_of_gene_calls in H1 as (_ & _ & <- & _).
    apply elem_of_gene_calls in H2 as (_ & _ & <- & _). done.
  - intros ht _. destruct (fails_evidence people (dom people) ht);
      [constructor | apply NoDup_gene_calls].
Qed.

(** ** Removing a person from the population *)

Lemma assigned_gene_agree og1 tg1 og2 tg2 key :
  (key ∈ og1 ↔ key ∈ og2) → (key ∈ tg1 ↔ key ∈ tg2) →
  assigned_gene og1 tg1 key = assigned_gene og2 tg2 key.
Proof. unfold assigned_gene. intros ??. repeat case_decide; naive_solver. Qed.

Lemma joint_ext people og1 tg1 ht1 og2 tg2 ht2 :
  (∀ key row, people !! key = Some row →
     factor og1 tg1 ht1 key row = factor og2 tg2 ht2 key row) →
  joint people og1 tg1 ht1 = joint people og2 tg2 ht2.
Proof.
  intros Hext. unfold joint. f_equal.
  apply Forall_fmap_ext_1, Forall_forall. intros [key row] Hin.
  apply Hext. by apply elem_of_map_to_list.
Qed.

Lemma joint_delete people og tg ht x row :
  people !! x = Some row →
  joint people og tg ht = factor og tg ht x row * joint (delete x people) og tg ht.
Proof.
  intros Hrow. unfold joint.
  rewrite <- (product_Permutation _ _
    (fmap_Permutation _ _ _ (map_to_list_delete people x row Hrow))).
  done.
Qed.

(** ** One call as a bump of two buckets *)

Lemma apply_call_bump key d c :
  apply_call key d c
  = bump (assigned_gene (call_one_gene c) (call_two_genes c) key)
      (bool_decide (key ∈ call_have_trait c)) (call_p c) d.
Proof.
  unfold apply_call, update_person, bump, assigned_gene.
  destruct (decide (key ∈ call_have_trait c)) as [Hht|Hht];
    [rewrite (bool_decide_eq_true_2 _ Hht)
    |rewrite (bool_decide_eq_false_2 _ Hht)];
    destruct (decide (key ∈ call_one_gene c));
    [|destruct (decide (key ∈ call_two_genes c))| |
      destruct (decide (key ∈ call_two_genes c))];
    apply distribution_eq; simpl; rewrite ?Qcplus_0_r; reflexivity.
Qed.

Lemma bump_bump g t p1 p2 d :
  bump g t p2 (bump g t p1 d) = bump g t (p1 + p2) d.
Proof.
  unfold bump.
  apply distribution_eq; simpl; repeat case_decide; destruct t; ring.
Qed.

Lemma trait_given_gene_total g :
  trait_given_gene g false + trait_given_gene g true = 1.
Proof. destruct g as [|[|g]]; by apply Qc_is_canon. Qed.

Lemma inherited_total mom dad :
  inherited 0 mom dad + inherited 1 mom dad + inherited 2 mom dad = 1.
Proof. simpl. ring. Qed.

Lemma prior_total : prior 0 + prior 1 + prior 2 = 1.
Proof. by apply Qc_is_canon. Qed.

Lemma gene_probability_at_total og tg row :
  gene_probability_at og tg row 0 + gene_probability_at og tg row 1
  + gene_probability_at og tg row 2 = 1.
Proof.
  unfold gene_probability_at.
  destruct (mother row), (father row);
    auto using inherited_total, prior_total.
Qed.

Section remove_person.
Context (people : gmap string Person) (x : string) (row : Person).
Hypothesis Hrow : people !! x = Some row.
Hypothesis Hleaf : childless people x.
Hypothesis Hunobserved : trait row = None.

Lemma dom_remove : dom people = {[x]} ∪ dom (delete x people).
Proof.
  rewrite dom_delete_L. apply union_difference_singleton_L, elem_of_dom. eauto.
Qed.

Lemma not_elem_of_dom_remove : x ∉ dom (delete x people).
Proof. rewrite dom_delete_L. set_solver. Qed.

Lemma lookup_remove key row' :
  delete x people !! key = Some row' → key ≠ x ∧ people !! key = Some row'.
Proof. intros [??]%lookup_delete_Some. done. Qed.

Lemma well_formed_remove :
  well_formed people = true → well_formed (delete x people) = true.
Proof.
  intros Hwf. unfold well_formed. apply forallb_forall.
  intros [key row'] [Hne Hkey]%list_elem_of_In%elem_of_map_to_list%lookup_remove.
  simpl. pose proof (well_formed_lookup _ _ _ Hwf Hkey) as Hparents.
  destruct (Hleaf key row' Hkey) as [Hm Hf].
  unfold parents_resolve in *.
  destruct (mother row') as [m|], (father row') as [f|]; try done.
  apply andb_true_iff in Hparents as [Hmd%bool_decide_eq_true Hfd%bool_decide_eq_true].
  apply andb_true_iff.
  split; apply bool_decide_eq_true; rewrite dom_delete_L; set_solver.
Qed.

(** The factor of another person does not look at [x]. *)
Lemma factor_away og1 tg1 ht1 og2 tg2 ht2 key row' :
  delete x people !! key = Some row' →
  og1 ∖ {[x]} = og2 ∖ {[x]} → tg1 ∖ {[x]} = tg2 ∖ {[x]} →
  ht1 ∖ {[x]} = ht2 ∖ {[x]} →
  factor og1 tg1 ht1 key row' = factor og2 tg2 ht2 key row'.
Proof.
  intros [Hne Hkey]%lookup_remove Hog Htg Hht.
  destruct (Hleaf key row' Hkey) as [Hm Hf].
  assert (∀ k, k ≠ x →
    assigned_gene og1 tg1 k = assigned_gene og2 tg2 k) as Hgene.
  { intros k Hk. apply assigned_gene_agree; set_solver. }
  unfold factor, gene_probability, gene_probability_at.
  rewrite (Hgene key Hne).
  assert (bool_decide (key ∈ ht1) = bool_decide (key ∈ ht2)) as ->
    by (apply bool_decide_ext; set_solver).
  f_equal.
  destruct (mother row') as [m|], (father row') as [f|]; try done.
  rewrite (Hgene m), (Hgene f); [done|congruence..].
Qed.

Lemma joint_away og1 tg1 ht1 og2 tg2 ht2 :
  og1 ∖ {[x]} = og2 ∖ {[x]} → tg1 ∖ {[x]} = tg2 ∖ {[x]} →
  ht1 ∖ {[x]} = ht2 ∖ {[x]} →
  joint (delete x people) og1 tg1 ht1 = joint (delete x people) og2 tg2 ht2.
Proof. intros ???. apply joint_ext. intros ???. by apply factor_away. Qed.

Lemma consistent_remove ht1 ht2 :
  ht1 ∖ {[x]} = ht2 ∖ {[x]} →
  consistent people ht1 ↔ consistent (delete x people) ht2.
Proof.
  intros Hht. split.
  - intros Hev person row' observed [Hne Hperson]%lookup_remove Hobs.
    rewrite <- (Hev person row' observed Hperson Hobs).
    apply bool_decide_ext. set_solver.
  - intros Hev person row' observed Hperson Hobs.
    destruct (decide (person = x)) as [->|Hne]; [congruence|].
    rewrite <- (Hev person row' observed); [|by rewrite lookup_delete_ne|done].
    apply bool_decide_ext. set_solver.
Qed.

(** The sets of a configuration of the smaller population do not mention
    [x]. *)
Lemma calls_of_remove_fresh c :
  c ∈ calls_of (delete x people) →
  (x ∉ call_one_gene c) ∧ (x ∉ call_two_genes c) ∧ (x ∉ call_have_trait c).
Proof.
  intros (Hht & _ & Hog & Htg & _)%elem_of_calls_of.
  pose proof not_elem_of_dom_remove. set_solver.
Qed.

Lemma elem_of_extend c c' :
  c ∈ extend people x c' ↔
  ∃ g t, (g = 0 ∨ g = 1 ∨ g = 2)%nat ∧ c = variant people x c' g t.
Proof.
  unfold extend. split.
  - intros (g & (t & ->%list_elem_of_singleton & _)%list_elem_of_bind & Hg)
      %list_elem_of_bind.
    exists g, t. split; [|done].
    apply elem_of_cons in Hg as [->|Hg]; [auto|].
    apply elem_of_cons in Hg as [->|Hg]; [auto|].
    apply list_elem_of_singleton in Hg as ->. auto.
  - intros (g & t & Hg & ->). apply list_elem_of_bind. exists g. split.
    + apply list_elem_of_bind. exists t. split; [by left|].
      destruct t; [right; left | left].
    + destruct Hg as [->|[->| ->]]; [left | right; left | right; right; left].
Qed.

Lemma variant_restrict c' g t :
  c' ∈ calls_of (delete x people) →
  call_one_gene (variant people x c' g t) ∖ {[x]} = call_one_gene c'
  ∧ call_two_genes (variant people x c' g t) ∖ {[x]} = call_two_genes c'
  ∧ call_have_trait (variant people x c' g t) ∖ {[x]} = call_have_trait c'.
Proof.
  intros (Hog & Htg & Hht)%calls_of_remove_fresh. simpl.
  split_and!; [case_decide | case_decide | destruct t]; set_solver.
Qed.

Lemma variant_membership c' g t :
  c' ∈ calls_of (delete x people) → (g = 0 ∨ g = 1 ∨ g = 2)%nat →
  assigned_gene (call_one_gene (variant people x c' g t))
    (call_two_genes (variant people x c' g t)) x = g
  ∧ bool_decide (x ∈ call_have_trait (variant people x c' g t)) = t.
Proof.
  intros (Hog & Htg & Hht)%calls_of_remove_fresh Hg. simpl. split.
  - unfold assigned_gene.
    destruct Hg as [->|[->| ->]]; simpl; repeat case_decide; set_solver.
  - destruct t; [apply bool_decide_eq_true | apply bool_decide_eq_false];
      set_solver.
Qed.

Lemma extend_calls_of c c' :
  c' ∈ calls_of (delete x people) → c ∈ extend people x c' →
  c ∈ calls_of people.
Proof.
  intros Hc' (g & t & Hg & ->)%elem_of_extend.
  destruct (variant_restrict c' g t Hc') as (Hog & Htg & Hht).
  destruct (calls_of_remove_fresh c' Hc') as (Fog & Ftg & Fht).
  apply elem_of_calls_of in Hc' as (Sht & Hev & Sog & Stg & _).
  apply elem_of_calls_of. rewrite dom_remove.
  pose proof not_elem_of_dom_remove as Hx.
  split_and!.
  - simpl. destruct t; set_solver.
  - apply (consistent_remove _ (call_have_trait c')); [|done].
    rewrite Hht. set_solver.
  - simpl. case_decide; set_solver.
  - simpl. repeat case_decide; [lia|set_solver..].
  - done.
Qed.

Lemma calls_of_extend c :
  c ∈ calls_of people →
  ∃ c', c' ∈ calls_of (delete x people) ∧ c ∈ extend people x c'.
Proof.
  intros (Sht & Hev & Sog & Stg & Hp)%elem_of_calls_of.
  set (og' := call_one_gene c ∖ {[x]}).
  set (tg' := call_two_genes c ∖ {[x]}).
  set (ht' := call_have_trait c ∖ {[x]}).
  exists {| call_one_gene := og'; call_two_genes := tg'; call_have_trait := ht';
            call_p := joint (delete x people) og' tg' ht' |}.
  split.
  - apply elem_of_calls_of. simpl. rewrite dom_delete_L. split_and!.
    + set_solver.
    + apply (consistent_remove (call_have_trait c)); [set_solver | done].
    + set_solver.
    + set_solver.
    + done.
  - apply elem_of_extend.
    exists (assigned_gene (call_one_gene c) (call_two_genes c) x),
           (bool_decide (x ∈ call_have_trait c)).
    split; [apply assigned_gene_cases|].
    assert (∀ s : gset string, x ∈ s → {[x]} ∪ s ∖ {[x]} = s) as Hin
      by (intros s Hs; symmetry; by apply union_difference_singleton_L).
    assert (∀ s : gset string, x ∉ s → s ∖ {[x]} = s) as Hout by set_solver.
    destruct c as [og tg ht p]. simpl in *. subst p.
    unfold variant, assigned_gene. simpl. subst og' tg' ht'.
    destruct (decide (x ∈ og)) as [Hog|Hog].
    + assert (x ∉ tg) as Htg by set_solver.
      rewrite decide_True, decide_False by done.
      rewrite (Hin og Hog), (Hout tg Htg).
      destruct (decide (x ∈ ht)) as [Hht|Hht].
      * rewrite (bool_decide_eq_true_2 _ Hht), (Hin ht Hht). done.
      * rewrite (bool_decide_eq_false_2 _ Hht), (Hout ht Hht). done.
    + destruct (decide (x ∈ tg)) as [Htg|Htg].
      * rewrite decide_False, decide_True by done.
        rewrite (Hout og Hog), (Hin tg Htg).
        destruct (decide (x ∈ ht)) as [Hht|Hht].
        -- rewrite (bool_decide_eq_true_2 _ Hht), (Hin ht Hht). done.
        -- rewrite (bool_decide_eq_false_2 _ Hht), (Hout ht Hht). done.
      * rewrite !decide_False by done.
        rewrite (Hout og Hog), (Hout tg Htg).
        destruct (decide (x ∈ ht)) as [Hht|Hht].
        -- rewrite (bool_decide_eq_true_2 _ Hht), (Hin ht Hht). done.
        -- rewrite (bool_decide_eq_false_2 _ Hht), (Hout ht Hht). done.
Qed.

Lemma NoDup_extend c' :
  c' ∈ calls_of (delete x people) → NoDup (extend people x c').
Proof.
  intros Hc'.
  apply (NoDup_fmap_1 (λ c,
    (assigned_gene (call_one_gene c) (call_two_genes c) x,
     bool_decide (x ∈ call_have_trait c)))).
  unfold extend.
  cbn [mbind list_bind app fmap list_fmap mret list_ret].
  repeat match goal with
  | |- context [assigned_gene (call_one_gene (variant people x c' ?g ?t))
                  (call_two_genes (variant people x c' ?g ?t)) x] =>
      destruct (variant_membership c' g t Hc') as [-> ->]; [auto|]
  end.
  repeat (apply NoDup_cons; split; [set_solver|]). apply NoDup_nil_2.
Qed.

Lemma NoDup_extend_calls_of :
  NoDup (calls_of (delete x people) ≫= extend people x).
Proof.
  apply NoDup_bind; [| |apply NoDup_calls_of].
  - intros c1 c2 c Hc1 Hc2 (g1 & t1 & _ & ->)%elem_of_extend
      (g2 & t2 & _ & Heq)%elem_of_extend.
    destruct (variant_restrict c1 g1 t1 Hc1) as (Hog1 & Htg1 & Hht1).
    destruct (variant_restrict c2 g2 t2 Hc2) as (Hog2 & Htg2 & Hht2).
    apply (calls_of_inj (delete x people)); [done..| | |]; congruence.
  - intros c' Hc'. by apply NoDup_extend.
Qed.

(** The configurations of the population are those of the population
    without [x], each extended in the six ways. *)
Lemma calls_of_expand :
  calls_of people ≡ₚ calls_of (delete x people) ≫= extend people x.
Proof.
  apply NoDup_Permutation;
    [apply NoDup_calls_of | apply NoDup_extend_calls_of |].
  intros c. rewrite list_elem_of_bind. split.
  - intros (c' & ? & ?)%calls_of_extend. eauto.
  - intros (c' & ? & ?). by eapply extend_calls_of.
Qed.

(** The probability of an extended configuration: the factor of [x] times
    the probability of the configuration it extends. *)
Lemma variant_p c' g t :
  c' ∈ calls_of (delete x people) → (g = 0 ∨ g = 1 ∨ g = 2)%nat →
  call_p (variant people x c' g t)
  = gene_probability_at (call_one_gene c') (call_two_genes c') row g
    * trait_given_gene g t * call_p c'.
Proof.
  intros Hc' Hg.
  destruct (variant_restrict c' g t Hc') as (Hog & Htg & Hht).
  destruct (variant_membership c' g t Hc' Hg) as [Hgene Htrait].
  destruct (calls_of_remove_fresh c' Hc') as (Fog & Ftg & Fht).
  pose proof Hc' as (_ & _ & _ & _ & ->)%elem_of_calls_of.
  change (call_p (variant people x c' g t))
    with (joint people (call_one_gene (variant people x c' g t))
            (call_two_genes (variant people x c' g t))
            (call_have_trait (variant people x c' g t))).
  rewrite (joint_delete people _ _ _ x row Hrow).
  rewrite (joint_away _ _ _ (call_one_gene c') (call_two_genes c')
             (call_have_trait c')) by set_solver.
  f_equal. unfold factor, gene_probability. rewrite Hgene, Htrait.
  f_equal. unfold gene_probability_at.
  destruct (Hleaf x row Hrow) as [Hm Hf].
  destruct (mother row) as [m|], (father row) as [f|]; try done.
  rewrite (assigned_gene_agree _ _ (call_one_gene c') (call_two_genes c') m),
    (assigned_gene_agree _ _ (call_one_gene c') (call_two_genes c') f);
    [done|set_solver..].
Qed.

(** For another person the six extensions together act as the
    configuration they extend. *)
Lemma tally_extend_other key d c' :
  key ≠ x → c' ∈ calls_of (delete x people) →
  tally key d (extend people x c') = apply_call key d c'.
Proof.
  intros Hne Hc'.
  assert (∀ g t d, (g = 0 ∨ g = 1 ∨ g = 2)%nat →
    apply_call key d (variant people x c' g t)
    = bump (assigned_gene (call_one_gene c') (call_two_genes c') key)
        (bool_decide (key ∈ call_have_trait c'))
        (gene_probability_at (call_one_gene c') (call_two_genes c') row g
         * trait_given_gene g t * call_p c') d) as Hstep.
  { intros g t d' Hg. rewrite apply_call_bump, variant_p by done.
    destruct (variant_restrict c' g t Hc') as (Hog & Htg & Hht).
    f_equal.
    - apply assigned_gene_agree; set_solver.
    - apply bool_decide_ext. set_solver. }
  unfold extend, tally.
  cbn [mbind list_bind app fmap list_fmap mret list_ret foldl].
  rewrite !Hstep by auto. rewrite !bump_bump, apply_call_bump. f_equal.
  pose proof (gene_probability_at_total (call_one_gene c')
                (call_two_genes c') row) as Hgenes.
  pose proof (trait_given_gene_total 0) as Ht0.
  pose proof (trait_given_gene_total 1) as Ht1.
  pose proof (trait_given_gene_total 2) as Ht2.
  set (g0 := gene_probability_at _ _ row 0) in *.
  set (g1 := gene_probability_at _ _ row 1) in *.
  set (g2 := gene_probability_at _ _ row 2) in *.
  set (p := call_p c').
  transitivity
    ((g0 * (trait_given_gene 0 false + trait_given_gene 0 true)
      + g1 * (trait_given_gene 1 false + trait_given_gene 1 true)
      + g2 * (trait_given_gene 2 false + trait_given_gene 2 true)) * p);
    [ring|].
  rewrite Ht0, Ht1, Ht2, !Qcmult_1_r, Hgenes. ring.
Qed.

Lemma tally_extend_calls_other key d (calls : list Call) :
  key ≠ x → Forall (λ c', c' ∈ calls_of (delete x people)) calls →
  tally key d (calls ≫= extend people x) = tally key d calls.
Proof.
  intros Hne Hall. revert d.
  induction Hall as [|c' calls Hc' _ IH]; intros d; [done|].
  change ((c' :: calls) ≫= extend people x)
    with (extend people x c' ++ (calls ≫= extend people x)).
  rewrite tally_app, tally_extend_other, IH by done. done.
Qed.

(** Removing a childless person without observed trait does not change
    what the run accumulates for the others. *)
Lemma tally_remove key d :
  key ≠ x →
  tally key d (calls_of people) = tally key d (calls_of (delete x people)).
Proof.
  intros Hne. rewrite (tally_Permutation _ _ _ _ calls_of_expand).
  apply tally_extend_calls_other; [done|].
  by apply Forall_forall.
Qed.

(** For [x] itself, when [x] has no parents, the six extensions add the
    probability of the configuration they extend, split by the prior. *)
Lemma tally_extend_self d c' :
  mother row = None →
  c' ∈ calls_of (delete x people) →
  gene2 (tally x d (extend people x c')) = gene2 d + prior 2 * call_p c'
  ∧ gene1 (tally x d (extend people x c')) = gene1 d + prior 1 * call_p c'
  ∧ gene0 (tally x d (extend people x c')) = gene0 d + prior 0 * call_p c'.
Proof.
  intros Hroot Hc'.
  assert (∀ g t d, (g = 0 ∨ g = 1 ∨ g = 2)%nat →
    apply_call x d (variant people x c' g t)
    = bump g t (prior g * trait_given_gene g t * call_p c') d) as Hstep.
  { intros g t d' Hg. rewrite apply_call_bump, variant_p by done.
    destruct (variant_membership c' g t Hc' Hg) as [-> ->].
    unfold gene_probability_at. by rewrite Hroot. }
  unfold extend, tally.
  cbn [mbind list_bind app fmap list_fmap mret list_ret foldl].
  rewrite !Hstep by auto. unfold bump. cbn [gene2 gene1 gene0].
  repeat (case_decide; try done).
  pose proof (trait_given_gene_total 0) as Ht0.
  pose proof (trait_given_gene_total 1) as Ht1.
  pose proof (trait_given_gene_total 2) as Ht2.
  set (p := call_p c').
  split_and!.
  - transitivity (gene2 d + prior 2
      * (trait_given_gene 2 false + trait_given_gene 2 true) * p); [ring|].
    rewrite Ht2. ring.
  - transitivity (gene1 d + prior 1
      * (trait_given_gene 1 false + trait_given_gene 1 true) * p); [ring|].
    rewrite Ht1. ring.
  - transitivity (gene0 d + prior 0
      * (trait_given_gene 0 false + trait_given_gene 0 true) * p); [ring|].
    rewrite Ht0. ring.
Qed.

Lemma tally_extend_calls_self d (calls : list Call) :
  mother row = None →
  Forall (λ c', c' ∈ calls_of (delete x people)) calls →
  gene2 (tally x d (calls ≫= extend people x)) = gene2 d + prior 2 * total calls
  ∧ gene1 (tally x d (calls ≫= extend people x))
    = gene1 d + prior 1 * total calls
  ∧ gene0 (tally x d (calls ≫= extend people x))
    = gene0 d + prior 0 * total calls.
Proof.
  intros Hroot Hall. revert d.
  induction Hall as [|c' calls Hc' _ IH]; intros d.
  - simpl. split_and!; ring.
  - change ((c' :: calls) ≫= extend people x)
      with (extend people x c' ++ (calls ≫= extend people x)).
    rewrite tally_app.
    destruct (IH (tally x d (extend people x c'))) as (-> & -> & ->).
    destruct (tally_extend_self d c' Hroot Hc') as (-> & -> & ->).
    simpl. split_and!; ring.
Qed.

(** What the run accumulates in the gene buckets of a person without
    parents, children and observed trait: the prior, scaled by the total
    weight of the configurations of the others. *)
Lemma tally_isolated :
  mother row = None →
  gene2 (tally x zero_distribution (calls_of people))
  = prior 2 * total (calls_of (delete x people))
  ∧ gene1 (tally x zero_distribution (calls_of people))
    = prior 1 * total (calls_of (delete x people))
  ∧ gene0 (tally x zero_distribution (calls_of people))
    = prior 0 * total (calls_of (delete x people)).
Proof.
  intros Hroot. rewrite (tally_Permutation _ _ _ _ calls_of_expand).
  destruct (tally_extend_calls_self zero_distribution
              (calls_of (delete x people)) Hroot) as (-> & -> & ->).
  { by apply Forall_forall. }
  simpl. split_and!; ring.
Qed.

End remove_person.

(** ** Persons without parents and without evidence below them *)

Lemma posterior_isolated people x row :
  people !! x = Some row → childless people x →
  trait row = None → mother row = None →
  gene2 (normalized (tally x zero_distribution (calls_of people))) = prior 2
  ∧ gene1 (normalized (tally x zero_distribution (calls_of people))) = prior 1
  ∧ gene0 (normalized (tally x zero_distribution (calls_of people))) = prior 0.
Proof.
  intros Hrow Hleaf Hunobserved Hroot.
  destruct (tally_isolated people x row Hrow Hleaf Hunobserved Hroot)
    as (H2 & H1 & H0).
  pose proof (total_calls_of_pos (delete x people)) as Hpos%Qclt_not_eq.
  set (W := total (calls_of (delete x people))) in *.
  unfold normalized, gene_count. cbn [gene2 gene1 gene0]. rewrite H2, H1, H0.
  assert (0 + prior 2 * W + prior 1 * W + prior 0 * W = W) as ->.
  { transitivity ((prior 0 + prior 1 + prior 2) * W); [ring|].
    rewrite prior_total. ring. }
  split_and!; field; by apply not_eq_sym.
Qed.

Lemma evidence_free_below_remove people x y :
  evidence_free_below people x → evidence_free_below (delete y people) x.
Proof.
  induction 1 as [x Hobs _ IH]. constructor.
  - intros c row [_ Hc]%lookup_delete_Some. by apply (Hobs c).
  - intros c row [_ Hc]%lookup_delete_Some. by apply (IH c).
Qed.

Lemma childless_dec people x : Decision (childless people x).
Proof.
  unfold childless.
  apply (map_Forall_dec (λ _ row, mother row ≠ Some x ∧ father row ≠ Some x)).
Qed.

(** Below a person with children and no evidence below there is a childless
    person without observed trait. *)
Lemma evidence_free_below_leaf people x :
  evidence_free_below people x → ¬ childless people x →
  ∃ y row, people !! y = Some row ∧ childless people y ∧ trait row = None.
Proof.
  induction 1 as [x Hobs _ IH]. intros Hchild.
  apply (map_not_Forall (λ _ row, mother row ≠ Some x ∧ father row ≠ Some x))
    in Hchild.
  destruct Hchild as (c & row & Hc & Hparent).
  assert (mother row = Some x ∨ father row = Some x) as Hpar.
  { destruct (decide (mother row = Some x)); [by left|].
    destruct (decide (father row = Some x)); [by right|].
    by destruct Hparent. }
  destruct (childless_dec people c) as [Hleaf|Hinner].
  - exists c, row. split_and!; [done..|]. by eapply Hobs.
  - by eapply IH.
Qed.

Lemma posterior_evidence_free_below people x row :
  people !! x = Some row → mother row = None → trait row = None →
  evidence_free_below people x →
  gene2 (normalized (tally x zero_distribution (calls_of people))) = prior 2
  ∧ gene1 (normalized (tally x zero_distribution (calls_of people))) = prior 1
  ∧ gene0 (normalized (tally x zero_distribution (calls_of people))) = prior 0.
Proof.
  remember (size people) as n eqn:Hsize. revert people Hsize.
  induction n as [|n IH]; intros people Hsize Hrow Hroot Hunobserved Hbelow.
  { symmetry in Hsize. apply map_size_empty_iff in Hsize. by subst. }
  destruct (childless_dec people x) as [Hleaf|Hchild].
  { by apply (posterior_isolated people x row). }
  destruct (evidence_free_below_leaf people x Hbelow Hchild)
    as (y & rowy & Hy & Hyleaf & Hyobs).
  assert (x ≠ y) as Hne by (by intros ->).
  rewrite (tally_remove people y rowy Hy Hyleaf Hyobs x) by done.
  apply IH.
  - rewrite map_size_delete, Hy, <- Hsize. done.
  - by rewrite lookup_delete_ne.
  - done.
  - done.
  - by apply evidence_free_below_remove.
Qed.

(** * The claims *)

(** C1: for a well-formed population and any configuration,
    [joint_probability] returns the product over all people of the person's
    gene probability times trait probability; for a person with no parents
    the gene probability is the prior table (0.96, 0.03, 0.01 for 0, 1, 2
    copies) and the trait probability is the conditional table entry for
    the assigned gene count and trait; the result is non-negative. *)
Theorem joint_probability_product people one_gene two_genes have_trait :
  well_formed people = true →
  (∃ p, joint_probability people one_gene two_genes have_trait = Ok p
      ∧ p = product ((λ entry, factor one_gene two_genes have_trait
                                 entry.1 entry.2) <$> map_to_list people)
      ∧ 0 ≤ p)
  ∧ (∀ key row,
       factor one_gene two_genes have_trait key row
       = gene_probability one_gene two_genes key row
         * trait_given_gene (assigned_gene one_gene two_genes key)
             (bool_decide (key ∈ have_trait)))
  ∧ (∀ key row,
       people !! key = Some row → mother row = None → father row = None →
       gene_probability one_gene two_genes key row
       = prior (assigned_gene one_gene two_genes key))
  ∧ (prior 0 = Q2Qc 0.96 ∧ prior 1 = Q2Qc 0.03 ∧ prior 2 = Q2Qc 0.01)
  ∧ (trait_given_gene 2 true = Q2Qc 0.65 ∧ trait_given_gene 2 false = Q2Qc 0.35
     ∧ trait_given_gene 1 true = Q2Qc 0.56 ∧ trait_given_gene 1 false = Q2Qc 0.44
     ∧ trait_given_gene 0 true = Q2Qc 0.01 ∧ trait_given_gene 0 false = Q2Qc 0.99).
Proof.
  intros Hwf. split_and!; try reflexivity.
  - exists (joint people one_gene two_genes have_trait). split_and!.
    + by apply joint_probability_Ok.
    + done.
    + apply Qclt_le_weak, joint_pos.
  - intros key row _ Hm Hf. unfold gene_probability, gene_probability_at.
    by rewrite Hm.
Qed.

Lemma joint_probability_product_witness :
  well_formed family0 = true
  ∧ ∃ p, joint_probability family0 {["Harry"]} {["James"]} {["James"]} = Ok p
       ∧ 0 ≤ p.
Proof.
  split; [reflexivity|].
  destruct (joint_probability_product family0 {["Harry"]} {["James"]}
              {["James"]} eq_refl) as [(p & Hp & _ & Hpos) _].
  exists p. exact (conj Hp Hpos).
Defined.

(** C2: for a person whose mother and father are both in the population,
    the gene probability used by [joint_probability] is the transmission
    model: a parent with 0 copies passes the gene with probability 0.01,
    with 1 copy 0.5, with 2 copies 1 - 0.01, and the child has 0, 1 or 2
    copies with probability (1-mom)(1-dad), mom(1-dad) + (1-mom)dad and
    mom*dad, each parent's probability taken from that parent's assigned
    gene count in the same configuration. *)
Theorem child_gene_probability people one_gene two_genes have_trait
    key row m f :
  people !! key = Some row →
  mother row = Some m → father row = Some f →
  is_Some (people !! m) → is_Some (people !! f) →
  let gene := assigned_gene one_gene two_genes key in
  let mom := pass_prob (assigned_gene one_gene two_genes m) in
  let dad := pass_prob (assigned_gene one_gene two_genes f) in
  (pass_prob 0 = Q2Qc 0.01 ∧ pass_prob 1 = Q2Qc 0.5
   ∧ pass_prob 2 = 1 - Q2Qc 0.01)
  ∧ (probe_gene <$> joint_probes_of people one_gene two_genes have_trait !! m
     = Some (assigned_gene one_gene two_genes m)
     ∧ probe_gene <$> joint_probes_of people one_gene two_genes have_trait !! f
       = Some (assigned_gene one_gene two_genes f))
  ∧ person_probability people
      (joint_probes_of people one_gene two_genes have_trait) key
    = Ok ((match gene with
           | 0%nat => (1 - mom) * (1 - dad)
           | 1%nat => mom * (1 - dad) + (1 - mom) * dad
           | _ => mom * dad
           end)
          * trait_given_gene gene (bool_decide (key ∈ have_trait))).
Proof.
  intros Hrow Hm Hf Hmrow Hfrow gene mom dad. split_and!; try reflexivity.
  - rewrite lookup_joint_probes. by destruct Hmrow as [? ->].
  - rewrite lookup_joint_probes. by destruct Hfrow as [? ->].
  - rewrite (person_probability_Ok _ _ _ _ _ row Hrow).
    + unfold factor, gene_probability, gene_probability_at. rewrite Hm, Hf.
      unfold mom, dad. by rewrite !pass_prob_transmission.
    + unfold parents_resolve. rewrite Hm, Hf.
      apply andb_true_iff. split; by apply bool_decide_eq_true, elem_of_dom.
Qed.

Lemma child_gene_probability_witness :
  person_probability family0 (joint_probes_of family0 ∅ ∅ {["James"]}) "Harry"
  = Ok ((1 - pass_prob 0) * (1 - pass_prob 0) * trait_given_gene 0 false).
Proof.
  refine (proj2 (proj2 (child_gene_probability family0 ∅ ∅ {["James"]}
    "Harry" (child "Harry" "Lily" "James" None) "Lily" "James"
    eq_refl eq_refl eq_refl _ _))); by eexists.
Defined.



(** On a population where [joint_probability] raises, a trait set that
    violates the evidence is still skipped, while a consistent one reaches
    [joint_probability] and raises. *)
Example skipped_before_joint_probability :
  trait_round family_missing_parents (dom family_missing_parents)
    (zero_accumulators family_missing_parents) {["Ron"]}
  = Ok (zero_accumulators family_missing_parents)
  ∧ trait_round family_missing_parents (dom family_missing_parents)
      (zero_accumulators family_missing_parents) ∅
    = Raise KeyError.
Proof. split; reflexivity. Qed.

(** C4: when every person's gene weights and trait weights have strictly
    positive sums, [normalize] returns; after it each person's gene
    distribution and trait distribution sum to exactly 1, and every weight
    is the old weight divided by the sum of its own distribution, so that
    proportions within a distribution are kept. *)
Theorem normalize_sums_to_one probabilities :
  (∀ key d, probabilities !! key = Some d →
            0 < gene_count d ∧ 0 < trait_count d) →
  ∃ res, normalize probabilities = Ok res
    ∧ dom res = dom probabilities
    ∧ ∀ key d, probabilities !! key = Some d →
        ∃ d', res !! key = Some d'
          ∧ gene2 d' + gene1 d' + gene0 d' = 1
          ∧ trait_true d' + trait_false d' = 1
          ∧ gene2 d' = gene2 d / (gene2 d + gene1 d + gene0 d)
          ∧ gene1 d' = gene1 d / (gene2 d + gene1 d + gene0 d)
          ∧ gene0 d' = gene0 d / (gene2 d + gene1 d + gene0 d)
          ∧ trait_true d' = trait_true d / (trait_true d + trait_false d)
          ∧ trait_false d' = trait_false d / (trait_true d + trait_false d).
Proof.
  intros Hpos. exists (normalized <$> probabilities). split_and!.
  - apply normalize_Ok. intros key d Hd.
    destruct (Hpos key d Hd) as [Hg Ht].
    split; by apply not_eq_sym, Qclt_not_eq.
  - apply dom_fmap_L.
  - intros key d Hd. exists (normalized d).
    destruct (Hpos key d Hd) as [Hg%Qclt_not_eq%not_eq_sym
                                 Ht%Qclt_not_eq%not_eq_sym].
    pose proof (gene_count_normalized d Hg) as Hg1.
    pose proof (trait_count_normalized d Ht) as Ht1.
    unfold gene_count, trait_count in *. rewrite !Qcplus_0_l in *.
    split_and!; try done.
    + by rewrite lookup_fmap, Hd.
    + unfold normalized, gene_count; simpl. by rewrite !Qcplus_0_l.
    + unfold normalized, gene_count; simpl. by rewrite !Qcplus_0_l.
    + unfold normalized, gene_count; simpl. by rewrite !Qcplus_0_l.
    + unfold normalized, trait_count; simpl. by rewrite !Qcplus_0_l.
    + unfold normalized, trait_count; simpl. by rewrite !Qcplus_0_l.
Qed.

Lemma normalize_sums_to_one_witness :
  ∃ res, normalize {[ "Ann" := {| gene2 := 1; gene1 := 1; gene0 := Q2Qc 2;
                                  trait_true := Q2Qc 3; trait_false := 1 |} ]}
         = Ok res.
Proof.
  destruct (normalize_sums_to_one
              {[ "Ann" := {| gene2 := 1; gene1 := 1; gene0 := Q2Qc 2;
                             trait_true := Q2Qc 3; trait_false := 1 |} ]})
    as (res & Hres & _).
  - intros key d [_ <-]%lookup_singleton_Some. by vm_compute.
  - by exists res.
Defined.

(** C5: for a person in [probabilities], [update] adds [p] to exactly one
    gene bucket (1 if the person is in [one_gene], else 2 if in
    [two_genes], else 0) and to exactly one trait bucket (true if in
    [have_trait], else false) and leaves the person's other buckets
    unchanged. *)
Theorem update_buckets probabilities one_gene two_genes have_trait p key d :
  probabilities !! key = Some d →
  ∃ d', update probabilities one_gene two_genes have_trait p !! key = Some d'
    ∧ (key ∈ one_gene →
       gene1 d' = gene1 d + p ∧ gene2 d' = gene2 d ∧ gene0 d' = gene0 d)
    ∧ (key ∉ one_gene → key ∈ two_genes →
       gene2 d' = gene2 d + p ∧ gene1 d' = gene1 d ∧ gene0 d' = gene0 d)
    ∧ (key ∉ one_gene → key ∉ two_genes →
       gene0 d' = gene0 d + p ∧ gene1 d' = gene1 d ∧ gene2 d' = gene2 d)
    ∧ (key ∈ have_trait →
       trait_true d' = trait_true d + p ∧ trait_false d' = trait_false d)
    ∧ (key ∉ have_trait →
       trait_false d' = trait_false d + p ∧ trait_true d' = trait_true d).
Proof.
  intros Hd. eexists. split.
  - by rewrite lookup_update, Hd.
  - unfold update_person. split_and!; intros; repeat case_decide; done.
Qed.

Lemma update_buckets_witness :
  ∃ d', update (zero_accumulators family0) {["Harry"]} {["James"]} {["James"]}
          1 !! "James" = Some d'
      ∧ gene2 d' = 0 + 1 ∧ trait_true d' = 0 + 1
      ∧ gene1 d' = 0 ∧ gene0 d' = 0 ∧ trait_false d' = 0.
Proof.
  destruct (update_buckets (zero_accumulators family0)
              {["Harry"]} {["James"]} {["James"]} 1 "James" zero_distribution
              eq_refl) as (d' & Hd' & _ & Htwo & _ & Htrait & _).
  exists d'. split; [exact Hd'|].
  destruct Htwo as (? & ? & ?); [by vm_compute | by vm_compute |].
  destruct Htrait as (? & ?); [by vm_compute |].
  split_and!; assumption.
Defined.

(** C6: [normalize] raises [ZeroDivisionError] if and only if the gene
    weights or the trait weights of some person sum to zero, as for
    accumulators that never received weight; [main] has no handler, it
    returns what [normalize] returns or raises; and when [normalize] does
    return, no person had a zero sum and every person has the rescaled
    distributions. *)
Theorem normalize_zero_division probabilities :
  (normalize probabilities = Raise ZeroDivisionError
   ↔ ∃ key d, probabilities !! key = Some d
            ∧ (gene_count d = 0 ∨ trait_count d = 0))
  ∧ (∀ people, people ≠ ∅ →
       normalize (zero_accumulators people) = Raise ZeroDivisionError)
  ∧ (∀ people, accumulate people = Ok probabilities →
       main people = normalize probabilities)
  ∧ (∀ res, normalize probabilities = Ok res →
       ∀ key d, probabilities !! key = Some d →
         gene_count d ≠ 0 ∧ trait_count d ≠ 0
         ∧ res !! key = Some (normalized d)).
Proof.
  assert (∀ m : gmap string Distribution,
    (∃ key d, m !! key = Some d ∧ (gene_count d = 0 ∨ trait_count d = 0))
    → normalize m = Raise ZeroDivisionError) as Hraise.
  { intros m (key & d & Hd & Hzero). apply normalize_Raise.
    intros Hall. destruct (Hall key d Hd) as [Hg Ht]. by destruct Hzero. }
  split_and!.
  - split; [|apply Hraise].
    intros Hnorm.
    destruct (decide (map_Forall (λ _, summable) probabilities)) as [Hall|Hbad].
    { by rewrite normalize_Ok in Hnorm. }
    apply map_not_Forall in Hbad; [|apply _].
    destruct Hbad as (key & d & Hd & Hd'). exists key, d. split; [done|].
    destruct (decide (gene_count d = 0)); [by left|].
    destruct (decide (trait_count d = 0)); [by right|].
    by destruct Hd'.
  - intros people (key & row & Hrow)%map_choose. apply Hraise.
    exists key, zero_distribution. split; [|by left].
    by rewrite lookup_zero_accumulators, Hrow.
  - intros people Hacc. unfold main. by rewrite Hacc.
  - intros res Hnorm key d Hd.
    destruct (decide (map_Forall (λ _, summable) probabilities)) as [Hall|Hbad].
    + rewrite normalize_Ok in Hnorm by done. injection Hnorm as <-.
      destruct (Hall key d Hd). by rewrite lookup_fmap, Hd.
    + by rewrite normalize_Raise in Hnorm.
Qed.

Lemma normalize_zero_division_witness :
  normalize (zero_accumulators family0) = Raise ZeroDivisionError
  ∧ main family0
    = normalize (replay (zero_accumulators family0) (calls_of family0)).
Proof.
  split.
  - apply (proj1 (normalize_zero_division (zero_accumulators family0))).
    exists "Harry", zero_distribution. split; [reflexivity | by left].
  - apply (normalize_zero_division
             (replay (zero_accumulators family0) (calls_of family0))).
    by apply accumulate_Ok.
Defined.

(** C7: in a well-formed population the run returns, and a person whose
    trait is observed to be true has posterior trait probability exactly 1
    for true and 0 for false: the accumulated false bucket of that person
    is still 0 when the enumeration ends. *)
Theorem observed_trait_certain people person row :
  well_formed people = true →
  people !! person = Some row → trait row = Some true →
  (∃ probabilities acc,
     accumulate people = Ok probabilities
     ∧ probabilities !! person = Some acc ∧ trait_false acc = 0)
  ∧ (∃ res d,
       main people = Ok res ∧ res !! person = Some d
       ∧ trait_true d = 1 ∧ trait_false d = 0).
Proof.
  intros Hwf Hrow Hobs.
  set (acc := tally person zero_distribution (calls_of people)).
  assert (trait_false acc = 0) as Hfalse.
  { unfold acc. rewrite trait_false_tally; [done|].
    apply Forall_forall. intros c (_ & Hev & _)%elem_of_calls_of.
    by apply (bool_decide_eq_true _), (Hev person row true). }
  split.
  - exists (replay (zero_accumulators people) (calls_of people)), acc.
    split_and!; [by apply accumulate_Ok | | done].
    by rewrite lookup_replay_zero.
  - destruct (lookup_main people person Hwf) as (res & Hmain & Hres); [done|].
    exists res, (normalized acc). split_and!; [done..| |].
    + pose proof (total_calls_of_pos people) as Hpos%Qclt_not_eq.
      pose proof (trait_count_tally person zero_distribution (calls_of people))
        as Hcount.
      fold acc in Hcount. unfold normalized. simpl.
      assert (trait_count acc = trait_true acc) as Htt
        by (unfold trait_count; rewrite Hfalse; ring).
      rewrite <- Htt. field. rewrite Hcount.
      change (trait_count zero_distribution) with (0 + 0 + 0).
      intros Hz. apply Hpos. rewrite <- Hz. ring.
    + unfold normalized. simpl. rewrite Hfalse. apply Qcmult_0_l.
Qed.

Lemma observed_trait_certain_witness :
  ∃ res d, main family0 = Ok res ∧ res !! "James" = Some d
         ∧ trait_true d = 1 ∧ trait_false d = 0.
Proof.
  exact (proj2 (observed_trait_certain family0 "James"
                  (orphan "James" (Some true)) eq_refl eq_refl eq_refl)).
Defined.

(** C8, as stated, fails: Lily has no parents and no observed trait, but her
    son Harry is observed to have the trait, and her posterior probability
    of having no copy of the gene is not the prior 0.96. *)
Lemma prior_posterior_counterexample :
  ∃ row res d,
    family_evidence_below !! "Lily" = Some row
    ∧ mother row = None ∧ father row = None ∧ trait row = None
    ∧ main family_evidence_below = Ok res ∧ res !! "Lily" = Some d
    ∧ gene0 d ≠ Q2Qc 0.96.
Proof.
  destruct (lookup_main family_evidence_below "Lily" eq_refl)
    as (res & Hmain & Hres); [by eexists|].
  exists (orphan "Lily" None), res,
    (normalized (tally "Lily" zero_distribution
                   (calls_of family_evidence_below))).
  split_and!; [reflexivity.. | exact Hmain | exact Hres |].
  intros Heq. apply (f_equal this) in Heq. vm_compute in Heq. discriminate.
Qed.

Lemma family_no_evidence_below_rows c row :
  family_no_evidence_below !! c = Some row →
  (c = "Harry" ∧ row = child "Harry" "Lily" "James" None)
  ∨ (c = "James" ∧ row = orphan "James" (Some true))
  ∨ (c = "Lily" ∧ row = orphan "Lily" None).
Proof.
  unfold family_no_evidence_below.
  intros [[<- <-]|[_ [[<- <-]|[_ [<- <-]%lookup_singleton_Some]]
    %lookup_insert_Some]]%lookup_insert_Some; auto.
Qed.

Lemma family_no_evidence_below_Harry :
  evidence_free_below family_no_evidence_below "Harry".
Proof.
  constructor; intros c row
    [[-> ->]|[[-> ->]|[-> ->]]]%family_no_evidence_below_rows [[=]|[=]].
Qed.

Lemma family_no_evidence_below_Lily :
  evidence_free_below family_no_evidence_below "Lily".
Proof.
  constructor; intros c row
    [[-> ->]|[[-> ->]|[-> ->]]]%family_no_evidence_below_rows [[=]|[=]].
  - done.
  - apply family_no_evidence_below_Harry.
Qed.

(** C8, amended: in a well-formed population, for a person with no parents
    and no observed trait none of whose descendants has an observed trait,
    the run returns and the person's posterior gene distribution is the
    prior table exactly: 0.96, 0.03 and 0.01 for 0, 1 and 2 copies. *)
Theorem posterior_equals_prior people person row :
  well_formed people = true →
  people !! person = Some row →
  mother row = None → father row = None → trait row = None →
  evidence_free_below people person →
  ∃ res d,
    main people = Ok res ∧ res !! person = Some d
    ∧ gene0 d = Q2Qc 0.96 ∧ gene1 d = Q2Qc 0.03 ∧ gene2 d = Q2Qc 0.01.
Proof.
  intros Hwf Hrow Hmother _ Hunobserved Hbelow.
  destruct (lookup_main people person Hwf) as (res & Hmain & Hres); [done|].
  destruct (posterior_evidence_free_below people person row
              Hrow Hmother Hunobserved Hbelow) as (H2 & H1 & H0).
  eexists res, _. split_and!; [exact Hmain | exact Hres | done..].
Qed.

Lemma posterior_equals_prior_witness :
  ∃ res d,
    main family_no_evidence_below = Ok res ∧ res !! "Lily" = Some d
    ∧ gene0 d = Q2Qc 0.96 ∧ gene1 d = Q2Qc 0.03 ∧ gene2 d = Q2Qc 0.01.
Proof.
  exact (posterior_equals_prior family_no_evidence_below "Lily"
           (orphan "Lily" None) eq_refl eq_refl eq_refl eq_refl eq_refl
           family_no_evidence_below_Lily).
Defined.

(** C9: accumulation is a commutative reduction.  Replaying the same calls
    of [update] in any order from the all-zero accumulators gives the same
    accumulators; replaying each shard of a partition from all-zero
    accumulators and merging by elementwise addition gives them too; and
    for a well-formed population these are the accumulators of the
    enumeration loop, whatever the order of its configurations. *)
Theorem accumulation_commutative people calls calls' shards :
  calls' ≡ₚ calls → concat shards ≡ₚ calls →
  replay (zero_accumulators people) calls'
  = replay (zero_accumulators people) calls
  ∧ foldr merge_accumulators (zero_accumulators people)
      (replay (zero_accumulators people) <$> shards)
    = replay (zero_accumulators people) calls
  ∧ (well_formed people = true → calls ≡ₚ calls_of people →
     accumulate people = Ok (replay (zero_accumulators people) calls)).
Proof.
  intros Hperm Hshards. split_and!.
  - by apply replay_Permutation.
  - rewrite <- (replay_Permutation _ _ _ Hshards). clear.
    induction shards as [|shard shards IH]; [done|].
    rewrite fmap_cons. cbn [foldr concat].
    by rewrite IH, merge_replay.
  - intros Hwf Hcalls. rewrite accumulate_Ok by done.
    f_equal. by apply replay_Permutation.
Qed.

Lemma accumulation_commutative_witness :
  foldr merge_accumulators (zero_accumulators family0)
    (replay (zero_accumulators family0)
       <$> [calls_of family0; reverse (calls_of family0)])
  = replay (zero_accumulators family0)
      (calls_of family0 ++ calls_of family0).
Proof.
  refine (proj1 (proj2 (accumulation_commutative family0
    (calls_of family0 ++ calls_of family0)
    (calls_of family0 ++ calls_of family0)
    [calls_of family0; reverse (calls_of family0)] _ _))).
  - reflexivity.
  - simpl. rewrite app_nil_r. apply Permutation_app; [done|].
    apply reverse_Permutation.
Defined.

Section binary64.
Import PrimFloat Binary64.
Local Open Scope float_scope.
#[local] Set Warnings "-inexact-float".

Lemma for_each_ext {A S : Type} (l : list A) (body1 body2 : S → A → result S) s :
  (∀ s x, body1 s x = body2 s x) → for_each l body1 s = for_each l body2 s.
Proof.
  intros Hext. revert s. induction l as [|x l IH]; intros s; [done|].
  cbn [for_each]. rewrite Hext. destruct (body2 s x) as [s'|e]; [|done].
  cbn [mbind result_bind]. apply IH.
Qed.

Lemma accumulate_order_ext (order1 order2 : gset string → list string) people :
  (∀ s, s ⊆ list_to_set (people.*1) → order1 s = order2 s) →
  accumulate order1 people = accumulate order2 people.
Proof.
  intros Horder. unfold accumulate, powerset.
  rewrite (Horder (list_to_set (people.*1))) by done.
  apply for_each_ext. intros probabilities have_trait.
  unfold trait_round, fails_evidence.
  rewrite (Horder (list_to_set (people.*1))) by done.
  destruct (existsb _ _); [done|].
  unfold gene_rounds, powerset.
  rewrite (Horder (list_to_set (people.*1))) by done.
  apply for_each_ext. intros probabilities' one_gene.
  rewrite (Horder (list_to_set (people.*1) ∖ one_gene)) by set_solver.
  done.
Qed.

Lemma order_of_singleton (order : gset string → list string) (x : string) s :
  (∀ s, order s ≡ₚ elements s) → s ⊆ {[ x ]} → order s = elements s.
Proof.
  intros Horder Hs. destruct (decide (x ∈ s)) as [Hx|Hx].
  - assert (s = {[ x ]}) as -> by set_solver.
    rewrite elements_singleton. apply Permutation_singleton_r.
    by rewrite Horder, elements_singleton.
  - assert (s = ∅) as -> by set_solver.
    rewrite elements_empty. apply Permutation_nil_r.
    by rewrite Horder, elements_empty.
Qed.

(** C10, as stated, fails in the arithmetic of the program.  For the
    population of one person without parents and without an observed trait
    the loop of [main] makes six calls of [update], in an order that does
    not depend on how Python iterates a set.  Afterwards the person's three
    gene weights sum to 1.0 and the two trait weights to
    0.9999999999999999, with the summation of [sum] before Python 3.12 and
    with the compensated summation since: [normalize] divides the gene
    weights and the trait weights of the same person by different
    totals. *)
Lemma accumulated_sums_differ :
  ∃ d,
    (∀ order : gset string → list string,
       (∀ s, order s ≡ₚ elements s) →
       accumulate order single = Ok [("Harry", d)])
    ∧ sum_values (gene_values d) = 1
    ∧ sum_values (trait_values d) = 0.9999999999999999
    ∧ sum_values_compensated (gene_values d) = 1
    ∧ sum_values_compensated (trait_values d) = 0.9999999999999999
    ∧ sum_values (gene_values d) ≠ sum_values (trait_values d)
    ∧ sum_values_compensated (gene_values d)
      ≠ sum_values_compensated (trait_values d).
Proof.
  exists {| gene2 := 0.01; gene1 := 0.030000000000000002; gene0 := 0.96;
            trait_true := 0.0329; trait_false := 0.9670999999999998 |}.
  split_and!.
  - intros order Horder.
    rewrite (accumulate_order_ext order (λ s, elements s)).
    + vm_compute. reflexivity.
    + intros s Hs. apply (order_of_singleton order "Harry"); [done|].
      set_solver.
  - vm_compute. reflexivity.
  - vm_compute. reflexivity.
  - vm_compute. reflexivity.
  - vm_compute. reflexivity.
  - intros Heq. apply (f_equal (λ x, x =? 1)) in Heq.
    vm_compute in Heq. discriminate.
  - intros Heq. apply (f_equal (λ x, x =? 1)) in Heq.
    vm_compute in Heq. discriminate.
Qed.

End binary64.

(** C10, amended: over exact arithmetic, starting from all-zero
    accumulators, after any sequence of calls of [update] every person's
    three gene weights and two trait weights both sum to the sum of the
    joint probabilities accumulated so far, a number that does not depend
    on the person; [normalize] therefore divides every weight of every
    person by that same total. *)
Theorem accumulated_sums_agree people calls key d :
  replay (zero_accumulators people) calls !! key = Some d →
  gene2 d + gene1 d + gene0 d = total calls
  ∧ trait_true d + trait_false d = total calls
  ∧ gene_count d = total calls ∧ trait_count d = total calls
  ∧ normalized d
    = {| gene2 := gene2 d / total calls; gene1 := gene1 d / total calls;
         gene0 := gene0 d / total calls;
         trait_true := trait_true d / total calls;
         trait_false := trait_false d / total calls |}.
Proof.
  intros Hd. rewrite lookup_replay, lookup_zero_accumulators in Hd.
  destruct (people !! key) as [row|]; [|done]. injection Hd as <-.
  pose proof (gene_count_tally key zero_distribution calls) as Hg.
  pose proof (trait_count_tally key zero_distribution calls) as Ht.
  change (gene_count zero_distribution) with (0 + 0 + 0 + 0) in Hg.
  change (trait_count zero_distribution) with (0 + 0 + 0) in Ht.
  rewrite !Qcplus_0_l in Hg, Ht.
  split_and!; try done.
  - rewrite <- Hg. unfold gene_count. ring.
  - rewrite <- Ht. unfold trait_count. ring.
  - unfold normalized. by rewrite Hg, Ht.
Qed.

Lemma accumulated_sums_agree_witness :
  ∃ d, replay (zero_accumulators family0) (calls_of family0) !! "Harry" = Some d
     ∧ gene2 d + gene1 d + gene0 d = total (calls_of family0)
     ∧ trait_true d + trait_false d = total (calls_of family0).
Proof.
  eexists. split; [by apply lookup_replay_zero|].
  destruct (accumulated_sums_agree family0 (calls_of family0) "Harry" _
              (lookup_replay_zero family0 (calls_of family0) "Harry"
                 (ex_intro _ _ eq_refl)))
    as (Hg & Ht & _).
  exact (conj Hg Ht).
Defined.

(** * Further properties of the program *)

(** ** Exceptions raised by [joint_probability] and [main] *)

Lemma getitem_Raise `{Countable K} {V} (d : gmap K V) (k : K) e :
  getitem d k = Raise e → e = KeyError.
Proof. unfold getitem. destruct (d !! k); congruence. Qed.

Lemma getitem_opt_Raise `{Countable K} {V} (d : gmap K V) (k : option K) e :
  getitem_opt d k = Raise e → e = KeyError.
Proof. destruct k; simpl; [apply getitem_Raise | congruence]. Qed.

Lemma bind_Ok {A B} (m : result A) (f : A → result B) (b : B) :
  m ≫= f = Ok b ↔ ∃ a, m = Ok a ∧ f a = Ok b.
Proof.
  destruct m as [a|e]; simpl.
  - split; [eauto | by intros (? & [= <-] & ?)].
  - split; [done | by intros (? & ? & ?)].
Qed.

Lemma bind_Raise {A B} (m : result A) (f : A → result B) e :
  m ≫= f = Raise e → m = Raise e ∨ ∃ a, m = Ok a ∧ f a = Raise e.
Proof. destruct m as [a|e']; simpl; [eauto | intros [= ->]; auto]. Qed.

Lemma person_probability_exn people joint_probes key e :
  person_probability people joint_probes key = Raise e → e = KeyError.
Proof.
  unfold person_probability.
  intros [Hr|(probe & _ & [Hr|(person & _ & Hr)]%bind_Raise)]%bind_Raise;
    [by eapply getitem_Raise..|].
  apply bind_Raise in Hr as [Hr|(p_gene & _ & Hr)].
  - case_decide; [by eapply getitem_Raise|].
    apply bind_Raise in Hr as [Hr|(mom & _ & Hr)];
      [by eapply getitem_opt_Raise|].
    apply bind_Raise in Hr as [Hr|(dad & _ & Hr)];
      [by eapply getitem_opt_Raise|].
    by repeat case_decide.
  - apply bind_Raise in Hr as [Hr|(by_trait & _ & Hr)];
      [by eapply getitem_Raise|].
    apply bind_Raise in Hr as [Hr|(p_trait & _ & Hr)];
      [by eapply getitem_Raise | done].
Qed.

Lemma getitem_joint_probes_None people og tg ht key :
  people !! key = None →
  getitem (joint_probes_of people og tg ht) key = Raise KeyError.
Proof.
  intros Hkey. unfold getitem. by rewrite lookup_joint_probes, Hkey.
Qed.

Lemma person_probability_Raise people og tg ht key row :
  people !! key = Some row →
  parents_resolve people row = false →
  person_probability people (joint_probes_of people og tg ht) key
  = Raise KeyError.
Proof.
  intros Hrow Hbad. unfold person_probability.
  rewrite getitem_joint_probes by eauto. cbn [mbind result_bind].
  rewrite (getitem_Some _ _ _ Hrow). cbn [mbind result_bind].
  unfold parents_resolve in Hbad.
  destruct (mother row) as [m|], (father row) as [f|];
    try done; cbn [getitem_opt];
    rewrite decide_False by (by intros [??]).
  - destruct (people !! m) as [mrow|] eqn:Hm;
      [|rewrite (getitem_joint_probes_None _ _ _ _ m) by done; reflexivity].
    rewrite (getitem_joint_probes _ _ _ _ m) by eauto.
    cbn [mbind result_bind].
    destruct (people !! f) as [frow|] eqn:Hf;
      [|rewrite (getitem_joint_probes_None _ _ _ _ f) by done; reflexivity].
    apply andb_false_iff in Hbad as [Hbad|Hbad];
      apply bool_decide_eq_false in Hbad; destruct Hbad;
      apply elem_of_dom; eauto.
  - destruct (people !! m) as [mrow|] eqn:Hm;
      [|rewrite (getitem_joint_probes_None _ _ _ _ m) by done; reflexivity].
    by rewrite (getitem_joint_probes _ _ _ _ m) by eauto.
Qed.

Lemma well_formed_false people :
  well_formed people = false →
  ∃ key row, people !! key = Some row ∧ parents_resolve people row = false.
Proof.
  unfold well_formed. intros Hbad.
  assert (∃ entry, entry ∈ map_to_list people
                   ∧ parents_resolve people entry.2 = false)
    as ([key row] & Hin & Hrow).
  { induction (map_to_list people) as [|entry l IH]; [done|].
    simpl in Hbad. apply andb_false_iff in Hbad as [Hbad|Hbad].
    - exists entry. split; [by left | done].
    - destruct (IH Hbad) as (entry' & ? & ?). exists entry'.
      split; [by right | done]. }
  exists key, row. split; [by apply elem_of_map_to_list | done].
Qed.

Lemma joint_probability_exn people og tg ht e :
  joint_probability people og tg ht = Raise e → e = KeyError.
Proof.
  unfold joint_probability. rewrite map_fold_foldr.
  induction (map_to_list (joint_probes_of people og tg ht))
    as [|[key probe] l IH]; simpl; [done|].
  intros [Hr|(joint_prob & _ & Hr)]%bind_Raise; [by apply IH|].
  apply bind_Raise in Hr as [Hr|(p & _ & Hr)]; [|done].
  by eapply person_probability_exn.
Qed.

Lemma joint_probability_Raise people og tg ht :
  well_formed people = false →
  joint_probability people og tg ht = Raise KeyError.
Proof.
  intros (key & row & Hrow & Hbad)%well_formed_false.
  destruct (joint_probability people og tg ht) as [p|e] eqn:Hp;
    [|by apply joint_probability_exn in Hp as ->].
  exfalso. unfold joint_probability in Hp. rewrite map_fold_foldr in Hp.
  assert ((key, probe_of og tg ht key)
          ∈ map_to_list (joint_probes_of people og tg ht)) as Hin.
  { apply elem_of_map_to_list. by rewrite lookup_joint_probes, Hrow. }
  revert p Hp.
  induction (map_to_list (joint_probes_of people og tg ht))
    as [|[key' probe'] l IH]; [by apply elem_of_nil in Hin|].
  intros p Hp. simpl in Hp.
  apply bind_Ok in Hp as (joint_prob & Hacc & Hp).
  apply bind_Ok in Hp as (p' & Hperson & _).
  apply elem_of_cons in Hin as [[= <- <-]|Hin].
  - by rewrite (person_probability_Raise _ _ _ _ _ row) in Hperson.
  - by eapply IH.
Qed.

(** ** The range of [joint_probability] *)

Lemma prior_le_1 og tg key : prior (assigned_gene og tg key) ≤ 1.
Proof. by destruct (assigned_gene_cases og tg key) as [->|[->| ->]]. Qed.

Lemma trait_given_gene_le_1 og tg key b :
  trait_given_gene (assigned_gene og tg key) b ≤ 1.
Proof. by destruct (assigned_gene_cases og tg key) as [->|[->| ->]], b. Qed.

Lemma inherited_le_1 og tg key m f :
  inherited (assigned_gene og tg key)
    (transmission (assigned_gene og tg m))
    (transmission (assigned_gene og tg f)) ≤ 1.
Proof.
  destruct (assigned_gene_cases og tg key) as [->|[->| ->]];
    destruct (assigned_gene_cases og tg m) as [->|[->| ->]];
    destruct (assigned_gene_cases og tg f) as [->|[->| ->]];
    vm_compute; discriminate.
Qed.

Lemma Qcmult_le_1 (x y : Qc) : 0 ≤ x → x ≤ 1 → 0 ≤ y → y ≤ 1 → x * y ≤ 1.
Proof.
  intros Hx0 Hx1 Hy0 Hy1. apply Qcle_trans with (1 * y).
  - by apply Qcmult_le_mono_nonneg_r.
  - by rewrite Qcmult_1_l.
Qed.

Lemma factor_le_1 og tg ht key row : factor og tg ht key row ≤ 1.
Proof.
  pose proof (factor_pos og tg ht key row) as Hpos.
  unfold factor, gene_probability, gene_probability_at in *.
  apply Qcmult_le_1.
  - destruct (mother row), (father row);
      apply Qclt_le_weak; auto with positive.
  - destruct (mother row), (father row);
      auto using prior_le_1, inherited_le_1.
  - apply Qclt_le_weak, trait_given_gene_pos.
  - apply trait_given_gene_le_1.
Qed.

Lemma product_le_1 l : Forall (λ x, 0 < x ∧ x ≤ 1) l → product l ≤ 1.
Proof.
  induction 1 as [|x l [Hx0 Hx1] Hl IH]; simpl; [done|].
  apply Qcmult_le_1; [by apply Qclt_le_weak | done | | done].
  apply Qclt_le_weak, product_pos.
  eapply Forall_impl; [exact Hl|]. by intros ? [??].
Qed.

Lemma joint_le_1 people og tg ht : joint people og tg ht ≤ 1.
Proof.
  unfold joint. apply product_le_1, Forall_fmap, Forall_forall.
  intros [key row] _. split; [apply factor_pos | apply factor_le_1].
Qed.

(** ** Exceptions raised by the loops of [main] *)

Lemma for_each_Raise {A S} (l : list A) (body : S → A → result S) (s : S) e :
  (∀ s x e', x ∈ l → body s x = Raise e' → e' = e) →
  (∃ x, x ∈ l ∧ ∀ s, body s x = Raise e) →
  for_each l body s = Raise e.
Proof.
  revert s. induction l as [|y l IH]; intros s Hexn (x & Hx & Hbad).
  { by apply elem_of_nil in Hx. }
  simpl. destruct (body s y) as [s'|e'] eqn:Hy.
  - simpl. apply IH.
    + intros s0 z e0 Hz. apply Hexn. by right.
    + apply elem_of_cons in Hx as [->|Hx]; [by rewrite Hbad in Hy|].
      by exists x.
  - simpl. f_equal. eapply Hexn; [|done]. by left.
Qed.

Lemma gene_rounds_Raise people have_trait probabilities :
  well_formed people = false →
  gene_rounds people (dom people) have_trait probabilities = Raise KeyError.
Proof.
  intros Hbad. unfold gene_rounds.
  assert (∀ one_gene probabilities,
    for_each (powerset (dom people ∖ one_gene)) (λ probabilities two_genes,
        p ← joint_probability people one_gene two_genes have_trait;
        mret (update probabilities one_gene two_genes have_trait p))
      probabilities = Raise KeyError) as Hinner.
  { intros one_gene probs. apply for_each_Raise.
    - intros s tg e' _. by rewrite joint_probability_Raise by done; intros [= <-].
    - exists ∅. split; [apply elem_of_powerset; set_solver|].
      intros s. by rewrite joint_probability_Raise. }
  apply for_each_Raise.
  - intros s og e' _. rewrite Hinner. by intros [= <-].
  - exists ∅. split; [apply elem_of_powerset; set_solver | done].
Qed.

Lemma accumulate_Raise people :
  well_formed people = false → accumulate people = Raise KeyError.
Proof.
  intros Hbad. unfold accumulate. apply for_each_Raise.
  - intros s ht e' _. unfold trait_round.
    destruct (fails_evidence _ _ _); [done|].
    rewrite gene_rounds_Raise by done. by intros [= <-].
  - exists (observed_true people). split.
    + apply elem_of_powerset. intros person (row & Hrow & _)%observed_true_spec.
      apply elem_of_dom. eauto.
    + intros s. unfold trait_round.
      rewrite (proj2 (fails_evidence_false _ _)
                 (observed_true_consistent people)).
      by apply gene_rounds_Raise.
Qed.

Lemma main_Raise people :
  well_formed people = false → main people = Raise KeyError.
Proof. intros Hbad. unfold main. by rewrite accumulate_Raise. Qed.

(** ** Weights accumulated by a run *)

Lemma Qcle_plus_nonneg (x p : Qc) : 0 ≤ p → x ≤ x + p.
Proof.
  intros Hp. rewrite <- (Qcplus_0_r x) at 1. by apply Qcplus_le_mono_l.
Qed.

Lemma Qclt_plus_pos (x p : Qc) : 0 < p → x < x + p.
Proof.
  intros Hp. rewrite <- (Qcplus_0_r x) at 1. by apply Qcplus_lt_mono_l.
Qed.

Lemma below_refl d : below d d.
Proof. unfold below. split_and!; apply Qcle_refl. Qed.

Lemma below_trans d1 d2 d3 : below d1 d2 → below d2 d3 → below d1 d3.
Proof.
  unfold below. intros (?&?&?&?&?) (?&?&?&?&?).
  split_and!; by eapply Qcle_trans.
Qed.

Lemma bump_below g t p d : 0 ≤ p → below d (bump g t p d).
Proof.
  intros Hp. pose proof (Qcle_plus_nonneg) as Hle.
  assert (∀ x : Qc, x ≤ x + 0) as Hle0 by (intros x; by apply Hle).
  unfold below, bump. simpl.
  repeat case_decide; destruct t; split_and!; auto.
Qed.

Lemma tally_below key d calls :
  Forall (λ c, 0 ≤ call_p c) calls → below d (tally key d calls).
Proof.
  intros Hall. revert d.
  induction Hall as [|c calls Hc _ IH]; intros d; [apply below_refl|].
  simpl. eapply below_trans; [|apply IH].
  rewrite apply_call_bump. by apply bump_below.
Qed.

(** A call of the list contributes at least its own weight. *)
Lemma tally_below_call key d calls c :
  Forall (λ c, 0 ≤ call_p c) calls → c ∈ calls →
  below (apply_call key d c) (tally key d calls).
Proof.
  intros Hall (rest & Hperm)%elem_of_Permutation.
  rewrite (tally_Permutation _ _ _ _ Hperm). simpl.
  apply tally_below. rewrite Hperm in Hall. by inversion Hall.
Qed.

Lemma calls_of_nonneg people : Forall (λ c, 0 ≤ call_p c) (calls_of people).
Proof.
  eapply Forall_impl; [apply calls_of_pos|].
  intros c. apply Qclt_le_weak.
Qed.

Lemma trait_set_for_consistent people key t :
  (∀ row observed, people !! key = Some row → trait row = Some observed →
                   observed = t) →
  consistent people (trait_set_for people key t).
Proof.
  intros Hkey person row observed Hrow Hobs.
  destruct (decide (person = key)) as [->|Hne].
  - rewrite (Hkey row observed Hrow Hobs).
    unfold trait_set_for.
    destruct t; [apply bool_decide_eq_true | apply bool_decide_eq_false];
      set_solver.
  - rewrite <- (observed_true_consistent people person row observed Hrow Hobs).
    apply bool_decide_ext. unfold trait_set_for. destruct t; set_solver.
Qed.

(** For every gene count, and every trait value the evidence allows, the
    run processes a configuration that assigns them to [key]. *)
Lemma calls_of_assigning people key g t :
  is_Some (people !! key) → (g = 0 ∨ g = 1 ∨ g = 2)%nat →
  (∀ row observed, people !! key = Some row → trait row = Some observed →
                   observed = t) →
  ∃ c, c ∈ calls_of people
     ∧ assigned_gene (call_one_gene c) (call_two_genes c) key = g
     ∧ bool_decide (key ∈ call_have_trait c) = t.
Proof.
  intros Hkey%elem_of_dom Hg Hev.
  set (og := if decide (g = 1%nat) then {[key]} else ∅ : gset string).
  set (tg := if decide (g = 2%nat) then {[key]} else ∅ : gset string).
  exists {| call_one_gene := og; call_two_genes := tg;
            call_have_trait := trait_set_for people key t;
            call_p := joint people og tg (trait_set_for people key t) |}.
  assert (observed_true people ⊆ dom people) as Hsub.
  { intros person (row & Hrow & _)%observed_true_spec.
    apply elem_of_dom. eauto. }
  split_and!.
  - apply elem_of_calls_of. simpl. split_and!.
    + unfold trait_set_for. destruct t; set_solver.
    + by apply trait_set_for_consistent.
    + unfold og. case_decide; set_solver.
    + unfold og, tg. repeat case_decide; [lia|set_solver..].
    + done.
  - simpl. unfold assigned_gene, og, tg.
    destruct Hg as [->|[->| ->]]; simpl; repeat case_decide; set_solver.
  - simpl. unfold trait_set_for.
    destruct t; [apply bool_decide_eq_true | apply bool_decide_eq_false];
      set_solver.
Qed.

Lemma below_weight d1 d2 g t :
  below d1 d2 →
  gene_weight d1 g ≤ gene_weight d2 g ∧ trait_weight d1 t ≤ trait_weight d2 t.
Proof.
  intros (?&?&?&?&?). by destruct g as [|[|g]], t.
Qed.

Lemma bump_weight g t p :
  (g = 0 ∨ g = 1 ∨ g = 2)%nat →
  gene_weight (bump g t p zero_distribution) g = p
  ∧ trait_weight (bump g t p zero_distribution) t = p.
Proof.
  intros [->|[->| ->]]; destruct t; simpl; split; apply Qcplus_0_l.
Qed.

Lemma accumulated_weight_pos people key g t :
  is_Some (people !! key) → (g = 0 ∨ g = 1 ∨ g = 2)%nat →
  (∀ row observed, people !! key = Some row → trait row = Some observed →
                   observed = t) →
  0 < gene_weight (tally key zero_distribution (calls_of people)) g
  ∧ 0 < trait_weight (tally key zero_distribution (calls_of people)) t.
Proof.
  intros Hkey Hg Hev.
  destruct (calls_of_assigning people key g t Hkey Hg Hev)
    as (c & Hc & Hgene & Htrait).
  pose proof (tally_below_call key zero_distribution (calls_of people) c
                (calls_of_nonneg people) Hc) as Hbelow.
  apply (below_weight _ _ g t) in Hbelow as [Hbg Hbt].
  rewrite apply_call_bump, Hgene, Htrait in Hbg, Hbt.
  destruct (bump_weight g t (call_p c) Hg) as [Hwg Hwt].
  rewrite Hwg in Hbg. rewrite Hwt in Hbt.
  assert (0 < call_p c) as Hp.
  { apply elem_of_calls_of in Hc as (_ & _ & _ & _ & ->). apply joint_pos. }
  split; by eapply Qclt_le_trans.
Qed.

Lemma Qcdiv_pos (x y : Qc) : 0 < x → 0 < y → 0 < x / y.
Proof. intros Hx Hy. apply Qcmult_pos_pos; [done|]. by apply Qcinv_pos. Qed.

Lemma Qcdiv_nonneg (x y : Qc) : 0 ≤ x → 0 < y → 0 ≤ x / y.
Proof.
  intros Hx Hy. apply Qcmult_nonneg_nonneg; [done|].
  by apply Qclt_le_weak, Qcinv_pos.
Qed.

Lemma Qcdiv_le_1 (x y : Qc) : x ≤ y → 0 < y → x / y ≤ 1.
Proof.
  intros Hxy Hy. rewrite <- (Qcmult_inv_r y) by (by apply not_eq_sym, Qclt_not_eq).
  apply Qcmult_le_mono_nonneg_r; [|done]. by apply Qclt_le_weak, Qcinv_pos.
Qed.

Lemma Qcdiv_lt_1 (x y : Qc) : x < y → 0 < y → x / y < 1.
Proof.
  intros Hxy Hy. rewrite <- (Qcmult_inv_r y) by (by apply not_eq_sym, Qclt_not_eq).
  apply Qcmult_lt_mono_pos_r; [|done]. by apply Qcinv_pos.
Qed.

Lemma trait_true_tally key d calls :
  Forall (λ c, key ∉ call_have_trait c) calls →
  trait_true (tally key d calls) = trait_true d.
Proof.
  intros Hall. revert d.
  induction Hall as [|c calls Hc _ IH]; intros d; simpl; [done|].
  rewrite IH. unfold apply_call, update_person.
  rewrite (decide_False _ _ Hc). simpl. by repeat case_decide.
Qed.

(** The accumulators of a person of the population when the loop ends. *)
Lemma accumulated_facts people key :
  is_Some (people !! key) →
  let acc := tally key zero_distribution (calls_of people) in
  let W := total (calls_of people) in
  0 < W ∧ gene_count acc = W ∧ trait_count acc = W
  ∧ 0 < gene2 acc ∧ 0 < gene1 acc ∧ 0 < gene0 acc
  ∧ 0 ≤ trait_true acc ∧ 0 ≤ trait_false acc.
Proof.
  intros Hkey acc W.
  set (t := match people !! key ≫= trait with Some b => b | None => false end).
  assert (∀ row observed, people !! key = Some row →
            trait row = Some observed → observed = t) as Hev.
  { intros row observed Hrow Hobs. unfold t. by rewrite Hrow; simpl; rewrite Hobs. }
  destruct (accumulated_weight_pos people key 0 t Hkey) as [H0 _]; [auto|done|].
  destruct (accumulated_weight_pos people key 1 t Hkey) as [H1 _]; [auto|done|].
  destruct (accumulated_weight_pos people key 2 t Hkey) as [H2 _]; [auto|done|].
  destruct (tally_below key zero_distribution (calls_of people)
              (calls_of_nonneg people)) as (_ & _ & _ & Htt & Htf).
  split_and!; try done.
  - apply total_calls_of_pos.
  - unfold acc. rewrite gene_count_tally. apply Qcplus_0_l.
  - unfold acc. rewrite trait_count_tally. apply Qcplus_0_l.
Qed.

(** ** Properties of the run *)

(** X1: [joint_probability] raises [KeyError] exactly on an ill-formed
    population. *)
Theorem joint_probability_KeyError people one_gene two_genes have_trait :
  (joint_probability people one_gene two_genes have_trait = Raise KeyError
   ↔ well_formed people = false)
  ∧ ((∃ p, joint_probability people one_gene two_genes have_trait = Ok p)
     ↔ well_formed people = true)
  ∧ (well_formed people = false
     ↔ ∃ key row, people !! key = Some row
         ∧ ¬ (mother row = None ∧ father row = None)
         ∧ ¬ (∃ m f, mother row = Some m ∧ father row = Some f
                   ∧ is_Some (people !! m) ∧ is_Some (people !! f))).
Proof.
  split_and!.
  - split; [|apply joint_probability_Raise].
    destruct (well_formed people) eqn:Hwf; [|done].
    by rewrite joint_probability_Ok.
  - split.
    + intros [p Hp]. destruct (well_formed people) eqn:Hwf; [done|].
      by rewrite joint_probability_Raise in Hp.
    + intros Hwf. rewrite joint_probability_Ok by done. eauto.
  - split.
    + intros (key & row & Hrow & Hbad)%well_formed_false.
      exists key, row. split; [done|]. unfold parents_resolve in Hbad.
      split.
      * intros [Hm Hf]. by rewrite Hm, Hf in Hbad.
      * intros (m & f & Hm & Hf & Hmrow & Hfrow). rewrite Hm, Hf in Hbad.
        apply andb_false_iff in Hbad as [Hbad|Hbad];
          apply bool_decide_eq_false in Hbad; destruct Hbad;
          by apply elem_of_dom.
    + intros (key & row & Hrow & Hnone & Hboth).
      destruct (well_formed people) eqn:Hwf; [|done].
      destruct (parents_resolve_cases people row); [|done..].
      by eapply well_formed_lookup.
Qed.

Lemma joint_probability_KeyError_witness :
  joint_probability family_missing_parents ∅ ∅ ∅ = Raise KeyError
  ∧ ∃ p, joint_probability family0 ∅ ∅ ∅ = Ok p.
Proof.
  split.
  - by apply (joint_probability_KeyError family_missing_parents ∅ ∅ ∅).
  - by apply (joint_probability_KeyError family0 ∅ ∅ ∅).
Defined.

(** X2: on a well-formed population [joint_probability] returns a number
    that is strictly positive and at most 1. *)
Theorem joint_probability_range people one_gene two_genes have_trait :
  well_formed people = true →
  ∃ p, joint_probability people one_gene two_genes have_trait = Ok p
     ∧ 0 < p ∧ p ≤ 1.
Proof.
  intros Hwf. exists (joint people one_gene two_genes have_trait).
  split_and!;
    [by apply joint_probability_Ok | apply joint_pos | apply joint_le_1].
Qed.

Lemma joint_probability_range_witness :
  ∃ p, joint_probability family0 {["Harry"]} {["James"]} {["James"]} = Ok p
     ∧ 0 < p ∧ p ≤ 1.
Proof.
  exact (joint_probability_range family0 {["Harry"]} {["James"]} {["James"]}
           eq_refl).
Defined.

(** X3: [main] returns the posteriors exactly on a well-formed population,
    the empty one included; on an ill-formed one it raises [KeyError]; it
    never raises [ZeroDivisionError]. *)
Theorem main_KeyError people :
  ((∃ res, main people = Ok res) ↔ well_formed people = true)
  ∧ (main people = Raise KeyError ↔ well_formed people = false)
  ∧ main people ≠ Raise ZeroDivisionError
  ∧ main ∅ = Ok ∅.
Proof.
  destruct (well_formed people) eqn:Hwf.
  - pose proof (main_Ok people Hwf) as Hmain. rewrite Hmain.
    split_and!; [split; eauto | done | done | reflexivity].
  - pose proof (main_Raise people Hwf) as Hmain. rewrite Hmain.
    split_and!; [|done|done|reflexivity]. split; [by intros [??]|done].
Qed.

Lemma main_KeyError_witness :
  main family_missing_parents = Raise KeyError ∧ ∃ res, main family0 = Ok res.
Proof.
  split.
  - by apply (main_KeyError family_missing_parents).
  - by apply (main_KeyError family0).
Defined.

(** X4: over exact arithmetic (the weights as exact rationals), on a
    well-formed population [main] returns one posterior for each person and
    for nobody else; the gene weights and the trait weights each sum to 1,
    every gene count has a weight strictly between 0 and 1, and the trait
    weights lie between 0 and 1.  The statement is not made for
    binary64, where rounding changes the last digits. *)
Theorem main_posteriors people :
  well_formed people = true →
  ∃ res, main people = Ok res ∧ dom res = dom people
    ∧ ∀ key d, res !! key = Some d →
        gene2 d + gene1 d + gene0 d = 1
        ∧ trait_true d + trait_false d = 1
        ∧ (0 < gene2 d ∧ gene2 d < 1)
        ∧ (0 < gene1 d ∧ gene1 d < 1)
        ∧ (0 < gene0 d ∧ gene0 d < 1)
        ∧ (0 ≤ trait_true d ∧ trait_true d ≤ 1)
        ∧ (0 ≤ trait_false d ∧ trait_false d ≤ 1).
Proof.
  intros Hwf. eexists. split; [by apply main_Ok|]. split.
  { unfold zero_accumulators. by rewrite dom_fmap_L, dom_replay, dom_fmap_L. }
  intros key d Hd. rewrite lookup_fmap, lookup_replay in Hd.
  rewrite lookup_zero_accumulators in Hd.
  destruct (people !! key) as [row|] eqn:Hrow; [|done].
  simpl in Hd. injection Hd as <-.
  destruct (accumulated_facts people key) as
    (HW & Hg & Ht & H2 & H1 & H0 & Htt & Htf); [by eexists|].
  set (acc := tally key zero_distribution (calls_of people)) in *.
  set (W := total (calls_of people)) in *.
  assert (gene2 acc + gene1 acc + gene0 acc = W) as Hgs
    by (rewrite <- Hg; unfold gene_count; ring).
  assert (trait_true acc + trait_false acc = W) as Hts
    by (rewrite <- Ht; unfold trait_count; ring).
  assert (W ≠ 0) as HW0 by (by apply not_eq_sym, Qclt_not_eq).
  unfold normalized. cbn [gene2 gene1 gene0 trait_true trait_false].
  rewrite Hg, Ht. split_and!.
  - replace (gene2 acc / W + gene1 acc / W + gene0 acc / W)
      with ((gene2 acc + gene1 acc + gene0 acc) / W) by (by field).
    rewrite Hgs. by field.
  - replace (trait_true acc / W + trait_false acc / W)
      with ((trait_true acc + trait_false acc) / W) by (by field).
    rewrite Hts. by field.
  - by apply Qcdiv_pos.
  - apply Qcdiv_lt_1; [|done]. rewrite <- Hgs.
    rewrite <- Qcplus_assoc. rewrite <- (Qcplus_0_r (gene2 acc)) at 1.
    apply Qcplus_lt_mono_l. by apply Qcplus_pos_pos.
  - by apply Qcdiv_pos.
  - apply Qcdiv_lt_1; [|done]. rewrite <- Hgs.
    replace (gene2 acc + gene1 acc + gene0 acc)
      with (gene1 acc + (gene2 acc + gene0 acc)) by ring.
    apply Qclt_plus_pos. by apply Qcplus_pos_pos.
  - by apply Qcdiv_pos.
  - apply Qcdiv_lt_1; [|done]. rewrite <- Hgs.
    replace (gene2 acc + gene1 acc + gene0 acc)
      with (gene0 acc + (gene2 acc + gene1 acc)) by ring.
    apply Qclt_plus_pos. by apply Qcplus_pos_pos.
  - by apply Qcdiv_nonneg.
  - apply Qcdiv_le_1; [|done]. rewrite <- Hts. by apply Qcle_plus_nonneg.
  - by apply Qcdiv_nonneg.
  - apply Qcdiv_le_1; [|done]. rewrite <- Hts.
    rewrite Qcplus_comm. by apply Qcle_plus_nonneg.
Qed.

Lemma main_posteriors_witness :
  ∃ res, main family0 = Ok res ∧ dom res = dom family0.
Proof.
  destruct (main_posteriors family0 eq_refl) as (res & Hmain & Hdom & _).
  exists res. exact (conj Hmain Hdom).
Defined.

(** X5: the posterior trait distribution follows the evidence: a person
    observed without the trait gets 0 for true and 1 for false, and a person
    whose trait is not observed gets two weights strictly between 0 and 1. *)
Theorem trait_posterior_by_evidence people person row :
  well_formed people = true → people !! person = Some row →
  ∃ res d,
    main people = Ok res ∧ res !! person = Some d
    ∧ (trait row = Some false → trait_true d = 0 ∧ trait_false d = 1)
    ∧ (trait row = None →
       (0 < trait_true d ∧ trait_true d < 1)
       ∧ (0 < trait_false d ∧ trait_false d < 1)).
Proof.
  intros Hwf Hrow.
  destruct (lookup_main people person Hwf) as (res & Hmain & Hres); [done|].
  exists res, (normalized (tally person zero_distribution (calls_of people))).
  split_and!; [done..| |].
  - intros Hobs.
    destruct (accumulated_facts people person) as (HW & _ & Ht & _);
      [by eexists|].
    set (acc := tally person zero_distribution (calls_of people)) in *.
    assert (trait_true acc = 0) as Htrue.
    { unfold acc. rewrite trait_true_tally; [done|].
      apply Forall_forall. intros c (_ & Hev & _)%elem_of_calls_of.
      by apply (bool_decide_eq_false _), (Hev person row false). }
    assert (trait_count acc = trait_false acc) as Htf
      by (unfold trait_count; rewrite Htrue; ring).
    unfold normalized. cbn [trait_true trait_false].
    rewrite Htrue, <- Htf, Ht. split.
    + apply Qcmult_0_l.
    + field. by apply not_eq_sym, Qclt_not_eq.
  - intros Hobs.
    destruct (accumulated_facts people person) as (HW & _ & Ht & _);
      [by eexists|].
    destruct (accumulated_weight_pos people person 0 true) as [_ Htrue];
      [by eexists | auto | congruence |].
    destruct (accumulated_weight_pos people person 0 false) as [_ Hfalse];
      [by eexists | auto | congruence |].
    set (acc := tally person zero_distribution (calls_of people)) in *.
    cbn [trait_weight] in Htrue, Hfalse.
    assert (trait_true acc + trait_false acc = total (calls_of people)) as Hts
      by (rewrite <- Ht; unfold trait_count; ring).
    unfold normalized. cbn [trait_true trait_false]. rewrite Ht.
    split_and!.
    + by apply Qcdiv_pos.
    + apply Qcdiv_lt_1; [|done]. rewrite <- Hts. by apply Qclt_plus_pos.
    + by apply Qcdiv_pos.
    + apply Qcdiv_lt_1; [|done]. rewrite <- Hts, Qcplus_comm.
      by apply Qclt_plus_pos.
Qed.

Lemma trait_posterior_by_evidence_witness :
  ∃ res d, main family0 = Ok res ∧ res !! "Lily" = Some d
         ∧ trait_true d = 0 ∧ trait_false d = 1.
Proof.
  destruct (trait_posterior_by_evidence family0 "Lily"
              (orphan "Lily" (Some false)) eq_refl eq_refl)
    as (res & d & Hmain & Hres & Hfalse & _).
  exists res, d. exact (conj Hmain (conj Hres (Hfalse eq_refl))).
Defined.

(** X6: pruning, over exact arithmetic (the weights as exact rationals).
    Removing from a well-formed population a person who is nobody's parent
    and whose trait is not observed leaves the posteriors of all the others
    unchanged.  The statement is not made for binary64, where the two runs
    add different numbers and rounding changes the last digits. *)
Theorem main_remove_childless people x row :
  well_formed people = true →
  people !! x = Some row → childless people x → trait row = None →
  ∃ res, main people = Ok res ∧ main (delete x people) = Ok (delete x res).
Proof.
  intros Hwf Hrow Hleaf Hunobserved.
  eexists. split; [by apply main_Ok|].
  rewrite main_Ok by (by eapply well_formed_remove).
  f_equal. apply map_eq. intros key.
  rewrite lookup_fmap, lookup_replay, lookup_zero_accumulators.
  destruct (decide (key = x)) as [->|Hne].
  - by rewrite !lookup_delete_eq.
  - rewrite !lookup_delete_ne by done.
    rewrite lookup_fmap, lookup_replay, lookup_zero_accumulators.
    destruct (people !! key) as [row'|]; [|done]. simpl.
    by rewrite (tally_remove people x row Hrow Hleaf Hunobserved key).
Qed.

Lemma main_remove_childless_witness :
  ∃ res, main family_no_evidence_below = Ok res
       ∧ main (delete "Harry" family_no_evidence_below)
         = Ok (delete "Harry" res).
Proof.
  refine (main_remove_childless family_no_evidence_below "Harry"
            (child "Harry" "Lily" "James" None) eq_refl eq_refl _ eq_refl).
  intros c row' [[-> ->]|[[-> ->]|[-> ->]]]%family_no_evidence_below_rows;
    by split.
Defined.

Lemma String_ne c (x : string) : String c x ≠ x.
Proof.
  revert c. induction x as [|c' x IH]; intros c; [done|].
  intros [= -> Heq]. by apply (IH c').
Qed.

Lemma total_remove people x row :
  people !! x = Some row → childless people x → trait row = None →
  total (calls_of people) = total (calls_of (delete x people)).
Proof.
  intros Hrow Hleaf Hunobserved.
  assert (("a" +:+ x) ≠ x) as Hne by apply String_ne.
  pose proof (gene_count_tally (("a" +:+ x)) zero_distribution
                (calls_of people)) as H1.
  pose proof (gene_count_tally (("a" +:+ x)) zero_distribution
                (calls_of (delete x people))) as H2.
  rewrite (tally_remove people x row Hrow Hleaf Hunobserved) in H1 by done.
  rewrite H2 in H1. symmetry.
  by eapply (inj (Qcplus (gene_count zero_distribution))).
Qed.

Lemma total_calls_of_empty : total (calls_of ∅) = 1.
Proof. by apply Qc_is_canon. Qed.

Lemma total_unobserved people :
  acyclic people →
  (∀ key row, people !! key = Some row → trait row = None) →
  total (calls_of people) = 1.
Proof.
  induction 1 as [|people x [row Hrow] Hleaf _ IH]; intros Hnone.
  - apply total_calls_of_empty.
  - rewrite (total_remove people x row Hrow Hleaf) by by eapply Hnone.
    apply IH. intros key row' [_ Hkey]%lookup_delete_Some. by eapply Hnone.
Qed.

Lemma normalized_id d :
  gene_count d = 1 → trait_count d = 1 → normalized d = d.
Proof.
  intros Hg Ht. unfold normalized. rewrite Hg, Ht.
  apply distribution_eq; simpl; by field.
Qed.

(** X7: over exact arithmetic (the weights as exact rationals), when
    nobody's trait is observed and the pedigree is acyclic, the joint
    probabilities of the configurations enumerated by [main] sum to exactly
    1: the accumulated distributions are already the posteriors, and
    normalising them changes nothing.  The statement is not made for
    binary64: [accumulated_sums_differ] shows a sum that is not 1. *)
Theorem joint_probabilities_sum_to_one people :
  well_formed people = true → acyclic people →
  (∀ key row, people !! key = Some row → trait row = None) →
  total (calls_of people) = 1
  ∧ ∃ res, accumulate people = Ok res ∧ main people = Ok res.
Proof.
  intros Hwf Hacyclic Hnone.
  pose proof (total_unobserved people Hacyclic Hnone) as Htotal.
  split; [done|]. eexists. split; [by apply accumulate_Ok|].
  rewrite main_Ok by done. f_equal. apply map_eq. intros key.
  rewrite lookup_fmap, lookup_replay, lookup_zero_accumulators.
  destruct (people !! key) as [row|]; [|done]. simpl. f_equal.
  apply normalized_id.
  - rewrite gene_count_tally, Htotal. by apply Qc_is_canon.
  - rewrite trait_count_tally, Htotal. by apply Qc_is_canon.
Qed.

Lemma family_unobserved_rows c row :
  family_unobserved !! c = Some row →
  (c = "Harry" ∧ row = child "Harry" "Lily" "James" None)
  ∨ (c = "James" ∧ row = orphan "James" None)
  ∨ (c = "Lily" ∧ row = orphan "Lily" None).
Proof.
  unfold family_unobserved.
  intros [[<- <-]|[_ [[<- <-]|[_ [<- <-]%lookup_singleton_Some]]
    %lookup_insert_Some]]%lookup_insert_Some; auto.
Qed.

Lemma family_unobserved_acyclic : acyclic family_unobserved.
Proof.
  apply (acyclic_remove _ "Harry"); [by eexists| |].
  { intros c row [[-> ->]|[[-> ->]|[-> ->]]]%family_unobserved_rows;
      by split. }
  apply (acyclic_remove _ "James"); [by eexists| |].
  { intros c row [Hne [[-> ->]|[[-> ->]|[-> ->]]]%family_unobserved_rows]
      %lookup_delete_Some; try done; by split. }
  apply (acyclic_remove _ "Lily"); [by eexists| |].
  { intros c row [_ [Hne [[-> ->]|[[-> ->]|[-> ->]]]%family_unobserved_rows]
      %lookup_delete_Some]%lookup_delete_Some; try done; by split. }
  replace (delete "Lily" (delete "James" (delete "Harry" family_unobserved)))
    with (∅ : gmap string Person) by reflexivity.
  constructor.
Qed.

Lemma joint_probabilities_sum_to_one_witness :
  total (calls_of family_unobserved) = 1
  ∧ ∃ res, accumulate family_unobserved = Ok res
         ∧ main family_unobserved = Ok res.
Proof.
  apply (joint_probabilities_sum_to_one family_unobserved eq_refl
           family_unobserved_acyclic).
  intros key row [[-> ->]|[[-> ->]|[-> ->]]]%family_unobserved_rows;
    reflexivity.
Defined.

(** X8: on a well-formed population the loop of [main] calls [update]
    exactly once for each configuration (one_gene, two_genes, have_trait)
    of subsets of the population with two_genes disjoint from one_gene and
    have_trait in agreement with every observation, with that
    configuration's joint probability, and for nothing else. *)
Theorem accumulate_enumeration people :
  well_formed people = true →
  accumulate people = Ok (replay (zero_accumulators people) (calls_of people))
  ∧ NoDup (calls_of people)
  ∧ ∀ c, c ∈ calls_of people ↔
      call_one_gene c ⊆ dom people ∧ call_two_genes c ⊆ dom people
      ∧ call_one_gene c ## call_two_genes c
      ∧ call_have_trait c ⊆ dom people
      ∧ consistent people (call_have_trait c)
      ∧ joint_probability people (call_one_gene c) (call_two_genes c)
          (call_have_trait c) = Ok (call_p c).
Proof.
  intros Hwf. split_and!;
    [by apply accumulate_Ok | apply NoDup_calls_of |].
  intros c. rewrite elem_of_calls_of, joint_probability_Ok by done. split.
  - intros (? & ? & ? & ? & ->). split_and!; [done| | |done..]; set_solver.
  - intros (? & ? & ? & ? & ? & [= ->]). split_and!; [done..| |done].
    set_solver.
Qed.

Lemma accumulate_enumeration_witness :
  accumulate family0
  = Ok (replay (zero_accumulators family0) (calls_of family0))
  ∧ NoDup (calls_of family0).
Proof.
  destruct (accumulate_enumeration family0 eq_refl) as (Hacc & Hnodup & _).
  exact (conj Hacc Hnodup).
Defined.

(** ** [powerset]: counting *)

Lemma powerset_empty : powerset ∅ = [∅].
Proof. unfold powerset. by rewrite elements_empty. Qed.

Lemma powerset_insert (s : gset string) (x : string) :
  x ∉ s →
  powerset ({[x]} ∪ s) ≡ₚ powerset s ++ (({[x]} ∪.) <$> powerset s).
Proof.
  intros Hx. apply NoDup_Permutation; [apply NoDup_powerset| |].
  - apply NoDup_app. split_and!; [apply NoDup_powerset| |].
    + intros X HX%elem_of_powerset (Y & -> & _)%list_elem_of_fmap.
      set_solver.
    + apply NoDup_fmap_2_strong; [|apply NoDup_powerset].
      intros X Y HX%elem_of_powerset HY%elem_of_powerset. set_solver.
  - intros X. rewrite elem_of_app, list_elem_of_fmap, !elem_of_powerset.
    setoid_rewrite elem_of_powerset. split.
    + intros HX. destruct (decide (x ∈ X)) as [Hin|Hout].
      * right. exists (X ∖ {[x]}).
        split; [by apply union_difference_singleton_L | set_solver].
      * left. set_solver.
    + intros [HX|(Y & -> & HY)]; set_solver.
Qed.

Lemma length_powerset (s : gset string) : length (powerset s) = (2 ^ size s)%nat.
Proof.
  induction s as [|x s Hx IH] using set_ind_L.
  - by rewrite powerset_empty, size_empty.
  - rewrite (powerset_insert s x Hx), length_app, length_fmap, IH.
    rewrite size_union, size_singleton by set_solver. simpl. lia.
Qed.

(** X9: [powerset] returns every subset of its argument exactly once, so
    [2 ^ n] sets for [n] elements, the empty set first. *)
Theorem powerset_subsets (s : gset string) :
  NoDup (powerset s)
  ∧ (∀ X, X ∈ powerset s ↔ X ⊆ s)
  ∧ length (powerset s) = (2 ^ size s)%nat
  ∧ head (powerset s) = Some ∅.
Proof.
  split_and!;
    [apply NoDup_powerset | apply elem_of_powerset | apply length_powerset |].
  unfold powerset. rewrite Nat.add_1_r. by destruct (elements s).
Qed.

(** ** The number of configurations *)

Lemma unobserved_spec people person :
  person ∈ unobserved people
  ↔ ∃ row, people !! person = Some row ∧ trait row = None.
Proof.
  unfold unobserved. rewrite elem_of_dom. unfold is_Some.
  setoid_rewrite map_lookup_filter_Some. naive_solver.
Qed.

Lemma length_bind_sum {A B} (l : list A) (f : A → list B) :
  length (l ≫= f) = sum_list_with (λ x, length (f x)) l.
Proof.
  induction l as [|x l IH]; [done|].
  change ((x :: l) ≫= f) with (f x ++ (l ≫= f)).
  rewrite length_app, IH. done.
Qed.

Lemma sum_list_with_fmap' {A B} (f : B → nat) (g : A → B) (l : list A) :
  sum_list_with f (g <$> l) = sum_list_with (f ∘ g) l.
Proof.
  induction l as [|x l IH]; [done|].
  rewrite fmap_cons. cbn [sum_list_with]. by rewrite IH.
Qed.

Lemma sum_list_with_ext' {A} (f g : A → nat) (l : list A) :
  (∀ x, x ∈ l → f x = g x) → sum_list_with f l = sum_list_with g l.
Proof.
  induction l as [|x l IH]; intros Hfg; simpl; [done|].
  rewrite Hfg, IH; [done| |by left]. intros y Hy. apply Hfg. by right.
Qed.

Lemma sum_list_with_const' {A} (k : nat) (l : list A) :
  sum_list_with (λ _, k) l = (k * length l)%nat.
Proof. induction l as [|x l IH]; simpl; lia. Qed.

Lemma sum_list_with_filter_bool {A} (b : A → bool) (k : nat) (l : list A) :
  sum_list_with (λ x, if b x then 0%nat else k) l
  = (k * length (filter (λ x, b x = false) l))%nat.
Proof.
  induction l as [|x l IH]; simpl; [lia|]. rewrite IH, filter_cons.
  destruct (b x); case_decide; simpl; try done; lia.
Qed.

Lemma sum_powerset_pow (N s : gset string) :
  s ⊆ N →
  sum_list_with (λ og, 2 ^ size (N ∖ og))%nat (powerset s)
  = (3 ^ size s * 2 ^ size (N ∖ s))%nat.
Proof.
  revert N. induction s as [|x s Hx IH] using set_ind_L; intros N Hsub.
  - rewrite powerset_empty, size_empty. simpl. lia.
  - rewrite (powerset_insert s x Hx), sum_list_with_app, sum_list_with_fmap'.
    rewrite IH by set_solver.
    rewrite (sum_list_with_ext' _ (λ og, 2 ^ size ((N ∖ {[x]}) ∖ og))%nat).
    2:{ intros Y _. simpl. f_equal. f_equal. set_solver. }
    rewrite IH by set_solver.
    assert (N ∖ s = {[x]} ∪ N ∖ ({[x]} ∪ s)) as ->.
    { apply set_eq. intros y. destruct (decide (y = x)); set_solver. }
    assert (N ∖ {[x]} ∖ s = N ∖ ({[x]} ∪ s)) as -> by set_solver.
    rewrite (size_union {[x]} s) by set_solver.
    rewrite (size_union {[x]} (N ∖ _)) by set_solver.
    rewrite size_singleton. simpl. lia.
Qed.

Lemma length_gene_calls people have_trait :
  length (gene_calls people have_trait) = (3 ^ size (dom people))%nat.
Proof.
  unfold gene_calls. rewrite length_bind_sum.
  rewrite (sum_list_with_ext' _ (λ og, 2 ^ size (dom people ∖ og))%nat).
  - rewrite sum_powerset_pow by done.
    replace (dom people ∖ dom people) with (∅ : gset string) by set_solver.
    rewrite size_empty. simpl. lia.
  - intros og _. rewrite length_bind_sum.
    rewrite (sum_list_with_const' 1). rewrite length_powerset. lia.
Qed.

Lemma consistent_sets people :
  filter (λ ht, fails_evidence people (dom people) ht = false)
    (powerset (dom people))
  ≡ₚ (observed_true people ∪.) <$> powerset (unobserved people).
Proof.
  assert (∀ p, p ∈ observed_true people → p ∉ unobserved people) as Hdisj.
  { intros p (r1 & H1 & Ht1)%observed_true_spec (r2 & H2 & Ht2)%unobserved_spec.
    congruence. }
  apply NoDup_Permutation.
  - refine (NoDup_filter _ _ _). apply NoDup_powerset.
  - apply NoDup_fmap_2_strong; [|apply NoDup_powerset].
    intros X Y HX%elem_of_powerset HY%elem_of_powerset Heq.
    apply set_eq. intros p. split; intros Hp.
    + assert (p ∈ observed_true people ∪ Y) as [Hin|Hin]%elem_of_union
        by (rewrite <- Heq; set_solver); [|done].
      destruct (Hdisj p Hin). by apply HX.
    + assert (p ∈ observed_true people ∪ X) as [Hin|Hin]%elem_of_union
        by (rewrite Heq; set_solver); [|done].
      destruct (Hdisj p Hin). by apply HY.
  - intros X. rewrite list_elem_of_filter, fails_evidence_false.
    rewrite elem_of_powerset, list_elem_of_fmap.
    setoid_rewrite elem_of_powerset. split.
    + intros [Hev HX]. exists (X ∩ unobserved people). split; [|set_solver].
      apply set_eq. intros p. rewrite elem_of_union, elem_of_intersection.
      split.
      * intros Hp. assert (p ∈ dom people) as [row Hrow]%elem_of_dom
          by by apply HX.
        destruct (trait row) as [[]|] eqn:Hobs.
        -- left. apply observed_true_spec. eauto.
        -- pose proof (Hev p row false Hrow Hobs) as Hf.
           by apply bool_decide_eq_false in Hf.
        -- right. split; [done|]. apply unobserved_spec. eauto.
      * intros [(row & Hrow & Hobs)%observed_true_spec|[? _]]; [|done].
        by apply (bool_decide_eq_true _), (Hev p row true).
    + intros (Y & -> & HY). split.
      * intros p row observed Hrow Hobs. destruct observed.
        -- apply bool_decide_eq_true, elem_of_union. left.
           apply observed_true_spec. eauto.
        -- apply bool_decide_eq_false.
           intros [(r & Hr & Ht)%observed_true_spec
                  |(r & Hr & Ht)%HY%unobserved_spec]%elem_of_union;
             congruence.
      * intros p [(r & Hr & _)%observed_true_spec
                 |(r & Hr & _)%HY%unobserved_spec]%elem_of_union;
          apply elem_of_dom; eauto.
Qed.

Lemma length_calls_of people :
  length (calls_of people)
  = (3 ^ size (dom people) * 2 ^ size (unobserved people))%nat.
Proof.
  unfold calls_of. rewrite length_bind_sum.
  rewrite (sum_list_with_ext' _
    (λ ht, if fails_evidence people (dom people) ht then 0
           else 3 ^ size (dom people))%nat).
  - rewrite sum_list_with_filter_bool, consistent_sets, length_fmap.
    by rewrite length_powerset.
  - intros ht _. destruct (fails_evidence people (dom people) ht); [done|].
    apply length_gene_calls.
Qed.

(** X10: the cost of a run.  On a well-formed population of [n] people of
    whom [u] have no observed trait, the loop of [main] computes a joint
    probability and calls [update] exactly [3 ^ n * 2 ^ u] times. *)
Theorem accumulate_cost people :
  well_formed people = true →
  accumulate people = Ok (replay (zero_accumulators people) (calls_of people))
  ∧ length (calls_of people)
    = (3 ^ size people * 2 ^ size (unobserved people))%nat.
Proof.
  intros Hwf. split; [by apply accumulate_Ok|].
  by rewrite length_calls_of, size_dom.
Qed.

Lemma accumulate_cost_witness :
  length (calls_of family0) = 54%nat.
Proof.
  rewrite (proj2 (accumulate_cost family0 eq_refl)). reflexivity.
Defined.

(** ** The factor of one person as a conditional distribution *)

Lemma gene_probability_at_agree og1 tg1 og2 tg2 key row g :
  mother row ≠ Some key → father row ≠ Some key →
  og1 ∖ {[key]} = og2 ∖ {[key]} → tg1 ∖ {[key]} = tg2 ∖ {[key]} →
  gene_probability_at og1 tg1 row g = gene_probability_at og2 tg2 row g.
Proof.
  intros Hm Hf Hog Htg. unfold gene_probability_at.
  destruct (mother row) as [m|], (father row) as [f|]; try done.
  rewrite (assigned_gene_agree og1 tg1 og2 tg2 m),
    (assigned_gene_agree og1 tg1 og2 tg2 f); [done|set_solver..].
Qed.

(** X11: over exact arithmetic (the probabilities as exact rationals), the
    factors of one person form a probability distribution.  For a person
    with resolvable parents who is not their own parent, and any assignment
    to the others, the six factors that [joint_probability] computes for the
    person's gene counts 0, 1, 2 and trait values false, true sum to
    exactly 1.  The statement is not made for binary64, where rounding
    changes the last digits. *)
Theorem person_probabilities_sum_to_one people og tg ht key row :
  people !! key = Some row → parents_resolve people row = true →
  mother row ≠ Some key → father row ≠ Some key →
  key ∉ og → key ∉ tg → key ∉ ht →
  ∃ p0f p0t p1f p1t p2f p2t,
    person_probability people (joint_probes_of people og tg ht) key = Ok p0f
    ∧ person_probability people
        (joint_probes_of people og tg ({[key]} ∪ ht)) key = Ok p0t
    ∧ person_probability people
        (joint_probes_of people ({[key]} ∪ og) tg ht) key = Ok p1f
    ∧ person_probability people
        (joint_probes_of people ({[key]} ∪ og) tg ({[key]} ∪ ht)) key = Ok p1t
    ∧ person_probability people
        (joint_probes_of people og ({[key]} ∪ tg) ht) key = Ok p2f
    ∧ person_probability people
        (joint_probes_of people og ({[key]} ∪ tg) ({[key]} ∪ ht)) key = Ok p2t
    ∧ p0f + p0t + p1f + p1t + p2f + p2t = 1.
Proof.
  intros Hrow Hparents Hm Hf Hog Htg Hht.
  assert (∀ og' tg' ht' g t,
    og' ∖ {[key]} = og ∖ {[key]} → tg' ∖ {[key]} = tg ∖ {[key]} →
    assigned_gene og' tg' key = g → bool_decide (key ∈ ht') = t →
    person_probability people (joint_probes_of people og' tg' ht') key
    = Ok (gene_probability_at og tg row g * trait_given_gene g t)) as Hp.
  { intros og' tg' ht' g t Hog' Htg' Hg Ht.
    rewrite (person_probability_Ok _ _ _ _ _ row) by done.
    unfold factor, gene_probability. rewrite Hg, Ht.
    by rewrite (gene_probability_at_agree og' tg' og tg key). }
  assert (bool_decide (key ∈ ht) = false) as Hhtf
    by by apply bool_decide_eq_false.
  assert (bool_decide (key ∈ {[key]} ∪ ht) = true) as Hhtt
    by (apply bool_decide_eq_true; set_solver).
  assert (assigned_gene og tg key = 0%nat) as Hg0
    by (unfold assigned_gene; by rewrite !decide_False).
  assert (assigned_gene ({[key]} ∪ og) tg key = 1%nat) as Hg1
    by (unfold assigned_gene; rewrite decide_True; [done|set_solver]).
  assert (assigned_gene og ({[key]} ∪ tg) key = 2%nat) as Hg2.
  { unfold assigned_gene. rewrite decide_False by done.
    rewrite decide_True; [done|set_solver]. }
  eexists _, _, _, _, _, _. split_and!.
  - by apply Hp.
  - by apply Hp.
  - apply Hp; [set_solver|done..].
  - apply Hp; [set_solver|done..].
  - apply Hp; [set_solver..|done|done].
  - apply Hp; [set_solver..|done|done].
  - pose proof (gene_probability_at_total og tg row) as Hgenes.
    pose proof (trait_given_gene_total 0) as Ht0.
    pose proof (trait_given_gene_total 1) as Ht1.
    pose proof (trait_given_gene_total 2) as Ht2.
    set (g0 := gene_probability_at og tg row 0) in *.
    set (g1 := gene_probability_at og tg row 1) in *.
    set (g2 := gene_probability_at og tg row 2) in *.
    transitivity
      (g0 * (trait_given_gene 0 false + trait_given_gene 0 true)
       + g1 * (trait_given_gene 1 false + trait_given_gene 1 true)
       + g2 * (trait_given_gene 2 false + trait_given_gene 2 true));
      [ring|].
    by rewrite Ht0, Ht1, Ht2, !Qcmult_1_r.
Qed.

Lemma person_probabilities_sum_to_one_witness :
  ∃ p0f p0t p1f p1t p2f p2t,
    person_probability family0 (joint_probes_of family0 ∅ ∅ ∅) "Harry"
    = Ok p0f
    ∧ person_probability family0
        (joint_probes_of family0 ∅ ∅ ({["Harry"]} ∪ ∅)) "Harry" = Ok p0t
    ∧ person_probability family0
        (joint_probes_of family0 ({["Harry"]} ∪ ∅) ∅ ∅) "Harry" = Ok p1f
    ∧ person_probability family0
        (joint_probes_of family0 ({["Harry"]} ∪ ∅) ∅ ({["Harry"]} ∪ ∅))
        "Harry" = Ok p1t
    ∧ person_probability family0
        (joint_probes_of family0 ∅ ({["Harry"]} ∪ ∅) ∅) "Harry" = Ok p2f
    ∧ person_probability family0
        (joint_probes_of family0 ∅ ({["Harry"]} ∪ ∅) ({["Harry"]} ∪ ∅))
        "Harry" = Ok p2t
    ∧ p0f + p0t + p1f + p1t + p2f + p2t = 1.
Proof.
  apply (person_probabilities_sum_to_one family0 ∅ ∅ ∅ "Harry"
           (child "Harry" "Lily" "James" None));
    by vm_compute.
Defined.

(** ** [update]: composition *)

Lemma update_person_bump og tg ht p key d :
  update_person og tg ht p key d
  = bump (assigned_gene og tg key) (bool_decide (key ∈ ht)) p d.
Proof.
  apply (apply_call_bump key d
           {| call_one_gene := og; call_two_genes := tg;
              call_have_trait := ht; call_p := p |}).
Qed.

Lemma bump_zero g t d : bump g t 0 d = d.
Proof.
  unfold bump. apply distribution_eq; simpl; repeat case_decide;
    destruct t; apply Qcplus_0_r.
Qed.

(** X12: over exact arithmetic (the weights as exact rationals), calls of
    [update] for the same configuration add up: two calls with [p] and [q]
    are one call with [p + q], a call with 0 changes nothing, and a call
    with [- p] undoes a call with [p].  The statement is not made
    for binary64, whose addition is not associative. *)
Theorem update_compose probabilities one_gene two_genes have_trait p q :
  update (update probabilities one_gene two_genes have_trait p)
    one_gene two_genes have_trait q
  = update probabilities one_gene two_genes have_trait (p + q)
  ∧ update probabilities one_gene two_genes have_trait 0 = probabilities
  ∧ update (update probabilities one_gene two_genes have_trait p)
      one_gene two_genes have_trait (- p)
    = probabilities.
Proof.
  assert (∀ p q,
    update (update probabilities one_gene two_genes have_trait p)
      one_gene two_genes have_trait q
    = update probabilities one_gene two_genes have_trait (p + q)) as Hadd.
  { intros p' q'. apply map_eq. intros key. rewrite !lookup_update.
    destruct (probabilities !! key) as [d|]; [|done]. simpl. f_equal.
    by rewrite !update_person_bump, bump_bump. }
  assert (update probabilities one_gene two_genes have_trait 0
          = probabilities) as Hzero.
  { apply map_eq. intros key. rewrite lookup_update.
    destruct (probabilities !! key) as [d|]; [|done]. simpl. f_equal.
    by rewrite update_person_bump, bump_zero. }
  split_and!; [apply Hadd | apply Hzero |].
  by rewrite Hadd, Qcplus_opp_r.
Qed.

(** X13: [update] only looks at the people of [probabilities]: it adds
    nobody, names outside [probabilities] in the three sets are ignored,
    and a person in both [one_gene] and [two_genes] is counted in
    [one_gene]. *)
Theorem update_restrict probabilities one_gene two_genes have_trait p :
  dom (update probabilities one_gene two_genes have_trait p)
  = dom probabilities
  ∧ update probabilities one_gene two_genes have_trait p
    = update probabilities (one_gene ∩ dom probabilities)
        ((two_genes ∖ one_gene) ∩ dom probabilities)
        (have_trait ∩ dom probabilities) p.
Proof.
  split; [apply dom_update|].
  apply map_eq. intros key. rewrite !lookup_update.
  destruct (probabilities !! key) as [d|] eqn:Hd; [|done]. simpl. f_equal.
  assert (key ∈ dom probabilities) as Hkey by (apply elem_of_dom; eauto).
  rewrite !update_person_bump. f_equal.
  - unfold assigned_gene. repeat case_decide; set_solver.
  - apply bool_decide_ext. set_solver.
Qed.

(** ** [normalize]: idempotence and scaling *)

Lemma normalize_Ok_inv probabilities res :
  normalize probabilities = Ok res →
  map_Forall (λ _, summable) probabilities
  ∧ res = normalized <$> probabilities.
Proof.
  intros Hnorm.
  destruct (decide (map_Forall (λ _, summable) probabilities)) as [Hall|Hbad].
  - rewrite normalize_Ok in Hnorm by done. by injection Hnorm as <-.
  - by rewrite normalize_Raise in Hnorm.
Qed.

Lemma normalized_summable d : summable d → summable (normalized d).
Proof.
  intros [Hg Ht]. unfold summable.
  by rewrite gene_count_normalized, trait_count_normalized.
Qed.

Lemma normalized_normalized d :
  summable d → normalized (normalized d) = normalized d.
Proof.
  intros [Hg Ht]. apply normalized_id.
  - by apply gene_count_normalized.
  - by apply trait_count_normalized.
Qed.

(** X14: over exact arithmetic (the weights as exact rationals),
    [normalize] is idempotent: normalising what [normalize] returned returns
    it unchanged.  The statement is not made for binary64, where rounding
    changes the last digits. *)
Theorem normalize_idempotent probabilities res :
  normalize probabilities = Ok res → normalize res = Ok res.
Proof.
  intros [Hall ->]%normalize_Ok_inv.
  rewrite normalize_Ok.
  - f_equal. apply map_eq. intros key. rewrite !lookup_fmap.
    destruct (probabilities !! key) as [d|] eqn:Hd; [|done]. simpl.
    f_equal. apply normalized_normalized. by eapply Hall.
  - intros key d'. rewrite lookup_fmap.
    destruct (probabilities !! key) as [d|] eqn:Hd; [|done].
    intros [= <-]. apply normalized_summable. by eapply Hall.
Qed.

Lemma normalize_idempotent_witness :
  ∃ res, normalize {[ "Ann" := {| gene2 := 1; gene1 := 1; gene0 := Q2Qc 2;
                                  trait_true := Q2Qc 3; trait_false := 1 |} ]}
         = Ok res
       ∧ normalize res = Ok res.
Proof.
  assert (map_Forall (λ _, summable)
            ({[ "Ann" := {| gene2 := 1; gene1 := 1; gene0 := Q2Qc 2;
                            trait_true := Q2Qc 3; trait_false := 1 |} ]}
             : gmap string Distribution)) as Hall.
  { intros key d [_ <-]%lookup_singleton_Some. split; by vm_compute. }
  pose proof (normalize_Ok _ Hall) as Hnorm.
  eexists. split; [exact Hnorm|].
  exact (normalize_idempotent _ _ Hnorm).
Defined.

Lemma gene_count_scale k d : gene_count (scale k d) = k * gene_count d.
Proof. unfold gene_count, scale. simpl. ring. Qed.

Lemma trait_count_scale k d : trait_count (scale k d) = k * trait_count d.
Proof. unfold trait_count, scale. simpl. ring. Qed.

Lemma summable_scale k d : k ≠ 0 → summable (scale k d) ↔ summable d.
Proof.
  intros Hk. unfold summable. rewrite gene_count_scale, trait_count_scale.
  split.
  - intros [Hg Ht]. split; intros Hz; [apply Hg | apply Ht];
      rewrite Hz; ring.
  - intros [Hg Ht]. split; intros Hz;
      apply Qcmult_integral in Hz as [?|?]; done.
Qed.

Lemma normalized_scale k d :
  k ≠ 0 → summable d → normalized (scale k d) = normalized d.
Proof.
  intros Hk [Hg Ht]. unfold normalized.
  rewrite gene_count_scale, trait_count_scale.
  apply distribution_eq; simpl; by field.
Qed.

(** X15: over exact arithmetic (the weights as exact rationals),
    [normalize] does not see a common factor: multiplying every accumulated
    weight of every person by the same non-zero number changes neither the
    result nor the exception.  The statement is not made for binary64,
    where rounding changes the last digits and a factor can underflow the
    weights to zero. *)
Theorem normalize_scale k probabilities :
  k ≠ 0 → normalize (scale k <$> probabilities) = normalize probabilities.
Proof.
  intros Hk.
  destruct (decide (map_Forall (λ _, summable) probabilities)) as [Hall|Hbad].
  - rewrite (normalize_Ok probabilities) by done. rewrite normalize_Ok.
    + f_equal. apply map_eq. intros key. rewrite !lookup_fmap.
      destruct (probabilities !! key) as [d|] eqn:Hd; [|done]. simpl.
      f_equal. apply normalized_scale; [done|]. by eapply Hall.
    + intros key d'. rewrite lookup_fmap.
      destruct (probabilities !! key) as [d|] eqn:Hd; [|done].
      intros [= <-]. apply (proj2 (summable_scale k d Hk)). by eapply Hall.
  - rewrite (normalize_Raise probabilities) by done.
    apply normalize_Raise. intros Hall. apply Hbad.
    intros key d Hd. apply (proj1 (summable_scale k d Hk)).
    apply (Hall key). by rewrite lookup_fmap, Hd.
Qed.

Lemma normalize_scale_witness :
  Q2Qc 0.5 ≠ 0
  ∧ ∃ res,
      normalize (replay (zero_accumulators family0) (calls_of family0)) = Ok res
      ∧ normalize (scale (Q2Qc 0.5)
                     <$> replay (zero_accumulators family0) (calls_of family0))
        = Ok res.
Proof.
  assert (Q2Qc 0.5 ≠ 0) as Hk.
  { intros Heq. apply (f_equal this) in Heq. vm_compute in Heq. discriminate. }
  split; [exact Hk|].
  exists (normalized <$> replay (zero_accumulators family0) (calls_of family0)).
  pose proof (normalize_Ok _ (replay_calls_of_summable family0)) as Hnorm.
  split; [exact Hnorm|].
  exact (eq_trans
           (normalize_scale (Q2Qc 0.5)
              (replay (zero_accumulators family0) (calls_of family0)) Hk)
           Hnorm).
Defined.

(** ** [joint_probability]: what the three sets are read for *)

(** X16: [joint_probability] only reads the three sets at the people of the
    population: names outside it are ignored, and a person in both
    [one_gene] and [two_genes] has one copy. *)
Theorem joint_probability_restrict people one_gene two_genes have_trait :
  joint_probability people one_gene two_genes have_trait
  = joint_probability people (one_gene ∩ dom people)
      ((two_genes ∖ one_gene) ∩ dom people) (have_trait ∩ dom people).
Proof.
  destruct (well_formed people) eqn:Hwf.
  - rewrite !joint_probability_Ok by done. f_equal.
    apply joint_ext. intros key row Hrow.
    assert (∀ k, k ∈ dom people →
      assigned_gene one_gene two_genes k
      = assigned_gene (one_gene ∩ dom people)
          ((two_genes ∖ one_gene) ∩ dom people) k) as Hgene.
    { intros k Hk. unfold assigned_gene. repeat case_decide; set_solver. }
    assert (key ∈ dom people) as Hkey by (apply elem_of_dom; eauto).
    unfold factor, gene_probability, gene_probability_at.
    rewrite <- (Hgene key Hkey).
    assert (bool_decide (key ∈ have_trait)
            = bool_decide (key ∈ have_trait ∩ dom people)) as ->
      by (apply bool_decide_ext; set_solver).
    f_equal.
    destruct (parents_resolve_cases people row
                (well_formed_lookup _ _ _ Hwf Hrow))
      as [[Hm0 _]|(m & f & Hm0 & Hf0 & Hm%elem_of_dom & Hf%elem_of_dom)].
    + by rewrite Hm0.
    + by rewrite Hm0, Hf0, <- (Hgene m Hm), <- (Hgene f Hf).
  - by rewrite !joint_probability_Raise.
Qed.

(** ** [load_data] *)

Lemma load_data_snoc rows row :
  load_data (rows ++ [row])
  = <[csv_name row := person_of_row row]> (load_data rows).
Proof. unfold load_data. by rewrite foldl_app. Qed.

Lemma load_data_lookup rows key :
  load_data rows !! key
  = person_of_row <$> last (filter (λ row, csv_name row = key) rows).
Proof.
  induction rows as [|row rows IH] using rev_ind; [done|].
  rewrite load_data_snoc, filter_app, filter_cons, filter_nil.
  case_decide as Hkey.
  - rewrite Hkey, lookup_insert_eq, last_snoc. done.
  - rewrite lookup_insert_ne by done. rewrite app_nil_r. done.
Qed.

Lemma dom_load_data rows :
  dom (load_data rows) = list_to_set (csv_name <$> rows).
Proof.
  induction rows as [|row rows IH] using rev_ind; [set_solver|].
  rewrite load_data_snoc, dom_insert_L, IH, fmap_app, list_to_set_app_L.
  set_solver.
Qed.



(** X17: [load_data] keeps one record per name: the record of the last row
    with that name, so a later row silently replaces an earlier one of the
    same name.  The keys are the names of the rows, each record carries its
    key as its name, and a blank parent field is loaded as [None], never as
    the empty string. *)
Theorem load_data_last_row rows :
  (∀ key, load_data rows !! key
          = person_of_row <$> last (filter (λ row, csv_name row = key) rows))
  ∧ dom (load_data rows) = list_to_set (csv_name <$> rows)
  ∧ (∀ key person, load_data rows !! key = Some person → name person = key)
  ∧ (∀ key person, load_data rows !! key = Some person →
       mother person ≠ Some "" ∧ father person ≠ Some "").
Proof.
  split_and!.
  - apply load_data_lookup.
  - apply dom_load_data.
  - intros key person. rewrite load_data_lookup.
    destruct (last _) as [row|] eqn:Hlast; [|done].
    intros [= <-]. apply last_Some_elem_of, list_elem_of_filter in Hlast.
    by destruct Hlast.
  - intros key person. rewrite load_data_lookup.
    destruct (last _) as [row|] eqn:Hlast; [|done].
    intros [= <-]. unfold person_of_row, or_None. simpl.
    split; case_decide; congruence.
Qed.



(** ** Mother and father are interchangeable *)

Section relabel.

Variable g : Person → Person.
Hypothesis g_same_family : ∀ row, same_family row (g row).

Lemma inherited_comm gene mom dad : inherited gene mom dad = inherited gene dad mom.
Proof. destruct gene as [|[|gene]]; simpl; ring. Qed.

Lemma factor_relabel og tg ht key row :
  factor og tg ht key (g row) = factor og tg ht key row.
Proof.
  unfold factor, gene_probability, gene_probability_at.
  destruct (g_same_family row) as [_ [[-> ->]|[-> ->]]]; [done|].
  destruct (father row), (mother row); try done.
  by rewrite inherited_comm.
Qed.

Lemma joint_relabel people og tg ht :
  joint (g <$> people) og tg ht = joint people og tg ht.
Proof.
  unfold joint. rewrite map_to_list_fmap, <- list_fmap_compose. f_equal.
  apply list_fmap_ext. intros i [key row] _. simpl. apply factor_relabel.
Qed.

Lemma fails_evidence_relabel people names ht :
  fails_evidence (g <$> people) names ht = fails_evidence people names ht.
Proof.
  unfold fails_evidence. induction (elements names) as [|person l IH]; [done|].
  cbn [existsb]. rewrite IH, lookup_fmap. f_equal.
  destruct (people !! person) as [row|]; [|done]. cbn [fmap option_fmap option_map].
  by destruct (g_same_family row) as [-> _].
Qed.

Lemma calls_of_relabel people : calls_of (g <$> people) = calls_of people.
Proof.
  unfold calls_of, gene_calls. rewrite dom_fmap_L.
  apply list_bind_ext; [|done]. intros ht.
  rewrite fails_evidence_relabel. destruct (fails_evidence _ _ _); [done|].
  apply list_bind_ext; [|done]. intros og.
  apply list_bind_ext; [|done]. intros tg.
  by rewrite joint_relabel.
Qed.

Lemma parents_resolve_relabel people row :
  parents_resolve (g <$> people) (g row) = parents_resolve people row.
Proof.
  unfold parents_resolve. rewrite dom_fmap_L.
  destruct (g_same_family row) as [_ [[-> ->]|[-> ->]]]; [done|].
  destruct (father row), (mother row); try done. apply andb_comm.
Qed.

Lemma well_formed_relabel people :
  well_formed (g <$> people) = well_formed people.
Proof.
  destruct (well_formed people) eqn:Hwf.
  - unfold well_formed. apply forallb_forall.
    intros [key row'] Hin%list_elem_of_In%elem_of_map_to_list.
    apply lookup_fmap_Some in Hin as (row & <- & Hrow). simpl.
    rewrite parents_resolve_relabel. by eapply well_formed_lookup.
  - apply well_formed_false in Hwf as (key & row & Hrow & Hbad).
    destruct (well_formed (g <$> people)) eqn:Hwf'; [|done].
    rewrite <- Hbad, <- parents_resolve_relabel. symmetry.
    apply (well_formed_lookup _ key); [done|]. by rewrite lookup_fmap, Hrow.
Qed.

(** X27: the inference does not tell mother from father and never reads
    the [name] field of a record.  Exchanging the two parents of any of the
    records, or changing their [name] fields, changes neither what
    [joint_probability] returns or raises for any configuration nor what
    [main] returns or raises. *)
Theorem parents_interchangeable people :
  (∀ og tg ht,
     joint_probability (g <$> people) og tg ht
     = joint_probability people og tg ht)
  ∧ main (g <$> people) = main people.
Proof.
  pose proof (well_formed_relabel people) as Hwf'.
  destruct (well_formed people) eqn:Hwf; split.
  - intros og tg ht. rewrite !joint_probability_Ok by done.
    by rewrite joint_relabel.
  - rewrite !main_Ok by done. rewrite calls_of_relabel.
    unfold zero_accumulators. by rewrite <- map_fmap_compose.
  - intros og tg ht. by rewrite !joint_probability_Raise.
  - by rewrite !main_Raise.
Qed.

End relabel.

Lemma parents_interchangeable_witness :
  (∀ row, same_family row (swap_parents row))
  ∧ main (swap_parents <$> family0) = main family0.
Proof.
  assert (∀ row, same_family row (swap_parents row)) as Hswap.
  { intros row. split; [done|]. by right. }
  split; [exact Hswap|].
  exact (proj2 (parents_interchangeable swap_parents Hswap family0)).
Defined.

(** * Tic-tac-toe: properties of the rules and of the search *)

Section tictactoe_rules.
Import TicTacToe.
Local Open Scope nat_scope.

(** ** Cells and actions *)

Lemma cell_empty (c : cell) : c ≠ Some X ∧ c ≠ Some O ↔ c = None.
Proof. destruct c as [[]|]; naive_solver. Qed.

Lemma cell_marked (c : cell) : c = Some X ∨ c = Some O ↔ is_Some c.
Proof. destruct c as [[]|]; split; try naive_solver; intros [? [=]]. Qed.

Lemma cell_at_Some b i j c :
  cell_at b (i, j) = Some c ↔ ∃ row, b !! i = Some row ∧ row !! j = Some c.
Proof.
  unfold cell_at. simpl. destruct (b !! i) as [row|]; simpl; naive_solver.
Qed.

Lemma getitem2_cell_at b a :
  getitem2 b a = match cell_at b a with Some c => Val c | None => Throw IndexError end.
Proof.
  unfold getitem2, cell_at. destruct (b !! a.1) as [row|]; simpl; [|done].
  by destruct (row !! a.2).
Qed.

Lemma elem_of_actions_row (row : list cell) (i : nat) (js : list nat)
    (acts : gset action) (a : action) :
  a ∈ foldl (λ actions j,
        match row !! j with
        | Some c =>
            if decide (c ≠ Some X ∧ c ≠ Some O)
            then actions ∪ {[ (i, j) ]}
            else actions
        | None => actions
        end) acts js
  ↔ a ∈ acts ∨ ∃ j, j ∈ js ∧ a = (i, j) ∧ row !! j = Some None.
Proof.
  revert acts. induction js as [|j js IH]; intros acts; simpl.
  - split; [auto|]. intros [?|(j & Hj & _)]; [done|]. by apply elem_of_nil in Hj.
  - rewrite IH. destruct (row !! j) as [c|] eqn:Hc.
    + case_decide as Hempty.
      * apply cell_empty in Hempty as ->. rewrite elem_of_union, elem_of_singleton.
        split.
        -- intros [[?| ->]|(j' & Hj' & -> & Hrow)]; [by left|right..].
           ++ exists j. split_and!; [by left|done..].
           ++ exists j'. split_and!; [by right|done..].
        -- intros [?|(j' & [->|Hj']%elem_of_cons & -> & Hrow)]; [by left;left|..].
           ++ by left; right.
           ++ right. by exists j'.
      * split.
        -- intros [?|(j' & Hj' & -> & Hrow)]; [by left|right].
           exists j'. split_and!; [by right|done..].
        -- intros [?|(j' & [->|Hj']%elem_of_cons & -> & Hrow)]; [by left|..].
           ++ rewrite Hrow in Hc. injection Hc as <-.
              exfalso. apply Hempty. by apply cell_empty.
           ++ right. by exists j'.
    + split.
      * intros [?|(j' & Hj' & -> & Hrow)]; [by left|right].
        exists j'. split_and!; [by right|done..].
      * intros [?|(j' & [->|Hj']%elem_of_cons & -> & Hrow)]; [by left|congruence|].
        right. by exists j'.
Qed.

Lemma elem_of_actions_rows (b : board) (ks : list nat) (acts : gset action)
    (a : action) :
  a ∈ foldl (λ actions i,
        match b !! i with
        | Some row =>
            foldl (λ actions j,
              match row !! j with
              | Some c =>
                  if decide (c ≠ Some X ∧ c ≠ Some O)
                  then actions ∪ {[ (i, j) ]}
                  else actions
              | None => actions
              end)
              actions (seq 0 (length row))
        | None => actions
        end) acts ks
  ↔ a ∈ acts ∨ ∃ i j, i ∈ ks ∧ a = (i, j) ∧ cell_at b (i, j) = Some None.
Proof.
  revert acts. induction ks as [|i ks IH]; intros acts; simpl.
  - split; [auto|]. intros [?|(i & j & Hi & _)]; [done|]. by apply elem_of_nil in Hi.
  - rewrite IH. destruct (b !! i) as [row|] eqn:Hrow.
    + rewrite elem_of_actions_row. split.
      * intros [[?|(j & Hj & -> & Hc)]|(i' & j & Hi' & -> & Hc)]; [by left|right..].
        -- exists i, j. split_and!; [by left|done|]. apply cell_at_Some. by exists row.
        -- exists i', j. split_and!; [by right|done..].
      * intros [?|(i' & j & [->|Hi']%elem_of_cons & -> & Hc)]; [by left; left|..].
        -- left. right. exists j.
           apply cell_at_Some in Hc as (row' & Hrow' & Hc).
           assert (row' = row) as -> by congruence.
           split_and!; [|done..]. apply elem_of_seq. split; [lia|].
           simpl. by eapply lookup_lt_Some.
        -- right. by exists i', j.
    + split.
      * intros [?|(i' & j & Hi' & -> & Hc)]; [by left|right].
        exists i', j. split_and!; [by right|done..].
      * intros [?|(i' & j & [->|Hi']%elem_of_cons & -> & Hc)]; [by left|..].
        -- apply cell_at_Some in Hc as (row' & Hrow' & Hc). congruence.
        -- right. by exists i', j.
Qed.

Lemma elem_of_actions b a : a ∈ actions b ↔ cell_at b a = Some None.
Proof.
  unfold actions. rewrite elem_of_actions_rows. split.
  - intros [Hin|(i & j & _ & -> & Hc)]; [set_solver|done].
  - intros Hc. right. destruct a as [i j]. exists i, j. split_and!; [|done..].
    apply cell_at_Some in Hc as (row & Hrow & _).
    apply elem_of_seq. split; [lia|]. simpl. by eapply lookup_lt_Some.
Qed.

(** ** Counting the marks *)

Lemma count_row (row : list cell) n :
  foldl (λ count c, if decide (c = Some X ∨ c = Some O) then count + 1 else count)
    n row
  = n + length (filter (λ c : cell, is_Some c) row).
Proof.
  revert n. induction row as [|c row IH]; intros n; simpl; [lia|].
  rewrite IH, filter_cons. repeat case_decide; simpl; try lia.
  - exfalso. by apply cell_marked in H.
  - exfalso. apply H. by apply cell_marked.
Qed.

Lemma count_rows (b : board) n :
  foldl (λ count row,
    foldl (λ count c, if decide (c = Some X ∨ c = Some O) then count + 1 else count)
      count row) n b
  = n + marks b.
Proof.
  unfold marks. revert n. induction b as [|row b IH]; intros n; simpl; [lia|].
  rewrite IH, count_row, filter_app, length_app. lia.
Qed.

Lemma player_marks b : player b = if Nat.even (marks b) then X else O.
Proof.
  unfold player. rewrite count_rows. change (0 + marks b) with (marks b).
  destruct (Nat.even (marks b)) eqn:Heven.
  - apply Nat.even_spec in Heven as [k Hk]. rewrite decide_True; [done|].
    right. rewrite Hk, Nat.mul_comm. apply Nat.Div0.mod_mul.
  - rewrite decide_False; [done|]. intros [H0|Hmod].
    + rewrite H0 in Heven. done.
    + apply Nat.Div0.mod_divides in Hmod as [k Hk]. rewrite Hk in Heven.
      rewrite Nat.even_mul in Heven. done.
Qed.


(** ** [result] *)

Lemma cell_at_place (b : board) (a a' : action) (c : cell) :
  is_Some (cell_at b a) →
  cell_at (alter (λ row, <[a.2 := c]> row) a.1 b) a'
  = if decide (a' = a) then Some c else cell_at b a'.
Proof.
  destruct a as [i j], a' as [i' j']. intros [c0 Hc0]. cbn [fst snd].
  apply cell_at_Some in Hc0 as (row & Hrow & Hj).
  unfold cell_at. cbn [fst snd]. rewrite list_lookup_alter.
  destruct (decide (i = i')) as [<-|Hi].
  - rewrite Hrow. cbn [fmap option_fmap option_map mbind option_bind].
    rewrite list_lookup_insert.
    destruct (decide (j = j' ∧ j < length row)) as [[<- _]|Hne].
    + by rewrite decide_True.
    + rewrite decide_False; [done|]. intros [= <-]. apply Hne.
      split; [done|]. by eapply lookup_lt_Some.
  - rewrite decide_False; [done|]. intros [= <- _]. done.
Qed.

Lemma list_alter_insert_at {A} (f : A → A) (l : list A) i x :
  l !! i = Some x → alter f i l = <[i := f x]> l.
Proof.
  intros Hx. apply list_eq. intros k.
  rewrite list_lookup_alter, list_lookup_insert.
  destruct (decide (i = k)) as [<-|Hne].
  - rewrite Hx. rewrite decide_True; [done|].
    split; [done|]. by eapply lookup_lt_Some.
  - rewrite decide_False; [done|]. by intros [? _].
Qed.

Lemma marks_place (b : board) (a : action) (m : mark) :
  cell_at b a = Some None →
  marks (alter (λ row, <[a.2 := Some m]> row) a.1 b) = S (marks b).
Proof.
  destruct a as [i j]. intros (row & Hrow & Hj)%cell_at_Some. simpl.
  rewrite (list_alter_insert_at _ _ _ _ Hrow).
  rewrite insert_take_drop by (by eapply lookup_lt_Some).
  rewrite insert_take_drop by (by eapply lookup_lt_Some).
  unfold marks.
  rewrite <- (take_drop_middle b i row Hrow) at 3.
  rewrite <- (take_drop_middle row j None Hj) at 3.
  rewrite !concat_app, !concat_cons, !filter_app, !filter_cons.
  rewrite decide_True by done.
  rewrite decide_False by (by intros [? [=]]).
  rewrite !length_app, length_cons. lia.
Qed.

Lemma result_Val b a b' :
  result b a = Val b'
  ↔ a ∈ actions b ∧ b' = alter (λ row, <[a.2 := Some (player b)]> row) a.1 b.
Proof.
  unfold result. case_decide; split; try naive_solver.
Qed.

Lemma result_Throw b a e :
  result b a = Throw e ↔ (a ∉ actions b) ∧ e = Exception.
Proof.
  unfold result. case_decide; split; try naive_solver.
Qed.

Lemma cell_at_result b a b' a' :
  result b a = Val b' →
  cell_at b' a' = if decide (a' = a) then Some (Some (player b)) else cell_at b a'.
Proof.
  intros [Ha ->]%result_Val. apply cell_at_place.
  apply elem_of_actions in Ha. by rewrite Ha.
Qed.

Lemma actions_result b a b' :
  result b a = Val b' → actions b' = actions b ∖ {[ a ]}.
Proof.
  intros Hres. apply set_eq. intros a'.
  rewrite elem_of_difference, elem_of_singleton, !elem_of_actions.
  rewrite (cell_at_result _ _ _ _ Hres). case_decide; naive_solver.
Qed.

Lemma size_actions_result b a b' :
  result b a = Val b' → size (actions b) = S (size (actions b')).
Proof.
  intros Hres. rewrite (actions_result _ _ _ Hres).
  pose proof Hres as [Ha _]%result_Val.
  rewrite size_difference by set_solver. rewrite size_singleton.
  assert (size (actions b) ≠ 0); [|lia].
  apply size_non_empty_iff. set_solver.
Qed.

Lemma marks_result b a b' : result b a = Val b' → marks b' = S (marks b).
Proof.
  intros [Ha ->]%result_Val. apply marks_place. by apply elem_of_actions.
Qed.

Lemma player_result b a b' : result b a = Val b' → player b' ≠ player b.
Proof.
  intros Hres. rewrite !player_marks, (marks_result _ _ _ Hres).
  rewrite Nat.even_succ, <- Nat.negb_even. by destruct (Nat.even (marks b)).
Qed.

(** ** Boards of three rows of three cells *)

Lemma three_by_three_cell_at b i j :
  three_by_three b → is_Some (cell_at b (i, j)) ↔ i < 3 ∧ j < 3.
Proof.
  intros [Hrows Hcols]. split.
  - intros [c (row & Hrow & Hj)%cell_at_Some].
    pose proof (lookup_lt_Some _ _ _ Hrow). split; [lia|].
    rewrite Forall_lookup in Hcols. specialize (Hcols _ _ Hrow). simpl in Hcols.
    pose proof (lookup_lt_Some _ _ _ Hj). lia.
  - intros [Hi Hj]. destruct (lookup_lt_is_Some_2 b i) as [row Hrow]; [lia|].
    rewrite Forall_lookup in Hcols. specialize (Hcols _ _ Hrow). simpl in Hcols.
    destruct (lookup_lt_is_Some_2 row j) as [c Hc]; [lia|].
    exists c. apply cell_at_Some. by exists row.
Qed.

Lemma three_by_three_result b a b' :
  three_by_three b → result b a = Val b' → three_by_three b'.
Proof.
  intros [Hrows Hcols] [_ ->]%result_Val. split.
  - by rewrite length_alter.
  - apply Forall_alter; [done|]. intros row _ Hrow. by rewrite length_insert.
Qed.

Lemma three_by_three_initial_state : three_by_three initial_state.
Proof. split; [done|]. repeat constructor. Qed.

Lemma size_actions_three_by_three b : three_by_three b → size (actions b) ≤ 9.
Proof.
  intros Hb.
  transitivity (size (list_to_set (C := gset (nat * nat))
    [(0, 0); (0, 1); (0, 2); (1, 0); (1, 1); (1, 2); (2, 0); (2, 1); (2, 2)])).
  - apply subseteq_size. intros [i j] Ha%elem_of_actions.
    assert (is_Some (cell_at b (i, j))) as Hcell by (by rewrite Ha).
    apply three_by_three_cell_at in Hcell as [Hi Hj]; [|done].
    destruct i as [|[|[|i]]]; [..|lia];
      (destruct j as [|[|[|j]]]; [..|lia]); set_solver.
  - done.
Qed.


(** ** [winner], [terminal] and [utility] *)

Lemma winner_loop_spec b todo :
  (∀ a1 a2 a3, (a1, a2, a3) ∈ todo →
     is_Some (cell_at b a1) ∧ is_Some (cell_at b a2) ∧ is_Some (cell_at b a3)) →
  ∃ w, winner_loop b todo = Val w
    ∧ (∀ m, w = Some m →
         ∃ a1 a2 a3, (a1, a2, a3) ∈ todo
           ∧ cell_at b a1 = Some (Some m)
           ∧ cell_at b a2 = Some (Some m)
           ∧ cell_at b a3 = Some (Some m))
    ∧ (w = None →
         ∀ m a1 a2 a3, (a1, a2, a3) ∈ todo →
           ¬ (cell_at b a1 = Some (Some m)
              ∧ cell_at b a2 = Some (Some m)
              ∧ cell_at b a3 = Some (Some m))).
Proof.
  induction todo as [|[[a1 a2] a3] todo IH]; intros Hcells.
  - exists None. split_and!; [done|done|].
    intros _ m ? ? ? Hin. by apply elem_of_nil in Hin.
  - destruct IH as (w & Hw & Hsome & Hnone).
    { intros ? ? ? Hin. apply Hcells. by right. }
    assert (∃ w', winner_loop b todo = Val w'
      ∧ (∀ m, w' = Some m →
           ∃ a1' a2' a3', (a1', a2', a3') ∈ (a1, a2, a3) :: todo
             ∧ cell_at b a1' = Some (Some m)
             ∧ cell_at b a2' = Some (Some m)
             ∧ cell_at b a3' = Some (Some m))
      ∧ (w' = None →
           ∀ m a1' a2' a3', (a1', a2', a3') ∈ todo →
             ¬ (cell_at b a1' = Some (Some m)
                ∧ cell_at b a2' = Some (Some m)
                ∧ cell_at b a3' = Some (Some m)))) as Hrest.
    { exists w. split_and!; [done| |done].
      intros m Hm. destruct (Hsome m Hm) as (? & ? & ? & Hin & ?).
      eexists _, _, _. split; [by right|done]. }
    clear Hw Hsome Hnone w.
    destruct (Hcells a1 a2 a3) as ([c1 Hc1] & [c2 Hc2] & [c3 Hc3]); [by left|].
    cbn [winner_loop]. rewrite !getitem2_cell_at, Hc1, Hc2, Hc3.
    cbn [mbind raises_bind].
    destruct Hrest as (w & Hw & Hsome & Hnone).
    assert (∀ m a1' a2' a3', (a1', a2', a3') ∈ (a1, a2, a3) :: todo →
              w = None →
              ¬ (cell_at b a1 = Some (Some m)
                 ∧ cell_at b a2 = Some (Some m)
                 ∧ cell_at b a3 = Some (Some m)) →
              ¬ (cell_at b a1' = Some (Some m)
                 ∧ cell_at b a2' = Some (Some m)
                 ∧ cell_at b a3' = Some (Some m))) as Hskip.
    { intros m ? ? ? [[= -> -> ->]|Hin]%elem_of_cons Hw0 Hno; [done|].
      by apply Hnone. }
    case_decide as H1.
    { exists w. split_and!; [done|done|].
      intros Hw0 m ? ? ? Hin. eapply Hskip; [done..|]. intros (? & _). congruence. }
    case_decide as H2.
    { exists w. split_and!; [done|done|].
      intros Hw0 m ? ? ? Hin. eapply Hskip; [done..|]. intros (? & ? & _). congruence. }
    case_decide as H3.
    { exists w. split_and!; [done|done|].
      intros Hw0 m ? ? ? Hin. eapply Hskip; [done..|]. intros (? & ? & ?). congruence. }
    subst c2 c3.
    exists c1. split_and!; [done| |done].
    intros m ->. exists a1, a2, a3. split_and!; [by left|done..].
Qed.

Lemma three_by_three_patterns b a1 a2 a3 :
  three_by_three b → (a1, a2, a3) ∈ patterns →
  is_Some (cell_at b a1) ∧ is_Some (cell_at b a2) ∧ is_Some (cell_at b a3).
Proof.
  intros Hb Hin. unfold patterns in Hin.
  repeat (apply elem_of_cons in Hin as [[= -> -> ->]|Hin];
          [split_and!; apply three_by_three_cell_at; (done || lia)|]).
  by apply elem_of_nil in Hin.
Qed.

Lemma winner_spec b :
  three_by_three b →
  ∃ w, winner b = Val w
    ∧ (∀ m, w = Some m → has_line b m)
    ∧ (w = None ↔ ∀ m, ¬ has_line b m).
Proof.
  intros Hb. destruct (winner_loop_spec b patterns) as (w & Hw & Hsome & Hnone).
  { intros. by apply three_by_three_patterns. }
  exists w. split_and!; [done|..].
  - intros m Hm. apply Hsome, Hm.
  - split.
    + intros Hw0 m (a1 & a2 & a3 & Hin & Hline). by eapply Hnone.
    + intros Hno. destruct w as [m|]; [|done].
      exfalso. apply (Hno m), Hsome. done.
Qed.

Lemma terminal_spec b w :
  winner b = Val w →
  terminal b = Val (bool_decide (w ≠ None ∨ actions b = ∅)).
Proof.
  intros Hw. unfold terminal. rewrite Hw. cbn [mbind raises_bind].
  destruct w as [[]|].
  - rewrite decide_False, decide_True by done.
    rewrite bool_decide_eq_true_2; [done|by left].
  - rewrite decide_True by done.
    rewrite bool_decide_eq_true_2; [done|by left].
  - rewrite !decide_False by done. case_decide as Hsize.
    + rewrite bool_decide_eq_true_2; [done|].
      right. by apply size_empty_iff, leibniz_equiv in Hsize.
    + rewrite bool_decide_eq_false_2; [done|].
      intros [?|Hempty]; [done|]. apply Hsize. by rewrite Hempty.
Qed.

Lemma utility_spec b w :
  winner b = Val w →
  utility b = Val (match w with Some X => 1 | Some O => -1 | None => 0 end)%Z.
Proof.
  intros Hw. unfold utility. rewrite Hw. cbn [mbind raises_bind].
  destruct w as [[]|]; repeat case_decide; done.
Qed.

End tictactoe_rules.

Section tictactoe_values.
Import TicTacToe.
Local Open Scope nat_scope.

(** ** The order on numbers with infinities *)

Lemma ext_max_Fin x y : ext_max (Fin x) (Fin y) = Fin (Z.max x y).
Proof.
  unfold ext_max, ext_lt. case_decide as Hlt; simpl in Hlt; f_equal; lia.
Qed.

Lemma ext_max_NegInf_l y : ext_max NegInf y = y.
Proof. unfold ext_max, ext_lt. by destruct y; case_decide. Qed.

Lemma ext_max_NegInf_r x : ext_max x NegInf = x.
Proof. unfold ext_max, ext_lt. destruct x; case_decide; simpl in *; tauto. Qed.

Lemma ext_max_PosInf_l y : ext_max PosInf y = PosInf.
Proof. unfold ext_max, ext_lt. destruct y; case_decide; simpl in *; tauto. Qed.

Lemma ext_max_PosInf_r x : ext_max x PosInf = PosInf.
Proof. unfold ext_max, ext_lt. destruct x; case_decide; simpl in *; tauto. Qed.

Lemma ext_min_Fin x y : ext_min (Fin x) (Fin y) = Fin (Z.min x y).
Proof.
  unfold ext_min, ext_lt. case_decide as Hlt; simpl in Hlt; f_equal; lia.
Qed.

Lemma ext_min_PosInf_l y : ext_min PosInf y = y.
Proof. unfold ext_min, ext_lt. by destruct y; case_decide. Qed.

Lemma ext_min_PosInf_r x : ext_min x PosInf = x.
Proof. unfold ext_min, ext_lt. destruct x; case_decide; simpl in *; tauto. Qed.

Lemma ext_min_NegInf_l y : ext_min NegInf y = NegInf.
Proof. unfold ext_min, ext_lt. destruct y; case_decide; simpl in *; tauto. Qed.

Lemma ext_min_NegInf_r x : ext_min x NegInf = NegInf.
Proof. unfold ext_min, ext_lt. destruct x; case_decide; simpl in *; tauto. Qed.

(** Goals about the order of numbers with infinities, by cases on the
    numbers. *)
Ltac ext_solve :=
  unfold within in *;
  repeat match goal with H : _ ∧ _ |- _ => destruct H end;
  subst;
  unfold ext_lt in *;
  repeat match goal with x : ext |- _ => destruct x end;
  repeat (progress rewrite ?ext_max_Fin, ?ext_max_NegInf_l, ?ext_max_NegInf_r,
    ?ext_max_PosInf_l, ?ext_max_PosInf_r, ?ext_min_Fin, ?ext_min_PosInf_l,
    ?ext_min_PosInf_r, ?ext_min_NegInf_l, ?ext_min_NegInf_r in * );
  simpl in *;
  first [ lia | f_equal; lia | tauto | congruence
        | intuition (first [ lia | f_equal; lia | congruence ]) ].

Lemma ext_le_foldl_max (x : ext) (l : list ext) : ext_le x (foldl ext_max x l).
Proof.
  revert x. induction l as [|y l IH]; intros x; simpl.
  - destruct x; simpl; done.
  - specialize (IH (ext_max x y)). revert IH.
    generalize (foldl ext_max (ext_max x y) l). intros M HM. ext_solve.
Qed.

Lemma ext_le_foldl_min (x : ext) (l : list ext) : ext_le (foldl ext_min x l) x.
Proof.
  revert x. induction l as [|y l IH]; intros x; simpl.
  - destruct x; simpl; done.
  - specialize (IH (ext_min x y)). revert IH.
    generalize (foldl ext_min (ext_min x y) l). intros M HM. ext_solve.
Qed.

Lemma foldl_max_Fin (z : Z) (Vs : list Z) :
  ∃ V, foldl ext_max (Fin z) (Fin <$> Vs) = Fin V
    ∧ (V = z ∨ V ∈ Vs) ∧ (z ≤ V)%Z ∧ ∀ V', V' ∈ Vs → (V' ≤ V)%Z.
Proof.
  revert z. induction Vs as [|V0 Vs IH]; intros z.
  - exists z. split_and!; [done|by left|done|]. intros ? Hin. by apply elem_of_nil in Hin.
  - rewrite fmap_cons. cbn [foldl].
    assert (∃ z', ext_max (Fin z) (Fin V0) = Fin z' ∧ (z' = z ∨ z' = V0)
                  ∧ (z ≤ z')%Z ∧ (V0 ≤ z')%Z) as (z' & -> & Hz' & Hle1 & Hle2).
    { unfold ext_max. case_decide as Hlt; unfold ext_lt in Hlt; simpl in Hlt.
      - exists V0. split_and!; [done|by right|lia|done].
      - exists z. split_and!; [done|by left|done|lia]. }
    destruct (IH z') as (V & -> & HV & Hle & Hall).
    exists V. split_and!; [done| |lia|].
    + destruct HV as [->|HV]; [|by right; right].
      destruct Hz' as [->| ->]; [by left|by right; left].
    + intros V' [->|Hin]%elem_of_cons; [lia|by apply Hall].
Qed.

Lemma foldl_min_Fin (z : Z) (Vs : list Z) :
  ∃ V, foldl ext_min (Fin z) (Fin <$> Vs) = Fin V
    ∧ (V = z ∨ V ∈ Vs) ∧ (V ≤ z)%Z ∧ ∀ V', V' ∈ Vs → (V ≤ V')%Z.
Proof.
  revert z. induction Vs as [|V0 Vs IH]; intros z.
  - exists z. split_and!; [done|by left|done|]. intros ? Hin. by apply elem_of_nil in Hin.
  - rewrite fmap_cons. cbn [foldl].
    assert (∃ z', ext_min (Fin z) (Fin V0) = Fin z' ∧ (z' = z ∨ z' = V0)
                  ∧ (z' ≤ z)%Z ∧ (z' ≤ V0)%Z) as (z' & -> & Hz' & Hle1 & Hle2).
    { unfold ext_min. case_decide as Hlt; unfold ext_lt in Hlt; simpl in Hlt.
      - exists V0. split_and!; [done|by right|lia|done].
      - exists z. split_and!; [done|by left|done|lia]. }
    destruct (IH z') as (V & -> & HV & Hle & Hall).
    exists V. split_and!; [done| |lia|].
    + destruct HV as [->|HV]; [|by right; right].
      destruct Hz' as [->| ->]; [by left|by right; left].
    + intros V' [->|Hin]%elem_of_cons; [lia|by apply Hall].
Qed.

(** ** The value of a position *)

Lemma utility_range b u : utility b = Val u → (-1 ≤ u ≤ 1)%Z.
Proof.
  unfold utility. destruct (winner b) as [w|]; [|done]. cbn [mbind raises_bind].
  repeat case_decide; intros [= <-]; lia.
Qed.

Lemma game_value_unique_below (n : nat) :
  ∀ maximizing b v1 v2,
    size (actions b) < n →
    game_value maximizing b v1 → game_value maximizing b v2 → v1 = v2.
Proof.
  induction n as [|n IH]; intros maximizing b v1 v2 Hsize H1 H2; [lia|].
  assert (∀ a b', result b a = Val b' → size (actions b') < n) as Hchild.
  { intros a b' Hres. rewrite (size_actions_result _ _ _ Hres) in Hsize. lia. }
  destruct H1 as [mx b u1 Ht1 Hu1|b v1 Ht1 Hall1 Hex1|b v1 Ht1 Hall1 Hex1];
    inversion H2 as [mx' b0 u2 Ht2 Hu2|b0 v0 Ht2 Hall2 Hex2|b0 v0 Ht2 Hall2 Hex2];
    subst; try congruence.
  - destruct Hex1 as (a1 & b1 & Ha1 & Hres1 & Hv1).
    destruct Hex2 as (a2 & b2 & Ha2 & Hres2 & Hv2).
    destruct (Hall2 a1 Ha1) as (b1' & v1' & Hres1' & Hv1' & Hle1).
    destruct (Hall1 a2 Ha2) as (b2' & v2' & Hres2' & Hv2' & Hle2).
    assert (b1' = b1) as -> by congruence.
    assert (b2' = b2) as -> by congruence.
    assert (v1' = v1) as -> by (eapply (IH _ b1); [by eapply Hchild|done..]).
    assert (v2' = v2) as -> by (eapply (IH _ b2); [by eapply Hchild|done..]).
    lia.
  - destruct Hex1 as (a1 & b1 & Ha1 & Hres1 & Hv1).
    destruct Hex2 as (a2 & b2 & Ha2 & Hres2 & Hv2).
    destruct (Hall2 a1 Ha1) as (b1' & v1' & Hres1' & Hv1' & Hle1).
    destruct (Hall1 a2 Ha2) as (b2' & v2' & Hres2' & Hv2' & Hle2).
    assert (b1' = b1) as -> by congruence.
    assert (b2' = b2) as -> by congruence.
    assert (v1' = v1) as -> by (eapply (IH _ b1); [by eapply Hchild|done..]).
    assert (v2' = v2) as -> by (eapply (IH _ b2); [by eapply Hchild|done..]).
    lia.
Qed.

Lemma game_value_unique maximizing b v1 v2 :
  game_value maximizing b v1 → game_value maximizing b v2 → v1 = v2.
Proof. apply (game_value_unique_below (S (size (actions b)))). lia. Qed.

Lemma game_value_range_below (n : nat) :
  ∀ maximizing b v,
    size (actions b) < n → game_value maximizing b v → (-1 ≤ v ≤ 1)%Z.
Proof.
  induction n as [|n IH]; intros maximizing b v Hsize Hv; [lia|].
  destruct Hv as [mx b u Ht Hu|b v Ht Hall Hex|b v Ht Hall Hex].
  - by eapply utility_range.
  - destruct Hex as (a & b' & Ha & Hres & Hv). eapply IH; [|done].
    rewrite (size_actions_result _ _ _ Hres) in Hsize. lia.
  - destruct Hex as (a & b' & Ha & Hres & Hv). eapply IH; [|done].
    rewrite (size_actions_result _ _ _ Hres) in Hsize. lia.
Qed.

Lemma game_value_range maximizing b v :
  game_value maximizing b v → (-1 ≤ v ≤ 1)%Z.
Proof. apply (game_value_range_below (S (size (actions b)))). lia. Qed.

(** ** The loops of [alphabeta] *)

Lemma max_loop_sound call b alpha0 beta todo Vs :
  Forall2 (sound_child call false b) todo Vs →
  ∀ maxEval alpha Vdone,
    alpha = ext_max alpha0 maxEval → ext_lt alpha beta →
    ext_le Vdone maxEval → (ext_lt alpha0 maxEval → ext_le maxEval Vdone) →
    (∃ z, maxEval = Fin z) ∨ (maxEval = NegInf ∧ Vs ≠ []) →
    ∃ v, max_loop call b todo maxEval alpha beta = Some (Val (Fin v))
      ∧ (ext_le (Fin v) alpha0 → ext_le (foldl ext_max Vdone (Fin <$> Vs)) (Fin v))
      ∧ (ext_le beta (Fin v) → ext_le (Fin v) (foldl ext_max Vdone (Fin <$> Vs)))
      ∧ (ext_lt alpha0 (Fin v) → ext_lt (Fin v) beta →
           Fin v = foldl ext_max Vdone (Fin <$> Vs)).
Proof.
  induction 1 as [|a V todo Vs (b' & Hres & _ & Hcall) _ IH];
    intros maxEval alpha Vdone Halpha Hwindow Hupper Hattained Hfin.
  - destruct Hfin as [[z ->]|[_ ?]]; [|done]. exists z. cbn.
    split; [done|]. ext_solve.
  - destruct (Hcall alpha beta Hwindow) as (eval & Heval & Hin).
    cbn [max_loop]. rewrite Hres, Heval. cbn zeta.
    rewrite fmap_cons. cbn [foldl].
    pose proof (ext_le_foldl_max (ext_max Vdone (Fin V)) (Fin <$> Vs)) as HM.
    case_decide as Hcut.
    + assert (ext_max maxEval (Fin eval) = Fin eval) as ->.
      { clear HM IH Hfin. ext_solve. }
      exists eval. split; [done|].
      revert HM. generalize (foldl ext_max (ext_max Vdone (Fin V)) (Fin <$> Vs)).
      intros M HM. clear IH Hfin Hcall. ext_solve.
    + apply IH.
      * clear HM IH Hfin Hcall. ext_solve.
      * exact Hcut.
      * clear HM IH Hfin Hcall. ext_solve.
      * clear HM IH Hfin Hcall. ext_solve.
      * left. clear HM IH Hcall. destruct Hfin as [[z ->]|[-> _]].
        -- rewrite ext_max_Fin. eauto.
        -- rewrite ext_max_NegInf_l. eauto.
Qed.

Lemma min_loop_sound call b alpha beta0 todo Vs :
  Forall2 (sound_child call true b) todo Vs →
  ∀ minEval beta Vdone,
    beta = ext_min beta0 minEval → ext_lt alpha beta →
    ext_le minEval Vdone → (ext_lt minEval beta0 → ext_le Vdone minEval) →
    (∃ z, minEval = Fin z) ∨ (minEval = PosInf ∧ Vs ≠ []) →
    ∃ v, min_loop call b todo minEval alpha beta = Some (Val (Fin v))
      ∧ (ext_le (Fin v) alpha → ext_le (foldl ext_min Vdone (Fin <$> Vs)) (Fin v))
      ∧ (ext_le beta0 (Fin v) → ext_le (Fin v) (foldl ext_min Vdone (Fin <$> Vs)))
      ∧ (ext_lt alpha (Fin v) → ext_lt (Fin v) beta0 →
           Fin v = foldl ext_min Vdone (Fin <$> Vs)).
Proof.
  induction 1 as [|a V todo Vs (b' & Hres & _ & Hcall) _ IH];
    intros minEval beta Vdone Hbeta Hwindow Hlower Hattained Hfin.
  - destruct Hfin as [[z ->]|[_ ?]]; [|done]. exists z. cbn.
    split; [done|]. ext_solve.
  - destruct (Hcall alpha beta Hwindow) as (eval & Heval & Hin).
    cbn [min_loop]. rewrite Hres, Heval. cbn zeta.
    rewrite fmap_cons. cbn [foldl].
    pose proof (ext_le_foldl_min (ext_min Vdone (Fin V)) (Fin <$> Vs)) as HM.
    case_decide as Hcut.
    + assert (ext_min minEval (Fin eval) = Fin eval) as ->.
      { clear HM IH Hfin. ext_solve. }
      exists eval. split; [done|].
      revert HM. generalize (foldl ext_min (ext_min Vdone (Fin V)) (Fin <$> Vs)).
      intros M HM. clear IH Hfin Hcall. ext_solve.
    + apply IH.
      * clear HM IH Hfin Hcall. ext_solve.
      * exact Hcut.
      * clear HM IH Hfin Hcall. ext_solve.
      * clear HM IH Hfin Hcall. ext_solve.
      * left. clear HM IH Hcall. destruct Hfin as [[z ->]|[-> _]].
        -- rewrite ext_min_Fin. eauto.
        -- rewrite ext_min_PosInf_l. eauto.
Qed.

End tictactoe_values.

Section tictactoe_search.
Import TicTacToe.
Local Open Scope nat_scope.

Variable order : board → list action.
Hypothesis order_actions : ∀ b, order b ≡ₚ elements (actions b).

Lemma elem_of_order b a : a ∈ order b ↔ a ∈ actions b.
Proof. by rewrite order_actions, elem_of_elements. Qed.

Lemma order_nonempty b : actions b ≠ ∅ → order b ≠ [].
Proof.
  intros Hne Hnil. apply Hne. apply set_eq. intros a.
  rewrite <- elem_of_order, Hnil. set_solver.
Qed.

(** ** [alphabeta] *)

Lemma terminal_cases b :
  three_by_three b →
  (∃ u, terminal b = Val true ∧ utility b = Val u)
  ∨ (terminal b = Val false ∧ actions b ≠ ∅).
Proof.
  intros Hb. destruct (winner_spec b Hb) as (w & Hw & _).
  rewrite (terminal_spec b w Hw), (utility_spec b w Hw).
  case_bool_decide as Hend.
  - left. eauto.
  - right. split; [done|]. intros Hempty. apply Hend. by right.
Qed.

Lemma alphabeta_sound (fuel : nat) :
  ∀ b depth alpha beta maximizing,
    three_by_three b → size (actions b) < fuel → ext_lt alpha beta →
    ∃ v value,
      alphabeta order fuel b depth alpha beta maximizing = Some (Val (Fin v))
      ∧ game_value maximizing b value
      ∧ within alpha beta value v.
Proof.
  induction fuel as [|fuel IH];
    intros b depth alpha beta maximizing Hb Hfuel Hwindow; [lia|].
  cbn [alphabeta].
  destruct (terminal_cases b Hb) as [(u & Hterminal & Hu)|[Hterminal Hmoves]].
  { rewrite Hterminal, Hu. exists u, u.
    split_and!; [done|by apply game_value_terminal|].
    unfold within. split_and!; intros; lia. }
  rewrite Hterminal.
  assert (∀ mx, Forall (λ a, ∃ value,
            sound_child
              (λ result_board alpha beta,
                 alphabeta order fuel result_board (depth + 1) alpha beta mx)
              mx b a value) (order b)) as Hchildren.
  { intros mx. apply Forall_forall. intros a Ha%elem_of_order.
    destruct (result b a) as [b'|] eqn:Hres;
      [|by apply result_Throw in Hres as [? _]].
    pose proof (three_by_three_result _ _ _ Hb Hres) as Hb'.
    assert (size (actions b') < fuel) as Hfuel'.
    { rewrite (size_actions_result _ _ _ Hres) in Hfuel. lia. }
    destruct (IH b' (depth + 1) NegInf PosInf mx Hb' Hfuel')
      as (_ & value & _ & Hvalue & _); [by intros []|].
    exists value, b'. split_and!; [done..|].
    intros alpha' beta' Hwindow'.
    destruct (IH b' (depth + 1) alpha' beta' mx Hb' Hfuel' Hwindow')
      as (v & value' & Hcall & Hvalue' & Hin).
    exists v. split; [done|].
    by rewrite (game_value_unique _ _ _ _ Hvalue Hvalue'). }
  pose proof (order_nonempty b Hmoves) as Horder.
  destruct maximizing.
  - destruct (proj1 (Forall_exists_Forall2_l _ _) (Hchildren false))
      as [Vs HVs].
    assert (Vs ≠ []) as HVs_ne.
    { intros ->. by apply Forall2_nil_inv_r in HVs. }
    destruct (max_loop_sound _ b alpha beta _ _ HVs NegInf alpha NegInf)
      as (v & Hloop & Hlow & Hhigh & Hexact).
    { by rewrite ext_max_NegInf_r. }
    { done. }
    { done. }
    { by intros []. }
    { by right. }
    destruct Vs as [|V0 Vs]; [done|].
    rewrite fmap_cons in Hlow, Hhigh, Hexact. cbn [foldl] in Hlow, Hhigh, Hexact.
    rewrite ext_max_NegInf_l in Hlow, Hhigh, Hexact.
    destruct (foldl_max_Fin V0 Vs) as (value & HM & Hattained & Hfirst & Hmax).
    rewrite HM in Hlow, Hhigh, Hexact.
    exists v, value. split_and!; [done| |].
    + apply game_value_max; [done|..].
      * intros a Ha%elem_of_order.
        apply list_elem_of_lookup in Ha as [i Hi].
        destruct (Forall2_lookup_l _ _ _ _ _ HVs Hi)
          as (V & HV & b' & Hres & Hvalue & _).
        exists b', V. split_and!; [done..|].
        destruct i as [|i]; simpl in HV.
        -- injection HV as <-. lia.
        -- apply Hmax. by eapply list_elem_of_lookup_2.
      * assert (value ∈ V0 :: Vs) as [i Hi]%list_elem_of_lookup.
        { destruct Hattained as [->|?]; [by left|by right]. }
        destruct (Forall2_lookup_r _ _ _ _ _ HVs Hi)
          as (a & Ha & b' & Hres & Hvalue & _).
        exists a, b'. split_and!; [|done..].
        apply elem_of_order. by eapply list_elem_of_lookup_2.
    + unfold within. split_and!.
      * intros Hle. apply Hlow in Hle. done.
      * intros Hle. apply Hhigh in Hle. done.
      * intros H1 H2. specialize (Hexact H1 H2). by injection Hexact.
  - destruct (proj1 (Forall_exists_Forall2_l _ _) (Hchildren true))
      as [Vs HVs].
    assert (Vs ≠ []) as HVs_ne.
    { intros ->. by apply Forall2_nil_inv_r in HVs. }
    destruct (min_loop_sound _ b alpha beta _ _ HVs PosInf beta PosInf)
      as (v & Hloop & Hlow & Hhigh & Hexact).
    { by rewrite ext_min_PosInf_r. }
    { done. }
    { done. }
    { intros Hlt. exfalso. apply Hlt. by destruct beta. }
    { by right. }
    destruct Vs as [|V0 Vs]; [done|].
    rewrite fmap_cons in Hlow, Hhigh, Hexact. cbn [foldl] in Hlow, Hhigh, Hexact.
    rewrite ext_min_PosInf_l in Hlow, Hhigh, Hexact.
    destruct (foldl_min_Fin V0 Vs) as (value & HM & Hattained & Hfirst & Hmin).
    rewrite HM in Hlow, Hhigh, Hexact.
    exists v, value. split_and!; [done| |].
    + apply game_value_min; [done|..].
      * intros a Ha%elem_of_order.
        apply list_elem_of_lookup in Ha as [i Hi].
        destruct (Forall2_lookup_l _ _ _ _ _ HVs Hi)
          as (V & HV & b' & Hres & Hvalue & _).
        exists b', V. split_and!; [done..|].
        destruct i as [|i]; simpl in HV.
        -- injection HV as <-. lia.
        -- apply Hmin. by eapply list_elem_of_lookup_2.
      * assert (value ∈ V0 :: Vs) as [i Hi]%list_elem_of_lookup.
        { destruct Hattained as [->|?]; [by left|by right]. }
        destruct (Forall2_lookup_r _ _ _ _ _ HVs Hi)
          as (a & Ha & b' & Hres & Hvalue & _).
        exists a, b'. split_and!; [|done..].
        apply elem_of_order. by eapply list_elem_of_lookup_2.
    + unfold within. split_and!.
      * intros Hle. apply Hlow in Hle. done.
      * intros Hle. apply Hhigh in Hle. done.
      * intros H1 H2. specialize (Hexact H1 H2). by injection Hexact.
Qed.


Lemma alphabeta_full_window fuel b depth maximizing :
  three_by_three b → size (actions b) < fuel →
  ∃ value,
    alphabeta order fuel b depth NegInf PosInf maximizing = Some (Val (Fin value))
    ∧ game_value maximizing b value.
Proof.
  intros Hb Hfuel.
  destruct (alphabeta_sound fuel b depth NegInf PosInf maximizing Hb Hfuel) as (v & value & Hcall & Hvalue & _ & _ & Hin);
    [by intros []|].
  exists value. split; [|done]. rewrite Hcall, Hin; [done|by intros []..].
Qed.

(** ** [minimax] *)

Lemma minimax_X_loop_spec fuel b todo Vs :
  Forall2 (evaluated_child order fuel false b) todo Vs →
  ∀ best_val best_move,
    ∃ r, minimax_X_loop order fuel b todo best_val best_move = Some (Val r)
      ∧ ((r = best_move ∧ ∀ V, V ∈ Vs → ext_le (Fin V) best_val)
         ∨ (∃ i a V, todo !! i = Some a ∧ Vs !! i = Some V ∧ r = Some a
              ∧ ext_lt best_val (Fin V) ∧ ∀ V', V' ∈ Vs → (V' ≤ V)%Z)).
Proof.
  induction 1 as [|a V todo Vs (b' & Hres & _ & Hcall) _ IH];
    intros best_val best_move; cbn [minimax_X_loop].
  - eexists. split; [done|]. left. split; [done|].
    intros ? Hin. by apply elem_of_nil in Hin.
  - rewrite Hres, Hcall. case_decide as Hbetter.
    + destruct (IH (Fin V) (Some a)) as (r & -> & [[-> Hrest]|Hlater]).
      * eexists. split; [done|]. right. exists 0, a, V.
        split_and!; [done..|]. intros V' [->|Hin]%elem_of_cons; [lia|].
        by apply Hrest.
      * destruct Hlater as (i & a' & V' & Ha' & HV' & -> & Hlt & Hmax).
        eexists. split; [done|]. right. exists (S i), a', V'.
        split_and!; [done..| |].
        -- clear IH Hcall. unfold ext_lt in *. destruct best_val; simpl in *; lia.
        -- intros V'' [->|Hin]%elem_of_cons; [|by apply Hmax].
           unfold ext_lt in Hlt. simpl in Hlt. lia.
    + destruct (IH best_val best_move) as (r & -> & [[-> Hrest]|Hlater]).
      * eexists. split; [done|]. left. split; [done|].
        intros V' [->|Hin]%elem_of_cons; [|by apply Hrest].
        unfold ext_lt in Hbetter. by apply dec_stable in Hbetter.
      * destruct Hlater as (i & a' & V' & Ha' & HV' & -> & Hlt & Hmax).
        eexists. split; [done|]. right. exists (S i), a', V'.
        split_and!; [done..|].
        intros V'' [->|Hin]%elem_of_cons; [|by apply Hmax].
        unfold ext_lt in *. apply dec_stable in Hbetter.
        destruct best_val; simpl in *; lia.
Qed.

Lemma minimax_O_loop_spec fuel b todo Vs :
  Forall2 (evaluated_child order fuel true b) todo Vs →
  ∀ best_val best_move,
    ∃ r, minimax_O_loop order fuel b todo best_val best_move = Some (Val r)
      ∧ ((r = best_move ∧ ∀ V, V ∈ Vs → ext_le best_val (Fin V))
         ∨ (∃ i a V, todo !! i = Some a ∧ Vs !! i = Some V ∧ r = Some a
              ∧ ext_lt (Fin V) best_val ∧ ∀ V', V' ∈ Vs → (V ≤ V')%Z)).
Proof.
  induction 1 as [|a V todo Vs (b' & Hres & _ & Hcall) _ IH];
    intros best_val best_move; cbn [minimax_O_loop].
  - eexists. split; [done|]. left. split; [done|].
    intros ? Hin. by apply elem_of_nil in Hin.
  - rewrite Hres, Hcall. case_decide as Hbetter.
    + destruct (IH (Fin V) (Some a)) as (r & -> & [[-> Hrest]|Hlater]).
      * eexists. split; [done|]. right. exists 0, a, V.
        split_and!; [done..|]. intros V' [->|Hin]%elem_of_cons; [lia|].
        by apply Hrest.
      * destruct Hlater as (i & a' & V' & Ha' & HV' & -> & Hlt & Hmax).
        eexists. split; [done|]. right. exists (S i), a', V'.
        split_and!; [done..| |].
        -- clear IH Hcall. unfold ext_lt in *. destruct best_val; simpl in *; lia.
        -- intros V'' [->|Hin]%elem_of_cons; [|by apply Hmax].
           unfold ext_lt in Hlt. simpl in Hlt. lia.
    + destruct (IH best_val best_move) as (r & -> & [[-> Hrest]|Hlater]).
      * eexists. split; [done|]. left. split; [done|].
        intros V' [->|Hin]%elem_of_cons; [|by apply Hrest].
        unfold ext_lt in Hbetter. by apply dec_stable in Hbetter.
      * destruct Hlater as (i & a' & V' & Ha' & HV' & -> & Hlt & Hmax).
        eexists. split; [done|]. right. exists (S i), a', V'.
        split_and!; [done..|].
        intros V'' [->|Hin]%elem_of_cons; [|by apply Hmax].
        unfold ext_lt in *. apply dec_stable in Hbetter.
        destruct best_val; simpl in *; lia.
Qed.

Lemma evaluated_children fuel b maximizing :
  three_by_three b → size (actions b) ≤ fuel →
  ∃ Vs, Forall2 (evaluated_child order fuel maximizing b) (order b) Vs.
Proof.
  intros Hb Hfuel. apply Forall_exists_Forall2_l, Forall_forall.
  intros a Ha%elem_of_order.
  destruct (result b a) as [b'|] eqn:Hres;
    [|by apply result_Throw in Hres as [? _]].
  destruct (alphabeta_full_window fuel b' 0 maximizing) as (value & Hcall & Hvalue).
  { by eapply three_by_three_result. }
  { rewrite (size_actions_result _ _ _ Hres) in Hfuel. lia. }
  exists value, b'. done.
Qed.

End tictactoe_search.

Section tictactoe_properties.
Import TicTacToe.
Local Open Scope nat_scope.

Lemma game_value_children (maximizing : bool) b todo Vs value
    (R : action → Z → Prop) :
  Forall2 R todo Vs →
  (∀ a V, R a V → ∃ b', result b a = Val b' ∧ game_value maximizing b' V) →
  (∀ a, a ∈ actions b ↔ a ∈ todo) →
  (∀ V, V ∈ Vs → if maximizing then (value ≤ V)%Z else (V ≤ value)%Z) →
  value ∈ Vs →
  terminal b = Val false →
  game_value (negb maximizing) b value.
Proof.
  intros HVs HR Hall Hbound Hattained Hterminal.
  assert (∀ a, a ∈ actions b →
            ∃ b' V, result b a = Val b' ∧ game_value maximizing b' V ∧ V ∈ Vs)
    as Hchildren.
  { intros a [i Hi]%Hall%list_elem_of_lookup.
    destruct (Forall2_lookup_l _ _ _ _ _ HVs Hi) as (V & HV & Hchild).
    destruct (HR _ _ Hchild) as (b' & Hres & Hvalue).
    exists b', V. split_and!; [done..|]. by eapply list_elem_of_lookup_2. }
  assert (∃ a b', a ∈ actions b ∧ result b a = Val b'
                  ∧ game_value maximizing b' value) as Hbest.
  { apply list_elem_of_lookup in Hattained as [i Hi].
    destruct (Forall2_lookup_r _ _ _ _ _ HVs Hi) as (a & Ha & Hchild).
    destruct (HR _ _ Hchild) as (b' & Hres & Hvalue).
    exists a, b'. split_and!; [|done..].
    apply Hall. by eapply list_elem_of_lookup_2. }
  destruct maximizing; simpl.
  - apply game_value_min; [done| |done].
    intros a Ha. destruct (Hchildren a Ha) as (b' & V & Hres & Hvalue & HV).
    exists b', V. split_and!; [done..|]. by apply Hbound.
  - apply game_value_max; [done| |done].
    intros a Ha. destruct (Hchildren a Ha) as (b' & V & Hres & Hvalue & HV).
    exists b', V. split_and!; [done..|]. by apply Hbound.
Qed.

Lemma size_actions_initial_state : size (actions initial_state) = 9.
Proof. reflexivity. Qed.

Lemma raises_IndexError b :
  cell_at b (0, 0) = None →
  winner b = Throw IndexError
  ∧ terminal b = Throw IndexError
  ∧ utility b = Throw IndexError.
Proof.
  intros Hcell.
  assert (∀ a2 a3 todo,
            winner_loop b (((0, 0), a2, a3) :: todo) = Throw IndexError) as Hloop.
  { intros. cbn [winner_loop]. by rewrite (getitem2_cell_at b (0, 0)), Hcell. }
  assert (winner b = Throw IndexError) as Hw by apply Hloop.
  unfold terminal, utility. by rewrite Hw.
Qed.

(** X19: the turn order.  [player] gives the first move to [X], returns
    [X] exactly when the number of marks on the board is even, and every
    move that [result] accepts adds one mark and hands the turn to the
    other player. *)
Theorem player_turns b :
  player initial_state = X
  ∧ (player b = X ↔ Nat.Even (marks b))
  ∧ (∀ a b', result b a = Val b' →
       marks b' = S (marks b) ∧ player b' ≠ player b).
Proof.
  split_and!.
  - reflexivity.
  - rewrite player_marks. destruct (Nat.even (marks b)) eqn:Heven.
    + by apply Nat.even_spec in Heven.
    + split; [done|]. intros Hev%Nat.even_spec. congruence.
  - intros a b' Hres. split; [by eapply marks_result|by eapply player_result].
Qed.

(** X20: [result] accepts exactly the actions of [actions], which are the
    positions of the board that hold [EMPTY].  For any other action, a
    position outside the board included, it raises [Exception] and never
    [IndexError].  An accepted move writes the mark of the player to move
    at that position and changes no other cell, and the new board has the
    same actions but that one. *)
Theorem result_effect b a :
  (a ∈ actions b ↔ cell_at b a = Some None)
  ∧ (result b a = Throw Exception ↔ cell_at b a ≠ Some None)
  ∧ result b a ≠ Throw IndexError
  ∧ (∀ b', result b a = Val b' →
       cell_at b a = Some None
       ∧ (∀ a', cell_at b' a'
                = if decide (a' = a) then Some (Some (player b)) else cell_at b a')
       ∧ actions b' = actions b ∖ {[ a ]}
       ∧ size (actions b) = S (size (actions b'))).
Proof.
  split_and!.
  - apply elem_of_actions.
  - rewrite result_Throw, elem_of_actions. naive_solver.
  - intros [_ [=]]%result_Throw.
  - intros b' Hres. split_and!.
    + apply elem_of_actions. by apply result_Val in Hres as [? _].
    + intros a'. by apply cell_at_result.
    + by apply actions_result.
    + by eapply size_actions_result.
Qed.

(** X21: on a board of three rows of three cells [winner] returns without
    an exception; a mark it returns holds one of the eight lines, it returns
    [None] exactly when neither mark holds a line, and when only one mark
    holds a line it returns that mark. *)
Theorem winner_line b :
  three_by_three b →
  ∃ w, winner b = Val w
    ∧ (∀ m, w = Some m → has_line b m)
    ∧ (w = None ↔ ∀ m, ¬ has_line b m)
    ∧ (has_line b X → ¬ has_line b O → w = Some X)
    ∧ (has_line b O → ¬ has_line b X → w = Some O).
Proof.
  intros Hb. destruct (winner_spec b Hb) as (w & Hw & Hsome & Hnone).
  exists w. split_and!; [done..| |].
  - intros HX HO. destruct w as [[]|]; [done| |].
    + exfalso. by apply HO, Hsome.
    + exfalso. by eapply (proj1 Hnone).
  - intros HO HX. destruct w as [[]|]; [|done|].
    + exfalso. by apply HX, Hsome.
    + exfalso. by eapply (proj1 Hnone).
Qed.

(** X22: on a board of three rows of three cells [terminal] and [utility]
    return without an exception.  [terminal] returns [True] exactly when a
    mark holds a line or no cell is [EMPTY]; [utility] returns 1, 0 or -1,
    1 only when [X] holds a line and -1 only when [O] does, so a utility
    other than 0 is found on finished games only. *)
Theorem terminal_utility b :
  three_by_three b →
  ∃ t u, terminal b = Val t ∧ utility b = Val u
    ∧ (t = true ↔ has_line b X ∨ has_line b O ∨ ∀ a, cell_at b a ≠ Some None)
    ∧ (u = 1%Z → has_line b X)
    ∧ (u = (-1)%Z → has_line b O)
    ∧ (u ≠ 0%Z → t = true)
    ∧ (-1 ≤ u ≤ 1)%Z.
Proof.
  intros Hb. destruct (winner_spec b Hb) as (w & Hw & Hsome & Hnone).
  rewrite (terminal_spec b w Hw), (utility_spec b w Hw).
  eexists _, _. split_and!; [done|done|..].
  - rewrite bool_decide_eq_true. split.
    + intros [Hwin|Hfull].
      * destruct w as [[]|]; [left|right; left|done]; by apply Hsome.
      * right; right. intros a Ha%elem_of_actions. set_solver.
    + intros [HX|[HO|Hfull]].
      * left. intros Hw0. by eapply (proj1 Hnone).
      * left. intros Hw0. by eapply (proj1 Hnone).
      * right. apply set_eq. intros a. rewrite elem_of_actions.
        split; [by intros ?%Hfull|set_solver].
  - destruct w as [[]|]; try done. intros _. by apply Hsome.
  - destruct w as [[]|]; try done. intros _. by apply Hsome.
  - intros Hu. apply bool_decide_eq_true. left. by destruct w.
  - destruct w as [[]|]; lia.
  - destruct w as [[]|]; lia.
Qed.

(** X23: a board without the cell [(0, 0)], the empty list for one, makes
    [winner] raise [IndexError], and the exception leaves [terminal],
    [utility], [alphabeta] and [minimax] as it is. *)
Theorem raises_on_missing_cell (order : board → list action) b :
  cell_at b (0, 0) = None →
  winner b = Throw IndexError
  ∧ terminal b = Throw IndexError
  ∧ utility b = Throw IndexError
  ∧ (∀ fuel, minimax order fuel b = Some (Throw IndexError))
  ∧ (∀ fuel depth alpha beta maximizing,
       alphabeta order (S fuel) b depth alpha beta maximizing
       = Some (Throw IndexError)).
Proof.
  intros Hcell. destruct (raises_IndexError b Hcell) as (Hw & Ht & Hu).
  split_and!; [done..| |].
  - intros. unfold minimax. by rewrite Ht.
  - intros. cbn [alphabeta]. by rewrite Ht.
Qed.

Section any_order.

Variable order : board → list action.
Hypothesis order_actions : ∀ b, order b ≡ₚ elements (actions b).

(** X24: [alphabeta] is a sound fail-soft search.  On a board of three rows
    of three cells, for a window with [alpha < beta] and in whatever order
    the actions are visited, the recursion is no deeper than one call more
    than there are empty cells, of which there are at most 9, and
    [alphabeta] returns a number [v]: [v] is the minimax
    value of the position when it lies strictly inside the window, at least
    the value when [v <= alpha], and at most the value when [v >= beta]. *)
Theorem alphabeta_window fuel b depth alpha beta maximizing :
  three_by_three b → size (actions b) < fuel → ext_lt alpha beta →
  size (actions b) ≤ 9
  ∧ ∃ v value,
      alphabeta order fuel b depth alpha beta maximizing = Some (Val (Fin v))
      ∧ game_value maximizing b value
      ∧ (ext_le (Fin v) alpha → (value ≤ v)%Z)
      ∧ (ext_le beta (Fin v) → (v ≤ value)%Z)
      ∧ (ext_lt alpha (Fin v) → ext_lt (Fin v) beta → v = value).
Proof.
  intros Hb Hfuel Hwindow. split; [by apply size_actions_three_by_three|].
  by apply alphabeta_sound.
Qed.

(** X26: [minimax] returns [None] exactly on a finished game; otherwise it
    returns a move that [result] accepts and that is optimal for the
    player to move: the position it leads to has the minimax value of the
    board, maximised for [X] and minimised for [O]. *)
Theorem minimax_optimal fuel b :
  three_by_three b → size (actions b) ≤ fuel →
  (terminal b = Val true ∧ minimax order fuel b = Some (Val None))
  ∨ (terminal b = Val false
     ∧ ∃ a b' value,
         minimax order fuel b = Some (Val (Some a))
         ∧ result b a = Val b'
         ∧ game_value (bool_decide (player b = O)) b' value
         ∧ game_value (bool_decide (player b = X)) b value).
Proof.
  intros Hb Hfuel. unfold minimax.
  destruct (terminal_cases b Hb) as [(u & Hterminal & Hu)|[Hterminal Hmoves]];
    rewrite Hterminal; [by left|right; split; [done|]].
  pose proof (order_nonempty order order_actions b Hmoves) as Horder.
  destruct (player b) eqn:Hplayer.
  - destruct (evaluated_children order order_actions fuel b false Hb Hfuel)
      as [Vs HVs].
    destruct (minimax_X_loop_spec order fuel b _ _ HVs NegInf None)
      as (r & -> & [[-> Hnone]|Hbest]).
    { exfalso. destruct HVs as [|a V todo Vs _ _]; [done|].
      apply (Hnone V). by left. }
    destruct Hbest as (i & a & V & Ha & HV & -> & _ & Hmax).
    destruct (Forall2_lookup_lr _ _ _ _ _ _ HVs Ha HV) as (b' & Hres & Hvalue & _).
    exists a, b', V. split_and!; [done..|].
    apply (game_value_children false b (order b) Vs V
             (evaluated_child order fuel false b)); [done| | |done| |done].
    + intros a0 V0 (b0 & ? & ? & _). by exists b0.
    + intros a0. by rewrite (elem_of_order order order_actions).
    + by eapply list_elem_of_lookup_2.
  - destruct (evaluated_children order order_actions fuel b true Hb Hfuel)
      as [Vs HVs].
    destruct (minimax_O_loop_spec order fuel b _ _ HVs PosInf None)
      as (r & -> & [[-> Hnone]|Hbest]).
    { exfalso. destruct HVs as [|a V todo Vs _ _]; [done|].
      apply (Hnone V). by left. }
    destruct Hbest as (i & a & V & Ha & HV & -> & _ & Hmin).
    destruct (Forall2_lookup_lr _ _ _ _ _ _ HVs Ha HV) as (b' & Hres & Hvalue & _).
    exists a, b', V. split_and!; [done..|].
    apply (game_value_children true b (order b) Vs V
             (evaluated_child order fuel true b)); [done| | |done| |done].
    + intros a0 V0 (b0 & ? & ? & _). by exists b0.
    + intros a0. by rewrite (elem_of_order order order_actions).
    + by eapply list_elem_of_lookup_2.
Qed.

End any_order.

(** X25: pruning and the order of the moves do not change the result.  On
    the full window [(-inf, inf)] [alphabeta] returns exactly the minimax
    value of the position, which is -1, 0 or 1, for every order in which
    the actions are visited and every value of [depth]. *)
Theorem alphabeta_minimax_value (order1 order2 : board → list action)
    fuel1 fuel2 depth1 depth2 b maximizing :
  (∀ b, order1 b ≡ₚ elements (actions b)) →
  (∀ b, order2 b ≡ₚ elements (actions b)) →
  three_by_three b → size (actions b) < fuel1 → size (actions b) < fuel2 →
  ∃ value,
    alphabeta order1 fuel1 b depth1 NegInf PosInf maximizing
      = Some (Val (Fin value))
    ∧ alphabeta order2 fuel2 b depth2 NegInf PosInf maximizing
      = Some (Val (Fin value))
    ∧ game_value maximizing b value
    ∧ (-1 ≤ value ≤ 1)%Z.
Proof.
  intros Horder1 Horder2 Hb Hfuel1 Hfuel2.
  destruct (alphabeta_full_window order1 Horder1 fuel1 b depth1 maximizing
              Hb Hfuel1) as (value & Hcall1 & Hvalue).
  destruct (alphabeta_full_window order2 Horder2 fuel2 b depth2 maximizing
              Hb Hfuel2) as (value' & Hcall2 & Hvalue').
  rewrite (game_value_unique _ _ _ _ Hvalue' Hvalue) in Hcall2.
  exists value. do 3 (split; [done|]). by eapply game_value_range.
Qed.

End tictactoe_properties.

Section tictactoe_witnesses.
Import TicTacToe.
Local Open Scope nat_scope.

Lemma winner_line_witness :
  three_by_three initial_state
  ∧ ∃ w, winner initial_state = Val w
      ∧ (∀ m, w = Some m → has_line initial_state m)
      ∧ (w = None ↔ ∀ m, ¬ has_line initial_state m)
      ∧ (has_line initial_state X → ¬ has_line initial_state O → w = Some X)
      ∧ (has_line initial_state O → ¬ has_line initial_state X → w = Some O).
Proof.
  split; [exact three_by_three_initial_state|].
  exact (winner_line initial_state three_by_three_initial_state).
Defined.

Lemma terminal_utility_witness :
  three_by_three initial_state
  ∧ ∃ t u, terminal initial_state = Val t ∧ utility initial_state = Val u
      ∧ (t = true ↔ has_line initial_state X ∨ has_line initial_state O
                    ∨ ∀ a, cell_at initial_state a ≠ Some None)
      ∧ (u = 1%Z → has_line initial_state X)
      ∧ (u = (-1)%Z → has_line initial_state O)
      ∧ (u ≠ 0%Z → t = true)
      ∧ (-1 ≤ u ≤ 1)%Z.
Proof.
  split; [exact three_by_three_initial_state|].
  exact (terminal_utility initial_state three_by_three_initial_state).
Defined.

Lemma raises_on_missing_cell_witness :
  cell_at [] (0, 0) = None
  ∧ winner [] = Throw IndexError
  ∧ terminal [] = Throw IndexError
  ∧ utility [] = Throw IndexError
  ∧ (∀ fuel, minimax (λ b, elements (actions b)) fuel []
             = Some (Throw IndexError))
  ∧ (∀ fuel depth alpha beta maximizing,
       alphabeta (λ b, elements (actions b)) (S fuel) [] depth alpha beta
         maximizing
       = Some (Throw IndexError)).
Proof.
  split; [reflexivity|].
  exact (raises_on_missing_cell (λ b, elements (actions b)) [] eq_refl).
Defined.

Lemma alphabeta_window_witness :
  (∀ b : board, elements (actions b) ≡ₚ elements (actions b))
  ∧ three_by_three initial_state
  ∧ size (actions initial_state) < 10
  ∧ ext_lt (Fin (-1)) (Fin 1)
  ∧ size (actions initial_state) ≤ 9
  ∧ ∃ v value,
      alphabeta (λ b, elements (actions b)) 10 initial_state 0
        (Fin (-1)) (Fin 1) true
      = Some (Val (Fin v))
      ∧ game_value true initial_state value
      ∧ (ext_le (Fin v) (Fin (-1)) → (value ≤ v)%Z)
      ∧ (ext_le (Fin 1) (Fin v) → (v ≤ value)%Z)
      ∧ (ext_lt (Fin (-1)) (Fin v) → ext_lt (Fin v) (Fin 1) → v = value).
Proof.
  assert (∀ b : board, elements (actions b) ≡ₚ elements (actions b)) as Horder
    by reflexivity.
  assert (size (actions initial_state) < 10) as Hfuel
    by (rewrite size_actions_initial_state; lia).
  assert (ext_lt (Fin (-1)) (Fin 1)) as Hwindow
    by (unfold ext_lt; simpl; lia).
  split; [exact Horder|]. split; [exact three_by_three_initial_state|].
  split; [exact Hfuel|]. split; [exact Hwindow|].
  exact (alphabeta_window (λ b, elements (actions b)) Horder 10 initial_state 0
           (Fin (-1)) (Fin 1) true three_by_three_initial_state Hfuel Hwindow).
Defined.

Lemma alphabeta_minimax_value_witness :
  (∀ b : board, elements (actions b) ≡ₚ elements (actions b))
  ∧ (∀ b : board, reverse (elements (actions b)) ≡ₚ elements (actions b))
  ∧ three_by_three initial_state
  ∧ size (actions initial_state) < 10
  ∧ size (actions initial_state) < 12
  ∧ ∃ value,
      alphabeta (λ b, elements (actions b)) 10 initial_state 0 NegInf PosInf
        true
      = Some (Val (Fin value))
      ∧ alphabeta (λ b, reverse (elements (actions b))) 12 initial_state 3
          NegInf PosInf true
        = Some (Val (Fin value))
      ∧ game_value true initial_state value
      ∧ (-1 ≤ value ≤ 1)%Z.
Proof.
  assert (∀ b : board, elements (actions b) ≡ₚ elements (actions b)) as Horder1
    by reflexivity.
  assert (∀ b : board, reverse (elements (actions b)) ≡ₚ elements (actions b))
    as Horder2 by (intros b; apply reverse_Permutation).
  assert (size (actions initial_state) < 10) as Hfuel1
    by (rewrite size_actions_initial_state; lia).
  assert (size (actions initial_state) < 12) as Hfuel2
    by (rewrite size_actions_initial_state; lia).
  split; [exact Horder1|]. split; [exact Horder2|].
  split; [exact three_by_three_initial_state|].
  split; [exact Hfuel1|]. split; [exact Hfuel2|].
  exact (alphabeta_minimax_value _ _ 10 12 0 3 initial_state true
           Horder1 Horder2 three_by_three_initial_state Hfuel1 Hfuel2).
Defined.

Lemma minimax_optimal_witness :
  (∀ b : board, elements (actions b) ≡ₚ elements (actions b))
  ∧ three_by_three initial_state
  ∧ size (actions initial_state) ≤ 9
  ∧ ((terminal initial_state = Val true
      ∧ minimax (λ b, elements (actions b)) 9 initial_state = Some (Val None))
     ∨ (terminal initial_state = Val false
        ∧ ∃ a b' value,
            minimax (λ b, elements (actions b)) 9 initial_state
            = Some (Val (Some a))
            ∧ result initial_state a = Val b'
            ∧ game_value (bool_decide (player initial_state = O)) b' value
            ∧ game_value (bool_decide (player initial_state = X))
                initial_state value)).
Proof.
  assert (∀ b : board, elements (actions b) ≡ₚ elements (actions b)) as Horder
    by reflexivity.
  assert (size (actions initial_state) ≤ 9) as Hfuel
    by (rewrite size_actions_initial_state; lia).
  split; [exact Horder|]. split; [exact three_by_three_initial_state|].
  split; [exact Hfuel|].
  exact (minimax_optimal (λ b, elements (actions b)) Horder 9 initial_state
           three_by_three_initial_state Hfuel).
Defined.

End tictactoe_witnesses.
